(** * Two-layer render cache: memory (L1) + IndexedDB (L2)

    A shallow embedding of [ExtensionCacheManager] (src/renderer.js, the
    variant with asynchronous cleanup that the background script
    instantiates) and the properties of its cache behaviour; with it the
    cache keys and the statistics of the manager, the cache service of
    the background script, the proxy through which the content script
    reaches it, the render methods of [ExtensionRenderer] that go
    through that proxy, and the older variant of the manager
    (src/cache-manager.js) whose [set] waits for the cleanup.

    Conventions of the embedding:
    - a JS [Map] used as a dictionary is a [gmap string _];
      [memoryAccessOrder] is a [list string], oldest key first;
    - the IndexedDB object store (keyPath ['key']) is a [gmap] from the
      primary key to the remaining fields of the stored record;
    - an [async] method run without interleaving is a function from the
      manager state to a settled promise and the next state; what the
      platform decides (clock readings, success or failure of a request)
      is an explicit argument;
    - a loop that may not terminate returns [None] where the source spins. *)

From Stdlib Require Import ZArith String List Sorted Permutation.
From Stdlib Require Import Ascii DecimalString HexString.
From Stdlib.Strings Require Import Byte.
From stdpp Require Import gmap strings list sorting fin_maps.

Local Open Scope Z_scope.
#[local] Set Warnings "-clear-no-such-hyp".

Module ExtensionCacheManager.

(** ** Values, errors, promises *)

(** Cached payloads.  The cache never inspects them except for the test
    [memoryResult !== null] in [get]. *)
#[local] Set Warnings "-register-all".
Inductive Value :=
  | VNull
  | VUndefined
  | VBool (b : bool)
  | VNum (n : Z)
  | VStr (s : string)
  | VObj (fields : list (string * Value)).
#[local] Set Warnings "register-all".

(** [v !== null] *)
Definition not_null (v : Value) : bool :=
  match v with VNull => false | _ => true end.

Inductive Error :=
  | DOMException (name : string)   (* request.error / transaction.error *)
  | JsError (message : string).    (* new Error(message) *)

Inductive Settled (A : Type) :=
  | Fulfilled (a : A)
  | Rejected (e : Error).
Arguments Fulfilled {A} a.
Arguments Rejected {A} e.

(** ** Records *)

(** Second argument of [_addToMemoryCache]: [{ type }] in [set],
    [{ type, originalTimestamp }] in [get]. *)
Record Metadata := {
  meta_type : string;
  originalTimestamp : option Z
}.

(** [{ value, metadata, accessTime }], an entry of [memoryCache]. *)
Record MemEntry := {
  entry_value : Value;
  entry_metadata : Metadata;
  entry_accessTime : Z
}.

(** [{ key, value, type, size, timestamp, accessTime }], a record of the
    object store; [key] is the store's in-line primary key and is the
    key of the map that holds the record. *)
Record Item := {
  item_value : Value;
  item_type : string;
  item_size : Z;
  item_timestamp : Z;
  item_accessTime : Z
}.

(** The L1 tier: [this.memoryCache] and [this.memoryAccessOrder]. *)
Record Memory := {
  memoryCache : gmap string MemEntry;
  memoryAccessOrder : list string
}.

(** [this.db] together with [this.initPromise], once [indexedDB.open] has
    settled: either the handle was stored by [onsuccess] (and the promise
    resolved), or [this.db] is still [null] and the promise is rejected
    with [request.error]. *)
Inductive Db :=
  | DbOpen (store : gmap string Item)
  | DbFailed (e : Error).

(** A suspended [_asyncCleanup] body: before the [count()] result, or
    before the cursor scan with [itemsToDelete] already computed. *)
Inductive Phase :=
  | AwaitCount
  | AwaitScan (itemsToDelete : nat).

(** The manager.  The first seven fields are those of the JS object.  The
    last three are the event loop's share of the state: [timers] counts
    the armed 10ms callbacks of [_scheduleAsyncCleanup], [passes] lists
    the [_asyncCleanup] bodies that passed the entry guard and have not
    reached [finally], [pollers] counts the callers of [cleanup()] that
    sit in its 50ms polling loop.

    [maxItems] and [memoryMaxItems] are item counts (defaults 1000 and
    100; the background script passes [settings.maxCacheItems || 1000]). *)
Record Manager := {
  maxItems : nat;
  memoryMaxItems : nat;
  memory : Memory;
  db : Db;
  cleanupInProgress : bool;
  cleanupScheduled : bool;
  timers : nat;
  passes : list Phase;
  pollers : nat
}.

Definition with_memory (mem : Memory) (m : Manager) : Manager :=
  {| maxItems := maxItems m; memoryMaxItems := memoryMaxItems m;
     memory := mem; db := db m;
     cleanupInProgress := cleanupInProgress m;
     cleanupScheduled := cleanupScheduled m;
     timers := timers m; passes := passes m; pollers := pollers m |}.

Definition with_db (d : Db) (m : Manager) : Manager :=
  {| maxItems := maxItems m; memoryMaxItems := memoryMaxItems m;
     memory := memory m; db := d;
     cleanupInProgress := cleanupInProgress m;
     cleanupScheduled := cleanupScheduled m;
     timers := timers m; passes := passes m; pollers := pollers m |}.

Definition with_cleanupInProgress (b : bool) (m : Manager) : Manager :=
  {| maxItems := maxItems m; memoryMaxItems := memoryMaxItems m;
     memory := memory m; db := db m;
     cleanupInProgress := b;
     cleanupScheduled := cleanupScheduled m;
     timers := timers m; passes := passes m; pollers := pollers m |}.

Definition with_cleanupScheduled (b : bool) (m : Manager) : Manager :=
  {| maxItems := maxItems m; memoryMaxItems := memoryMaxItems m;
     memory := memory m; db := db m;
     cleanupInProgress := cleanupInProgress m;
     cleanupScheduled := b;
     timers := timers m; passes := passes m; pollers := pollers m |}.

Definition with_timers (n : nat) (m : Manager) : Manager :=
  {| maxItems := maxItems m; memoryMaxItems := memoryMaxItems m;
     memory := memory m; db := db m;
     cleanupInProgress := cleanupInProgress m;
     cleanupScheduled := cleanupScheduled m;
     timers := n; passes := passes m; pollers := pollers m |}.

Definition with_passes (ps : list Phase) (m : Manager) : Manager :=
  {| maxItems := maxItems m; memoryMaxItems := memoryMaxItems m;
     memory := memory m; db := db m;
     cleanupInProgress := cleanupInProgress m;
     cleanupScheduled := cleanupScheduled m;
     timers := timers m; passes := ps; pollers := pollers m |}.

Definition with_pollers (n : nat) (m : Manager) : Manager :=
  {| maxItems := maxItems m; memoryMaxItems := memoryMaxItems m;
     memory := memory m; db := db m;
     cleanupInProgress := cleanupInProgress m;
     cleanupScheduled := cleanupScheduled m;
     timers := timers m; passes := passes m; pollers := n |}.

(** [globalCacheManager.maxItems = newMaxItems] (settings listener). *)
Definition with_maxItems (n : nat) (m : Manager) : Manager :=
  {| maxItems := n; memoryMaxItems := memoryMaxItems m;
     memory := memory m; db := db m;
     cleanupInProgress := cleanupInProgress m;
     cleanupScheduled := cleanupScheduled m;
     timers := timers m; passes := passes m; pollers := pollers m |}.

(** ** L1: the memory cache *)

(** [index = order.indexOf(key); if (index > -1) order.splice(index, 1)] *)
Fixpoint splice_first (key : string) (order : list string) : list string :=
  match order with
  | [] => []
  | k :: rest => if decide (k = key) then rest else k :: splice_first key rest
  end.

Definition _removeFromMemoryCache (key : string) (mem : Memory) : Memory :=
  match memoryCache mem !! key with
  | Some _ =>
      {| memoryCache := base.delete key (memoryCache mem);
         memoryAccessOrder := splice_first key (memoryAccessOrder mem) |}
  | None => mem
  end.

(** [while (memoryCache.size > memoryMaxItems)
      { oldestKey = memoryAccessOrder.shift(); memoryCache.delete(oldestKey) }]

    On an empty array [shift()] yields [undefined], deleting it changes
    nothing and the loop spins: [None]. *)
Fixpoint evictOldest (limit : nat) (cache : gmap string MemEntry)
    (order : list string) {struct order} : option Memory :=
  if decide (size cache ≤ limit)%nat then
    Some {| memoryCache := cache; memoryAccessOrder := order |}
  else
    match order with
    | [] => None
    | oldestKey :: rest => evictOldest limit (base.delete oldestKey cache) rest
    end.

Definition _addToMemoryCache (limit : nat) (key : string) (value : Value)
    (metadata : Metadata) (now : Z) (mem : Memory) : option Memory :=
  let mem1 :=
    match memoryCache mem !! key with
    | Some _ => _removeFromMemoryCache key mem
    | None => mem
    end in
  evictOldest limit
    (<[key := {| entry_value := value; entry_metadata := metadata;
                 entry_accessTime := now |}]> (memoryCache mem1))
    (memoryAccessOrder mem1 ++ [key]).

(** Returns [item.value], or [null] when the key is absent.  The source's
    second test [if (!item)] cannot fire: every entry is an object. *)
Definition _getFromMemoryCache (key : string) (now : Z) (mem : Memory)
    : Value * Memory :=
  match memoryCache mem !! key with
  | None => (VNull, mem)
  | Some item =>
      let mem1 := _removeFromMemoryCache key mem in
      (entry_value item,
       {| memoryCache :=
            <[key := {| entry_value := entry_value item;
                        entry_metadata := entry_metadata item;
                        entry_accessTime := now |}]> (memoryCache mem1);
          memoryAccessOrder := memoryAccessOrder mem1 ++ [key] |})
  end.

Definition _clearMemoryCache (mem : Memory) : Memory :=
  {| memoryCache := ∅; memoryAccessOrder := [] |}.

(** ** L2: the IndexedDB object store *)

(** Outcome of the [store.get] request of [get]. *)
Inductive ReadOutcome :=
  | ReadSuccess
  | ReadRequestError (e : Error)        (* getRequest.onerror *)
  | ReadTransactionError (e : Error).   (* transaction.onerror *)

(** Outcome of the [store.put] of [set], as the sequence of events the
    handlers of [set] see.  The promise around the request is settled by
    the first handler that runs, which is one of the request: a
    transaction reports an error only when the error event of a request
    bubbles to it, and it aborts either with a request that failed or
    after its requests are done.
    - [PutSuccess]: [request.onsuccess], and the transaction commits;
    - [PutRequestError e]: [request.onerror] with [request.error = e],
      then [transaction.onerror] as the event bubbles and
      [transaction.onabort] as the transaction aborts;
    - [PutTransactionAbort]: [request.onsuccess], then the transaction
      fails to commit: [transaction.onabort] after the promise is
      resolved, and the record is not stored;
    - [PutTransactionThrows e]: [db.transaction(...)] throws [e]. *)
Inductive PutOutcome :=
  | PutSuccess
  | PutRequestError (e : Error)
  | PutTransactionAbort
  | PutTransactionThrows (e : Error).

(** Outcome of a single request ([delete], [clear], [count], the
    get-then-put of [updateAccessTime]). *)
Inductive RequestOutcome :=
  | RequestSuccess
  | RequestError (e : Error).

(** Outcome of the readwrite transaction of [_asyncCleanup].  A failing
    delete request aborts its transaction, so the deletions queued in it
    are not applied; the L1 removals of the [forEach] have already run. *)
Inductive ScanOutcome :=
  | ScanSuccess
  | ScanCursorError (e : Error)         (* fails before the forEach *)
  | ScanDeleteError (e : Error)         (* deleteRequest.onerror *)
  | ScanTransactionAbort.               (* cleanupTransaction.onabort *)

(** Order of the ['accessTime'] index: by index key, then primary key. *)
Definition index_le (a b : string * Z) : Prop :=
  a.2 < b.2 ∨ (a.2 = b.2 ∧ String.leb a.1 b.1 = true).

#[global] Instance index_le_dec a b : Decision (index_le a b).
Proof. unfold index_le. apply _. Defined.

(** [index.openCursor()] run to the end, pushing
    [{ key: cursor.value.key, accessTime: cursor.value.accessTime }]. *)
Definition index_scan (store : gmap string Item) : list (string * Z) :=
  merge_sort index_le
    ((λ kv : string * Item, (kv.1, item_accessTime kv.2)) <$> map_to_list store).

(** [items.sort((a, b) => a.accessTime - b.accessTime)]: a stable sort. *)
Fixpoint sort_insert (a : string * Z) (items : list (string * Z))
    : list (string * Z) :=
  match items with
  | [] => [a]
  | b :: rest =>
      if decide (a.2 - b.2 ≤ 0) then a :: b :: rest
      else b :: sort_insert a rest
  end.

Fixpoint array_sort (items : list (string * Z)) : list (string * Z) :=
  match items with
  | [] => []
  | a :: rest => sort_insert a (array_sort rest)
  end.

Section WithPlatform.

(** [estimateSize(data)]: the byte size of a [Blob] holding the string or
    its [JSON.stringify]; a function of the platform. *)
Variable estimateSize : Value → Z.

(** [new ExtensionCacheManager(maxItems, memoryMaxItems)]; [opened] is
    how the [indexedDB.open] started by [initDB] settles, with the records
    an earlier session left in the store. *)
Definition constructor (maxItems memoryMaxItems : nat) (opened : Db) : Manager :=
  {| maxItems := maxItems; memoryMaxItems := memoryMaxItems;
     memory := {| memoryCache := ∅; memoryAccessOrder := [] |};
     db := opened;
     cleanupInProgress := false; cleanupScheduled := false;
     timers := 0; passes := []; pollers := 0 |}.

(** [if (!this.db) await this.initPromise; return this.db] *)
Definition ensureDB (m : Manager) : Settled (gmap string Item) :=
  match db m with
  | DbOpen store => Fulfilled store
  | DbFailed e => Rejected e
  end.

Definition read_error (o : ReadOutcome) : option Error :=
  match o with
  | ReadSuccess => None
  | ReadRequestError e | ReadTransactionError e => Some e
  end.

(** ** Scheduling of the cleanup *)

Definition _scheduleAsyncCleanup (m : Manager) : Manager :=
  if cleanupScheduled m || cleanupInProgress m then m
  else with_timers (S (timers m)) (with_cleanupScheduled true m).

(** ** Public operations, run without interleaving *)

(** [now_lookup] and [now_insert] are the two readings of [Date.now()],
    in [_getFromMemoryCache] and in [_addToMemoryCache].  On a hit in
    either tier the source also arms a [setTimeout(..., 0)] that calls
    [updateAccessTime(key)]; that call is an event of its own
    ([EvUpdateAccessTime] below). *)
Definition get (key : string) (now_lookup now_insert : Z) (read : ReadOutcome)
    (m : Manager) : option (Settled Value * Manager) :=
  let '(memoryResult, mem1) := _getFromMemoryCache key now_lookup (memory m) in
  let m1 := with_memory mem1 m in
  if not_null memoryResult then Some (Fulfilled memoryResult, m1)
  else
    match ensureDB m1 with
    | Rejected e => Some (Rejected e, m1)
    | Fulfilled store =>
        match read_error read with
        | Some e => Some (Rejected e, m1)
        | None =>
            match store !! key with
            | Some result =>
                mem2 ← _addToMemoryCache (memoryMaxItems m) key (item_value result)
                         {| meta_type := item_type result;
                            originalTimestamp := Some (item_timestamp result) |}
                         now_insert mem1;
                Some (Fulfilled (item_value result), with_memory mem2 m1)
            | None => Some (Fulfilled VNull, m1)
            end
        end
    end.

Definition updateAccessTime (key : string) (now : Z) (req : RequestOutcome)
    (m : Manager) : Settled unit * Manager :=
  match ensureDB m with
  | Rejected e => (Rejected e, m)
  | Fulfilled store =>
      match req with
      | RequestError e => (Rejected e, m)
      | RequestSuccess =>
          match store !! key with
          | Some item =>
              (Fulfilled (),
               with_db (DbOpen (<[key :=
                  {| item_value := item_value item; item_type := item_type item;
                     item_size := item_size item;
                     item_timestamp := item_timestamp item;
                     item_accessTime := now |}]> store)) m)
          | None => (Fulfilled (), m)
          end
      end
  end.

(** [now_insert] is the reading of [Date.now()] in [_addToMemoryCache],
    [now_item] the one stored in the record.  [ensureDB] is awaited
    before the [try] block: when it rejects, the L1 entry stays.

    Every handler that runs on a failure calls
    [_removeFromMemoryCache(key)], and so does the [catch] block.  When
    the request succeeds and the transaction aborts afterwards, the
    promise is already resolved: [_scheduleAsyncCleanup] has run and
    [set] has fulfilled by the time [onabort] removes the L1 entry. *)
Definition set (key : string) (value : Value) (type : string)
    (now_insert now_item : Z) (put : PutOutcome) (m : Manager)
    : option (Settled unit * Manager) :=
  mem1 ← _addToMemoryCache (memoryMaxItems m) key value
           {| meta_type := type; originalTimestamp := None |}
           now_insert (memory m);
  let m1 := with_memory mem1 m in
  match ensureDB m1 with
  | Rejected e => Some (Rejected e, m1)
  | Fulfilled store =>
      let item :=
        {| item_value := value; item_type := type;
           item_size := estimateSize value;
           item_timestamp := now_item; item_accessTime := now_item |} in
      let removed mem := _removeFromMemoryCache key mem in
      match put with
      | PutSuccess =>
          Some (Fulfilled (),
                _scheduleAsyncCleanup
                  (with_db (DbOpen (<[key := item]> store)) m1))
      | PutRequestError e =>
          (* [request.onerror], the [catch] block, then
             [transaction.onerror] and [transaction.onabort] *)
          Some (Rejected e,
                with_memory (removed (removed (removed (removed mem1)))) m1)
      | PutTransactionAbort =>
          (* resolved by [request.onsuccess]; then [transaction.onabort] *)
          let m2 := _scheduleAsyncCleanup m1 in
          Some (Fulfilled (), with_memory (removed (memory m2)) m2)
      | PutTransactionThrows e =>
          (* the [catch] block *)
          Some (Rejected e, with_memory (removed mem1) m1)
      end
  end.

Definition delete (key : string) (req : RequestOutcome) (m : Manager)
    : Settled unit * Manager :=
  let m1 := with_memory (_removeFromMemoryCache key (memory m)) m in
  match ensureDB m1 with
  | Rejected e => (Rejected e, m1)
  | Fulfilled store =>
      match req with
      | RequestSuccess => (Fulfilled (), with_db (DbOpen (base.delete key store)) m1)
      | RequestError e => (Rejected e, m1)
      end
  end.

Definition clear (req : RequestOutcome) (m : Manager) : Settled unit * Manager :=
  let m1 := with_memory (_clearMemoryCache (memory m)) m in
  match ensureDB m1 with
  | Rejected e => (Rejected e, m1)
  | Fulfilled store =>
      match req with
      | RequestSuccess => (Fulfilled (), with_db (DbOpen ∅) m1)
      | RequestError e => (Rejected e, m1)
      end
  end.

(** ** The cleanup pass *)

(** First part of the [try] block of [_asyncCleanup]: [ensureDB], the
    [count()] request and the comparison with [maxItems].
    [Fulfilled None] is the early [return]; [Fulfilled (Some n)] carries
    [itemsToDelete = itemCount - maxItems]. *)
Definition cleanup_count (count : RequestOutcome) (m : Manager)
    : Settled (option nat) :=
  match ensureDB m with
  | Rejected e => Rejected e
  | Fulfilled store =>
      match count with
      | RequestError e => Rejected e
      | RequestSuccess =>
          let itemCount := size store in
          if decide (itemCount ≤ maxItems m)%nat then Fulfilled None
          else Fulfilled (Some (itemCount - maxItems m)%nat)
      end
  end.

Definition removeAllFromMemoryCache (keysToDelete : list (string * Z))
    (mem : Memory) : Memory :=
  foldl (λ acc item, _removeFromMemoryCache item.1 acc) mem keysToDelete.

Definition deleteAll (keysToDelete : list (string * Z))
    (store : gmap string Item) : gmap string Item :=
  foldl (λ acc item, base.delete item.1 acc) store keysToDelete.

(** [keysToDelete]: the cursor scan, sorted, cut by [slice(0, itemsToDelete)]. *)
Definition keysToDelete (itemsToDelete : nat) (store : gmap string Item)
    : list (string * Z) :=
  take itemsToDelete (array_sort (index_scan store)).

(** Second part: the readwrite transaction with the cursor and the
    deletions.  Reached only after [cleanup_count] found the database
    open; on a [null] handle [this.db.transaction] would throw. *)
Definition cleanup_scan (itemsToDelete : nat) (scan : ScanOutcome) (m : Manager)
    : Settled unit * Manager :=
  match db m with
  | DbFailed _ => (Rejected (JsError "TypeError"), m)
  | DbOpen store =>
      match scan with
      | ScanCursorError e => (Rejected e, m)
      | _ =>
          match keysToDelete itemsToDelete store with
          | [] => (Fulfilled (), m)
          | keys =>
              let m1 := with_memory (removeAllFromMemoryCache keys (memory m)) m in
              match scan with
              | ScanSuccess =>
                  (Fulfilled (), with_db (DbOpen (deleteAll keys store)) m1)
              | ScanDeleteError e => (Rejected e, m1)
              | ScanTransactionAbort =>
                  (Rejected (JsError "Cleanup transaction aborted"), m1)
              | ScanCursorError e => (Rejected e, m)
              end
          end
      end
  end.

(** [_asyncCleanup] run without interleaving: guard, flag, body, [finally]. *)
Definition _asyncCleanup (count : RequestOutcome) (scan : ScanOutcome)
    (m : Manager) : Settled unit * Manager :=
  if cleanupInProgress m then (Fulfilled (), m)
  else
    let m1 := with_cleanupInProgress true m in
    let '(r, m2) :=
      match cleanup_count count m1 with
      | Rejected e => (Rejected e, m1)
      | Fulfilled None => (Fulfilled (), m1)
      | Fulfilled (Some itemsToDelete) => cleanup_scan itemsToDelete scan m1
      end in
    (r, with_cleanupInProgress false m2).

(** ** The event loop

    Between two suspension points the code runs to completion.  The
    events below are those synchronous stretches; [fire] gives the state
    after one, or [None] when the event is not enabled. *)

(** Entry of [_asyncCleanup] up to its first [await]. *)
Definition asyncCleanup_enter (m : Manager) : Manager :=
  if cleanupInProgress m then m
  else with_passes (AwaitCount :: passes m) (with_cleanupInProgress true m).

(** The 10ms callback armed by [_scheduleAsyncCleanup]. *)
Definition timer_callback (m : Manager) : Manager :=
  let m1 := with_cleanupScheduled false m in
  if cleanupInProgress m1 then m1 else asyncCleanup_enter m1.

(** [cleanup()] up to its first [await]: join the polling loop when a
    pass is in progress, start a pass otherwise. *)
Definition cleanup_call (m : Manager) : Manager :=
  if cleanupInProgress m then with_pollers (S (pollers m)) m
  else asyncCleanup_enter m.

(** One wake-up of the polling loop of [cleanup()]: sleep again while the
    flag is set, [return] once it is clear. *)
Definition cleanup_poll (m : Manager) : Manager :=
  if cleanupInProgress m then m else with_pollers (pred (pollers m)) m.

(** The pass at position [i] receives its [count()] result. *)
Definition pass_count (i : nat) (count : RequestOutcome) (m : Manager) : Manager :=
  match cleanup_count count m with
  | Fulfilled (Some itemsToDelete) =>
      with_passes (<[i := AwaitScan itemsToDelete]> (passes m)) m
  | _ => with_cleanupInProgress false (with_passes (base.delete i (passes m)) m)
  end.

(** The pass at position [i] finishes its readwrite transaction. *)
Definition pass_scan (i : nat) (itemsToDelete : nat) (scan : ScanOutcome)
    (m : Manager) : Manager :=
  with_cleanupInProgress false
    (with_passes (base.delete i (passes m)) (cleanup_scan itemsToDelete scan m).2).

(** [EvGet] to [EvClear] are the public operations, each run in one
    piece.  [EvUpdateAccessTime] is the deferred [updateAccessTime] of a
    [get], allowed for any key at any time.  [EvSetMaxItems] is the
    settings listener.  [EvCleanupCall] is a call of [cleanup()], also when
    it comes from [cleanupIfNeeded()] after its count.  The last two
    resume the pass at position [i] of [passes]. *)
Inductive Event :=
  | EvGet (key : string) (now_lookup now_insert : Z) (read : ReadOutcome)
  | EvSet (key : string) (value : Value) (type : string)
      (now_insert now_item : Z) (put : PutOutcome)
  | EvDelete (key : string) (req : RequestOutcome)
  | EvClear (req : RequestOutcome)
  | EvUpdateAccessTime (key : string) (now : Z) (req : RequestOutcome)
  | EvSetMaxItems (n : nat)
  | EvTimer
  | EvCleanupCall
  | EvCleanupPoll
  | EvPassCount (i : nat) (count : RequestOutcome)
  | EvPassScan (i : nat) (scan : ScanOutcome).

Definition fire (ev : Event) (m : Manager) : option Manager :=
  match ev with
  | EvGet key now_lookup now_insert read =>
      snd <$> get key now_lookup now_insert read m
  | EvSet key value type now_insert now_item put =>
      snd <$> set key value type now_insert now_item put m
  | EvDelete key req => Some (delete key req m).2
  | EvClear req => Some (clear req m).2
  | EvUpdateAccessTime key now req => Some (updateAccessTime key now req m).2
  | EvSetMaxItems n => Some (with_maxItems n m)
  | EvTimer =>
      match timers m with
      | O => None
      | S n => Some (timer_callback (with_timers n m))
      end
  | EvCleanupCall => Some (cleanup_call m)
  | EvCleanupPoll =>
      match pollers m with
      | O => None
      | S _ => Some (cleanup_poll m)
      end
  | EvPassCount i count =>
      match passes m !! i with
      | Some AwaitCount => Some (pass_count i count m)
      | _ => None
      end
  | EvPassScan i scan =>
      match passes m !! i with
      | Some (AwaitScan itemsToDelete) => Some (pass_scan i itemsToDelete scan m)
      | _ => None
      end
  end.

Fixpoint run (evs : list Event) (m : Manager) : option Manager :=
  match evs with
  | [] => Some m
  | ev :: rest => m' ← fire ev m; run rest m'
  end.

(** States the manager can be in: a fresh manager, then any events. *)
Inductive reachable : Manager → Prop :=
  | reachable_constructor maxItems memoryMaxItems opened :
      reachable (constructor maxItems memoryMaxItems opened)
  | reachable_fire ev m m' :
      reachable m → fire ev m = Some m' → reachable m'.

End WithPlatform.

(** ** Predicates used in the statements *)

(** The two halves of L1 agree: [memoryAccessOrder] lists the keys of
    [memoryCache], each once. *)
Definition memory_wf (mem : Memory) : Prop :=
  NoDup (memoryAccessOrder mem) ∧
  dom (memoryCache mem) = list_to_set (C := gset string) (memoryAccessOrder mem).

#[global] Instance memory_wf_dec mem : Decision (memory_wf mem).
Proof. unfold memory_wf. apply _. Defined.

Definition within_limit (limit : nat) (mem : Memory) : Prop :=
  (size (memoryCache mem) ≤ limit)%nat.

(** State of [_addToMemoryCache] between the [push] and the eviction loop. *)
Definition inserted (key : string) (entry : MemEntry) (mem : Memory) : Memory :=
  {| memoryCache := <[key := entry]> (memoryCache mem);
     memoryAccessOrder := splice_first key (memoryAccessOrder mem) ++ [key] |}.

(** [mem'] is [(cache, order)] without its [n] oldest keys. *)
Definition evicted (n : nat) (cache : gmap string MemEntry) (order : list string)
    (mem' : Memory) : Prop :=
  memoryAccessOrder mem' = drop n order ∧
  ∀ k, memoryCache mem' !! k =
       if decide (k ∈ take n order) then None else cache !! k.

Definition memory_inv (m : Manager) : Prop :=
  memory_wf (memory m) ∧ within_limit (memoryMaxItems m) (memory m).

(** The flags agree with the event loop: a pass is in flight exactly when
    [cleanupInProgress] is set, a timer is armed exactly when
    [cleanupScheduled] is set. *)
Definition scheduler_inv (m : Manager) : Prop :=
  length (passes m) = (if cleanupInProgress m then 1 else 0)%nat ∧
  timers m = (if cleanupScheduled m then 1 else 0)%nat.

(** The scheduler's state as the two flags give it. *)
Inductive SchedulerState := Idle | Scheduled | Running.

Definition scheduler_state (m : Manager) : SchedulerState :=
  if cleanupInProgress m then Running
  else if cleanupScheduled m then Scheduled
  else Idle.

(** An event that ends a pass: a [count()] result that does not lead to
    the scan (failure, or nothing to delete), or the end of the scan. *)
Definition completes_pass (ev : Event) (m : Manager) : Prop :=
  match ev with
  | EvPassCount i count =>
      passes m !! i = Some AwaitCount ∧
      ∀ n, cleanup_count count m ≠ Fulfilled (Some n)
  | EvPassScan i scan => ∃ n, passes m !! i = Some (AwaitScan n)
  | _ => False
  end.

(** Order by access time alone, the comparator of [items.sort]. *)
Definition older (a b : string * Z) : Prop := a.2 ≤ b.2.

Definition scan_entry (kv : string * Item) : string * Z :=
  (kv.1, item_accessTime kv.2).

(** What the L2 branch of [get] settles to. *)
Definition persistent_lookup (key : string) (read : ReadOutcome) (m : Manager)
    : Settled Value :=
  match db m with
  | DbFailed e => Rejected e
  | DbOpen store =>
      match read_error read with
      | Some e => Rejected e
      | None =>
          match store !! key with
          | Some result => Fulfilled (item_value result)
          | None => Fulfilled VNull
          end
      end
  end.

(** The error [set] rejects with on an open database: that of the put
    request or of [db.transaction]. *)
Definition put_error (put : PutOutcome) : option Error :=
  match put with
  | PutRequestError e | PutTransactionThrows e => Some e
  | PutSuccess | PutTransactionAbort => None
  end.

(** How [set] settles on an open database: it fulfils unless the request
    or [db.transaction] fails, also when the transaction aborts after
    the request succeeded. *)
Definition set_result (put : PutOutcome) : Settled unit :=
  match put_error put with
  | Some e => Rejected e
  | None => Fulfilled ()
  end.

(** A size estimate to run the model on examples: the length of a
    string, 0 otherwise. *)
Definition sample_estimateSize (v : Value) : Z :=
  match v with
  | VStr s => Z.of_nat (String.length s)
  | _ => 0
  end.

(** The record stored under [key], if the database is open and has one. *)
Definition stored (key : string) (m : Manager) : option Item :=
  match db m with
  | DbOpen store => store !! key
  | DbFailed _ => None
  end.

Definition store_of (m : Manager) : gmap string Item :=
  match db m with
  | DbOpen store => store
  | DbFailed _ => ∅
  end.

(** The four methods through which L1 is read or changed.  Each runs
    to completion once called, so whatever way the asynchronous
    operations interleave, L1 goes through a sequence of these calls. *)
Inductive MemoryCall :=
  | CallAdd (key : string) (value : Value) (metadata : Metadata) (now : Z)
  | CallGet (key : string) (now : Z)
  | CallRemove (key : string)
  | CallClear.

Definition call (limit : nat) (c : MemoryCall) (mem : Memory) : option Memory :=
  match c with
  | CallAdd key value metadata now =>
      _addToMemoryCache limit key value metadata now mem
  | CallGet key now => Some (_getFromMemoryCache key now mem).2
  | CallRemove key => Some (_removeFromMemoryCache key mem)
  | CallClear => Some (_clearMemoryCache mem)
  end.

Fixpoint calls (limit : nat) (cs : list MemoryCall) (mem : Memory)
    : option Memory :=
  match cs with
  | [] => Some mem
  | c :: rest => mem' ← call limit c mem; calls limit rest mem'
  end.

(** [accessTime] of the entry of [k], 0 for a key without entry. *)
Definition stamp (cache : gmap string MemEntry) (k : string) : Z :=
  default 0 (entry_accessTime <$> cache !! k).

Definition stamps (mem : Memory) : list Z :=
  stamp (memoryCache mem) <$> memoryAccessOrder mem.

(** Along [memoryAccessOrder] the [accessTime] stamps do not decrease,
    and none lies after [now]. *)
Definition recency_stamped (now : Z) (mem : Memory) : Prop :=
  StronglySorted Z.le (stamps mem) ∧ Forall (λ s, s ≤ now) (stamps mem).

(** The clock reading a call of an L1 method takes, [now] if it takes none. *)
Definition call_time (c : MemoryCall) (now : Z) : Z :=
  match c with
  | CallAdd _ _ _ t | CallGet _ t => t
  | CallRemove _ | CallClear => now
  end.

(** ** A sample run

    The first scenario of the specification ([maxItems = 3],
    [memoryMaxItems = 2]): keys A, B, C, D are written in this order and
    the scheduled pass runs after each write. *)
Definition sample_manager : Manager := constructor 3 2 (DbOpen ∅).

Definition sample_trace : list Event :=
  [ EvSet "A" (VStr "a") "mermaid" 1 1 PutSuccess;
    EvTimer; EvPassCount 0 RequestSuccess;
    EvSet "B" (VStr "b") "mermaid" 2 2 PutSuccess;
    EvTimer; EvPassCount 0 RequestSuccess;
    EvSet "C" (VStr "c") "mermaid" 3 3 PutSuccess;
    EvTimer; EvPassCount 0 RequestSuccess;
    EvSet "D" (VStr "d") "mermaid" 4 4 PutSuccess;
    EvTimer; EvPassCount 0 RequestSuccess; EvPassScan 0 ScanSuccess ].

Definition sample_state : Manager :=
  default sample_manager (run sample_estimateSize sample_trace sample_manager).

(** The manager a settled operation leaves, [m] if the loop spun. *)
Definition state_after {A} (m : Manager) (o : option (Settled A * Manager))
    : Manager :=
  match o with
  | Some (_, m') => m'
  | None => m
  end.

(** A manager whose database holds ["k"], written at time 1, and the
    same manager after a second [set] of ["k"] at time 2, once with a
    successful [put] and once with a failing one. *)
Definition written_once : Manager :=
  state_after sample_manager
    (set sample_estimateSize "k" (VStr "old") "mermaid" 1 1 PutSuccess
       sample_manager).

Definition written_twice : Manager :=
  state_after written_once
    (set sample_estimateSize "k" (VStr "new") "mermaid" 2 2 PutSuccess
       written_once).

Definition quota_error : Error := DOMException "QuotaExceededError".


(** A manager whose [indexedDB.open] failed. *)
Definition open_error : Error := DOMException "UnknownError".

Definition unavailable_manager : Manager :=
  constructor 1000 100 (DbFailed open_error).

(** A manager that cached the value [null] under ["n"]. *)
Definition null_cached : Manager :=
  state_after sample_manager
    (set sample_estimateSize "n" VNull "mermaid" 1 1 PutSuccess sample_manager).

Definition null_entry : MemEntry :=
  {| entry_value := VNull;
     entry_metadata := {| meta_type := "mermaid"; originalTimestamp := None |};
     entry_accessTime := 1 |}.

(** The sample run stopped after the write of D: four records, [maxItems = 3]. *)
Definition sample_overfull : Manager :=
  default sample_manager
    (run sample_estimateSize (take 10 sample_trace) sample_manager).

(** A write arms the timer, then [cleanup()] is called before it fires. *)
Definition manual_pass_running : Manager :=
  default sample_manager
    (run sample_estimateSize
       [ EvSet "k" (VStr "v") "mermaid" 1 1 PutSuccess; EvCleanupCall ]
       sample_manager).

(** [maxItems = 1]: two writes, the timer fires and the pass counts two
    records, so it will delete one; a third write lands while the pass
    waits for its cursor. *)
Definition stale_count_trace : list Event :=
  [ EvSet "a" (VStr "1") "mermaid" 1 1 PutSuccess;
    EvSet "b" (VStr "2") "mermaid" 2 2 PutSuccess;
    EvTimer; EvPassCount 0 RequestSuccess;
    EvSet "c" (VStr "3") "mermaid" 3 3 PutSuccess ].

Definition small_manager : Manager := constructor 1 100 (DbOpen ∅).

Definition stale_count_running : Manager :=
  default small_manager
    (run sample_estimateSize stale_count_trace small_manager).

(** [cleanup()] is called now, the pass finishes, the poller wakes up. *)
Definition manual_cleanup_returned : Manager :=
  default small_manager
    (run sample_estimateSize
       [ EvCleanupCall; EvPassScan 0 ScanSuccess; EvCleanupPoll ]
       stale_count_running).

(** ** Further operations and predicates *)

(** L1 agrees with L2: every entry of [memoryCache] has a record in the
    store with the same value and type. *)
Definition coherent (m : Manager) : Prop :=
  ∀ store, db m = DbOpen store →
  ∀ k e, memoryCache (memory m) !! k = Some e →
    ∃ item, store !! k = Some item ∧ item_value item = entry_value e ∧
            item_type item = meta_type (entry_metadata e).

(** The value [get] reads in L2, [null] without record. *)
Definition stored_value (key : string) (store : gmap string Item) : Value :=
  match store !! key with
  | Some item => item_value item
  | None => VNull
  end.

(** The record with its access time replaced. *)
Definition touched (now : Z) (item : Item) : Item :=
  {| item_value := item_value item; item_type := item_type item;
     item_size := item_size item; item_timestamp := item_timestamp item;
     item_accessTime := now |}.

(** [_checkIfCleanupNeeded()]: [itemCount > this.maxItems]. *)
Definition _checkIfCleanupNeeded (count : RequestOutcome) (m : Manager)
    : Settled bool :=
  match ensureDB m with
  | Rejected e => Rejected e
  | Fulfilled store =>
      match count with
      | RequestError e => Rejected e
      | RequestSuccess => Fulfilled (bool_decide (maxItems m < size store)%nat)
      end
  end.

(** [cleanup()] run without interleaving.  When a pass is in progress it
    polls a flag that nothing else will clear: [None]. *)
Definition cleanup (count : RequestOutcome) (scan : ScanOutcome) (m : Manager)
    : option (Settled unit * Manager) :=
  if cleanupInProgress m then None
  else Some (_asyncCleanup count scan m).

(** [cleanupIfNeeded()]: [check] is the outcome of the count of
    [_checkIfCleanupNeeded], [count] and [scan] those of the pass. *)
Definition cleanupIfNeeded (check count : RequestOutcome) (scan : ScanOutcome)
    (m : Manager) : option (Settled unit * Manager) :=
  match _checkIfCleanupNeeded check m with
  | Rejected e => Some (Rejected e, m)
  | Fulfilled true => cleanup count scan m
  | Fulfilled false => Some (Fulfilled (), m)
  end.


Definition sample_item_B : Item :=
  {| item_value := VStr "b"; item_type := "mermaid"; item_size := 1;
     item_timestamp := 2; item_accessTime := 2 |}.

Definition sample_item_D : Item :=
  {| item_value := VStr "d"; item_type := "mermaid"; item_size := 1;
     item_timestamp := 4; item_accessTime := 4 |}.


(** The pass on [sample_overfull] with a failing delete request. *)
Definition pass_failed : Manager :=
  (_asyncCleanup RequestSuccess (ScanDeleteError quota_error) sample_overfull).2.

(** ** Cache keys *)

(** Truthiness of a value, as [if (v)] and [a && b] test it. *)
Definition truthy (v : Value) : bool :=
  match v with
  | VNull | VUndefined => false
  | VBool b => b
  | VNum n => negb (n =? 0)
  | VStr s => negb (String.eqb s EmptyString)
  | VObj _ => true
  end.

(** [v.name] on a value that is not [null] or [undefined]; the fields of
    an object are listed once each. *)
Fixpoint lookup_field (name : string) (fields : list (string * Value)) : Value :=
  match fields with
  | [] => VUndefined
  | (k, v) :: rest => if String.eqb k name then v else lookup_field name rest
  end.

Definition field (name : string) (v : Value) : Value :=
  match v with
  | VObj fields => lookup_field name fields
  | _ => VUndefined
  end.

(** [`${v}`]; numbers are integers here. *)
Definition toString (v : Value) : string :=
  match v with
  | VNull => "null"
  | VUndefined => "undefined"
  | VBool true => "true"
  | VBool false => "false"
  | VNum n => NilZero.string_of_int (Z.to_int n)
  | VStr s => s
  | VObj _ => "[object Object]"
  end.

(** One hexadecimal digit of [Number.prototype.toString(16)]. *)
Definition hex_digit (n : N) : ascii :=
  match n with
  | 0 => "0" | 1 => "1" | 2 => "2" | 3 => "3" | 4 => "4" | 5 => "5"
  | 6 => "6" | 7 => "7" | 8 => "8" | 9 => "9" | 10 => "a" | 11 => "b"
  | 12 => "c" | 13 => "d" | 14 => "e" | _ => "f"
  end%N%char.

(** [b.toString(16)] for an element of a [Uint8Array]. *)
Definition toString16 (b : byte) : string :=
  let n := Byte.to_N b in
  if (n <? 16)%N then String (hex_digit n) EmptyString
  else String (hex_digit (n / 16)) (String (hex_digit (n mod 16)) EmptyString).

(** [s.padStart(targetLength, fill)] with a fill string of one character. *)
Definition padStart (targetLength : nat) (fill : ascii) (s : string) : string :=
  string_of_list_ascii (replicate (targetLength - String.length s) fill) ++ s.

(** [array.join('')] *)
Fixpoint join (parts : list string) : string :=
  match parts with
  | [] => EmptyString
  | part :: rest => part ++ join rest
  end.

Section WithDigest.

(** [crypto.subtle.digest('SHA-256', new TextEncoder().encode(text))] as
    the bytes of the resulting buffer; a function of the platform. *)
Variable digest : string → list byte.

Definition calculateHash (text : string) : string :=
  join ((λ b, padStart 2 "0" (toString16 b)) <$> digest text).

(** The string that is hashed; [themeConfig] is [null] by default. *)
Definition keyContent (content : string) (themeConfig : Value) : string :=
  if truthy themeConfig && truthy (field "fontFamily" themeConfig)
     && truthy (field "fontSize" themeConfig)
  then content ++ "_font:" ++ toString (field "fontFamily" themeConfig)
       ++ "_size:" ++ toString (field "fontSize" themeConfig)
  else content.

Definition generateKey (content type : string) (themeConfig : Value) : string :=
  calculateHash (keyContent content themeConfig) ++ "_" ++ type.

End WithDigest.

(** The two digits of a byte, read back. *)
Definition digit_value (c : ascii) : N :=
  match HexString.ascii_to_digit c with Some n => n | None => 0 end.


(** ** Statistics *)

(** Order of the primary keys, the order of [store.getAll()]. *)
Definition key_le (a b : string * Item) : Prop := String.leb a.1 b.1 = true.

#[global] Instance key_le_dec a b : Decision (key_le a b).
Proof. unfold key_le. apply _. Defined.

Definition getAll (store : gmap string Item) : list (string * Item) :=
  merge_sort key_le (map_to_list store).

(** [items.sort((a, b) => b.accessTime - a.accessTime)]: a stable sort,
    most recently accessed first. *)
Fixpoint recent_insert (a : string * Item) (items : list (string * Item))
    : list (string * Item) :=
  match items with
  | [] => [a]
  | b :: rest =>
      if decide (item_accessTime b.2 - item_accessTime a.2 ≤ 0)
      then a :: b :: rest
      else b :: recent_insert a rest
  end.

Fixpoint recent_sort (items : list (string * Item)) : list (string * Item) :=
  match items with
  | [] => []
  | a :: rest => recent_insert a (recent_sort rest)
  end.

(** One line of [indexedDBCache.items].  [created] and [lastAccess] are
    the epoch milliseconds that the source prints with [toISOString()];
    the formatted [sizeMB] is left out. *)
Record StoreStatsItem := {
  stat_key : string;
  stat_type : string;
  stat_size : Z;
  stat_created : Z;
  stat_lastAccess : Z;
  stat_inMemory : bool
}.

(** [item.key?.substring(0, 32) + '...'] and the other fields of a line. *)
Definition stats_line (mem : Memory) (kv : string * Item) : StoreStatsItem :=
  {| stat_key := String.substring 0 32 kv.1 ++ "...";
     stat_type := item_type kv.2;
     stat_size := item_size kv.2;
     stat_created := item_timestamp kv.2;
     stat_lastAccess := item_accessTime kv.2;
     stat_inMemory := bool_decide (is_Some (memoryCache mem !! kv.1)) |}.

(** The records behind [indexedDBCache.items]: sorted, then [slice(0, 20)]. *)
Definition listed (store : gmap string Item) : list (string * Item) :=
  take 20 (recent_sort (getAll store)).

(** The counts and lists of the object [getStats()] builds.  Left out:
    the strings formatted with [toFixed] ([totalSizeMB], [sizeMB],
    [memoryHitRatio]), the constant [hitRate] and [databaseInfo], and
    [memoryCache.items]. *)
Record Stats := {
  memory_itemCount : nat;
  memory_maxItems : nat;
  memory_totalSize : Z;
  indexedDB_itemCount : nat;
  indexedDB_maxItems : nat;
  indexedDB_totalSize : Z;
  indexedDB_items : list StoreStatsItem;
  combined_totalItems : nat
}.

Section Statistics.
Variable estimateSize : Value → Z.

(** [items.reduce((sum, item) => sum + (item.size || 0), 0)] *)
Definition totalSize (items : list (string * Item)) : Z :=
  foldl (λ sum kv, sum + item_size kv.2) 0 items.

(** [Array.from(memoryCache.values()).reduce(... estimateSize(item.value) ...)] *)
Definition totalMemorySize (mem : Memory) : Z :=
  map_fold (λ _ entry sum, sum + estimateSize (entry_value entry)) 0
    (memoryCache mem).

Definition getStats (req : RequestOutcome) (m : Manager) : Settled Stats :=
  match ensureDB m with
  | Rejected e => Rejected e
  | Fulfilled store =>
      match req with
      | RequestError e => Rejected e
      | RequestSuccess =>
          let items := getAll store in
          Fulfilled
            {| memory_itemCount := size (memoryCache (memory m));
               memory_maxItems := memoryMaxItems m;
               memory_totalSize := totalMemorySize (memory m);
               indexedDB_itemCount := length items;
               indexedDB_maxItems := maxItems m;
               indexedDB_totalSize := totalSize items;
               indexedDB_items := stats_line (memory m) <$> listed store;
               combined_totalItems := length items |}
      end
  end.

End Statistics.

(** Most recently accessed first. *)
Definition newer (a b : string * Item) : Prop :=
  item_accessTime b.2 ≤ item_accessTime a.2.

(** ** The cache service of the background script

    [globalCacheManager], [initGlobalCacheManager] and
    [handleContentCacheOperation] of src/core/background.js: the
    content scripts reach the manager through messages.  One message
    is handled in one piece. *)

(** How [initGlobalCacheManager] goes.  The constructor starts an open
    request and [initDB()], called while [this.db] is still [null],
    starts a second one; [this.db] is set by each that succeeds.
    [maxCacheItems] is the stored setting, [None] when there is none. *)
Inductive InitOutcome :=
  | InitSettingsError                    (* chrome.storage.local.get rejects *)
  | InitOpened (maxCacheItems : option nat) (store : gmap string Item)
      (* the request of [initDB()] succeeds *)
  | InitFailed (maxCacheItems : option nat) (opened : Db).
      (* it fails; [opened] is what the request of the constructor gave *)

(** [settings.maxCacheItems || 1000] *)
Definition settings_maxCacheItems (maxCacheItems : option nat) : nat :=
  match maxCacheItems with
  | Some (S n) => S n
  | _ => 1000%nat
  end.

(** [initGlobalCacheManager()]: the value it returns and
    [globalCacheManager] after it.  The variable is assigned before the
    [await], so that it keeps the manager when [initDB()] rejects;
    [memoryMaxItems] has its default, 100. *)
Definition initGlobalCacheManager (init : InitOutcome)
    (globalCacheManager : option Manager) : option Manager * option Manager :=
  match init with
  | InitSettingsError => (None, globalCacheManager)
  | InitOpened maxCacheItems store =>
      let m := constructor (settings_maxCacheItems maxCacheItems) 100 (DbOpen store) in
      (Some m, Some m)
  | InitFailed maxCacheItems opened =>
      (None, Some (constructor (settings_maxCacheItems maxCacheItems) 100 opened))
  end.

(** A [cacheOperation] message, with what the platform decides while it
    is handled. *)
Inductive CacheOperation :=
  | OpGet (key : string) (now_lookup now_insert : Z) (read : ReadOutcome)
  | OpSet (key : string) (value : Value) (dataType : string)
      (now_insert now_item : Z) (put : PutOutcome)
  | OpClear (req : RequestOutcome)
  | OpGetStats (req : RequestOutcome)
  | OpUnknown.

(** The object passed to [sendResponse]. *)
Inductive CacheResponse :=
  | ResponseResult (result : Value)      (* { result: item } *)
  | ResponseStats (stats : Stats)        (* { result: stats } *)
  | ResponseSuccess                      (* { success: true } *)
  | ResponseError (message : string).    (* { error: message } *)

(** How a [chrome.runtime.sendMessage] of the proxy goes: the listener
    of the background script handles it and its response comes back,
    or the promise is rejected (no receiver, channel closed). *)
Inductive Delivery :=
  | Delivered
  | Undelivered (e : Error).

(** What the receiver gets for a value sent in a message or in a
    response: the messages of [chrome.runtime] are serialized as JSON,
    properties that hold [undefined] are left out. *)
Fixpoint serialized (v : Value) : Value :=
  match v with
  | VObj fields =>
      VObj ((fix properties (fields : list (string * Value)) :=
               match fields with
               | [] => []
               | (name, x) :: rest =>
                   match serialized x with
                   | VUndefined => properties rest
                   | y => (name, y) :: properties rest
                   end
               end) fields)
  | _ => v
  end.

Section WithService.

Variable estimateSize : Value → Z.

(** [error.message] of a [DOMException], by its name; a text of the
    platform. *)
Variable domMessage : string → string.

Definition message (e : Error) : string :=
  match e with
  | DOMException name => domMessage name
  | JsError text => text
  end.

(** [handleContentCacheOperation(message, sendResponse)]: the response
    and [globalCacheManager] after it; [init] is used when the variable
    is [null].  The result is [None] when a loop of the manager spins
    and no response is sent. *)
Definition handleContentCacheOperation (op : CacheOperation) (init : InitOutcome)
    (globalCacheManager : option Manager)
    : option (CacheResponse * option Manager) :=
  let g1 :=
    match globalCacheManager with
    | Some m => Some m
    | None => (initGlobalCacheManager init None).1
    end in
  match g1 with
  | None => Some (ResponseError "Cache system initialization failed", None)
  | Some m =>
      let answered {A} (r : Settled A) (response : A → CacheResponse) :=
        match r with
        | Fulfilled a => response a
        | Rejected e => ResponseError (message e)     (* the [catch] block *)
        end in
      match op with
      | OpGet key now_lookup now_insert read =>
          '(r, m') ← get key now_lookup now_insert read m;
          Some (answered r ResponseResult, Some m')
      | OpSet key value dataType now_insert now_item put =>
          '(r, m') ← set estimateSize key value dataType now_insert now_item put m;
          Some (answered r (λ _, ResponseSuccess), Some m')
      | OpClear req =>
          let '(r, m') := clear req m in
          Some (answered r (λ _, ResponseSuccess), Some m')
      | OpGetStats req =>
          Some (answered (getStats estimateSize req m) ResponseStats, Some m)
      | OpUnknown => Some (ResponseError "Unknown cache operation", Some m)
      end
  end.

(** ** The proxy of the content script

    [BackgroundCacheManagerProxy] (src/core/content.js): every method
    is a message to the service above, and every failure is turned
    into [null] or [false]. *)

(** [response.error], tested by [if (response.error)]. *)
Definition response_failed (response : CacheResponse) : bool :=
  match response with
  | ResponseError text => truthy (VStr text)
  | _ => false
  end.

(** [proxy.get(key)] *)
Definition proxy_get (key : string) (delivery : Delivery) (init : InitOutcome)
    (now_lookup now_insert : Z) (read : ReadOutcome)
    (globalCacheManager : option Manager) : option (Value * option Manager) :=
  match delivery with
  | Undelivered _ => Some (VNull, globalCacheManager)
  | Delivered =>
      '(response, g) ← handleContentCacheOperation
                          (OpGet key now_lookup now_insert read) init
                          globalCacheManager;
      Some (if response_failed response then VNull
            else match response with
                 | ResponseResult item => serialized item
                 | _ => VUndefined       (* no [result] property *)
                 end, g)
  end.

(** [proxy.set(key, value, type)]; the result is [response.success],
    [false] on a failure. *)
Definition proxy_set (key : string) (value : Value) (type : string)
    (delivery : Delivery) (init : InitOutcome) (now_insert now_item : Z)
    (put : PutOutcome) (globalCacheManager : option Manager)
    : option (Value * option Manager) :=
  match delivery with
  | Undelivered _ => Some (VBool false, globalCacheManager)
  | Delivered =>
      '(response, g) ← handleContentCacheOperation
                          (OpSet key (serialized value) type now_insert now_item put)
                          init globalCacheManager;
      Some (if response_failed response then VBool false
            else match response with
                 | ResponseSuccess => VBool true
                 | _ => VUndefined       (* no [success] property *)
                 end, g)
  end.

(** [proxy.clear()] *)
Definition proxy_clear (delivery : Delivery) (init : InitOutcome)
    (req : RequestOutcome) (globalCacheManager : option Manager)
    : option (Value * option Manager) :=
  match delivery with
  | Undelivered _ => Some (VBool false, globalCacheManager)
  | Delivered =>
      '(response, g) ← handleContentCacheOperation (OpClear req) init
                          globalCacheManager;
      Some (if response_failed response then VBool false
            else match response with
                 | ResponseSuccess => VBool true
                 | _ => VUndefined
                 end, g)
  end.

End WithService.

(** ** The renderer

    [ExtensionRenderer] (src/renderer.js), as the content script builds
    it: [this.cache] is the proxy above, so that a render talks to the
    background script for the cache, through the proxy, and for the
    rendering, through [_sendMessage]. *)

(** How the callback of [chrome.runtime.sendMessage] is called for a
    render request; [response] is the value the callback receives. *)
Inductive MessageOutcome :=
  | MessageTimeout                          (* no callback within 30 s *)
  | MessageRuntimeError (message : string)  (* chrome.runtime.lastError *)
  | MessageResponse (response : Value).

Definition _sendMessage (answer : MessageOutcome) : Settled Value :=
  match answer with
  | MessageTimeout => Rejected (JsError "Message timeout after 30 seconds")
  | MessageRuntimeError message => Rejected (JsError ("Runtime error: " ++ message))
  | MessageResponse response =>
      if negb (truthy response)
      then Rejected (JsError "No response received from background script")
      else if truthy (field "error" response)
      then Rejected (JsError (toString (field "error" response)))
      else Fulfilled response
  end.

(** What the platform decides during one render: for the [get] and for
    the [set] of the proxy whether the message is delivered, how the
    service initialises if it has to, the clock readings and the
    IndexedDB outcome; and the answer to the render request. *)
Record RenderEnv := {
  get_delivery : Delivery;
  get_init : InitOutcome;
  get_now_lookup : Z;
  get_now_insert : Z;
  get_read : ReadOutcome;
  answer : MessageOutcome;
  set_delivery : Delivery;
  set_init : InitOutcome;
  set_now_insert : Z;
  set_now_item : Z;
  set_put : PutOutcome
}.

Section WithRenderer.

Variable estimateSize : Value → Z.
Variable domMessage : string → string.
Variable digest : string → list byte.

(** The three render methods have the same body from the cache lookup
    on.  The state is [globalCacheManager] of the background script; the
    result carries the render requests passed to [_sendMessage].  What
    [this.cache.set] returns is not looked at. *)
Definition render_cached (cacheKey type : string) (request : Value)
    (env : RenderEnv) (globalCacheManager : option Manager)
    : option (Settled Value * list Value * option Manager) :=
  '(cached, g1) ← proxy_get estimateSize domMessage cacheKey
                    (get_delivery env) (get_init env)
                    (get_now_lookup env) (get_now_insert env) (get_read env)
                    globalCacheManager;
  if truthy cached then Some (Fulfilled cached, [], g1)
  else
    match _sendMessage (answer env) with
    | Rejected e => Some (Rejected e, [request], g1)
    | Fulfilled response =>
        if truthy (field "error" response)
        then Some (Rejected (JsError (toString (field "error" response))),
                   [request], g1)
        else
          '(_, g2) ← proxy_set estimateSize domMessage cacheKey response type
                       (set_delivery env) (set_init env)
                       (set_now_insert env) (set_now_item env) (set_put env) g1;
          Some (Fulfilled response, [request], g2)
    end.

Definition renderMermaidToPng (code : string) : RenderEnv → option Manager →
    option (Settled Value * list Value * option Manager) :=
  render_cached (generateKey digest code "MERMAID_PNG" VNull) "MERMAID_PNG"
    (VObj [("type", VStr "renderMermaid"); ("mermaid", VStr code)]).

(** [contentKey = html + width]; [width] is 1200 by default. *)
Definition renderHtmlToPng (html : string) (width : Z) : RenderEnv →
    option Manager → option (Settled Value * list Value * option Manager) :=
  render_cached
    (generateKey digest (html ++ toString (VNum width)) "HTML_PNG" VNull) "HTML_PNG"
    (VObj [("type", VStr "renderHtml"); ("html", VStr html); ("width", VNum width)]).

(** [renderSvgToPng] does not await its [set]: the method returns before
    the answer of the proxy; with one message handled at a time the
    state at the end is the same. *)
Definition renderSvgToPng (svg : string) : RenderEnv → option Manager →
    option (Settled Value * list Value * option Manager) :=
  render_cached (generateKey digest svg "SVG_PNG" VNull) "SVG_PNG"
    (VObj [("type", VStr "renderSvg"); ("svg", VStr svg)]).

End WithRenderer.




(** A render that finds nothing in the cache and asks the renderer:
    whenever the render request is answered with [response], the render
    delivers [response], with that one request. *)
Definition renders_afresh (request : Value)
    (render : RenderEnv → option Manager →
              option (Settled Value * list Value * option Manager))
    (globalCacheManager : option Manager) : Prop :=
  ∀ env response,
    _sendMessage (answer env) = Fulfilled response →
    ∃ g, render env globalCacheManager = Some (Fulfilled response, [request], g).

(** A render on the sample run. *)
Definition sample_digest (text : string) : list byte :=
  match list_byte_of_string text with
  | b :: _ => [b; x2a]%byte
  | [] => [x00; x2a]%byte
  end.

Definition sample_domMessage (name : string) : string := name.


Definition sample_request : Value :=
  VObj [("type", VStr "renderMermaid"); ("mermaid", VStr "graph TD")].




(** ** The variant with blocking cleanup

    [ExtensionCacheManager] of src/cache-manager.js: the same two tiers,
    without the cleanup flags; [set] awaits [cleanupIfNeeded] before it
    writes, and [cleanup] trims L2 to 80% of [maxItems] through
    [delete].  The L1 methods, the cursor scan and the records are those
    above. *)
Module Blocking.

Record Manager := {
  maxItems : nat;
  memoryMaxItems : nat;
  memory : Memory;
  db : Db
}.

Definition with_memory (mem : Memory) (m : Manager) : Manager :=
  {| maxItems := maxItems m; memoryMaxItems := memoryMaxItems m;
     memory := mem; db := db m |}.

Definition with_db (d : Db) (m : Manager) : Manager :=
  {| maxItems := maxItems m; memoryMaxItems := memoryMaxItems m;
     memory := memory m; db := d |}.

Definition constructor (maxItems memoryMaxItems : nat) (opened : Db) : Manager :=
  {| maxItems := maxItems; memoryMaxItems := memoryMaxItems;
     memory := {| memoryCache := ∅; memoryAccessOrder := [] |};
     db := opened |}.

Definition ensureDB (m : Manager) : Settled (gmap string Item) :=
  match db m with
  | DbOpen store => Fulfilled store
  | DbFailed e => Rejected e
  end.

Definition delete (key : string) (req : RequestOutcome) (m : Manager)
    : Settled unit * Manager :=
  let m1 := with_memory (_removeFromMemoryCache key (memory m)) m in
  match ensureDB m1 with
  | Rejected e => (Rejected e, m1)
  | Fulfilled store =>
      match req with
      | RequestSuccess => (Fulfilled (), with_db (DbOpen (base.delete key store)) m1)
      | RequestError e => (Rejected e, m1)
      end
  end.

(** [get(key)], the code of the other variant; the [setTimeout] that
    calls [updateAccessTime] is an event of its own. *)
Definition get (key : string) (now_lookup now_insert : Z) (read : ReadOutcome)
    (m : Manager) : option (Settled Value * Manager) :=
  let '(memoryResult, mem1) := _getFromMemoryCache key now_lookup (memory m) in
  let m1 := with_memory mem1 m in
  if not_null memoryResult then Some (Fulfilled memoryResult, m1)
  else
    match ensureDB m1 with
    | Rejected e => Some (Rejected e, m1)
    | Fulfilled store =>
        match read_error read with
        | Some e => Some (Rejected e, m1)
        | None =>
            match store !! key with
            | Some result =>
                mem2 ← _addToMemoryCache (memoryMaxItems m) key (item_value result)
                         {| meta_type := item_type result;
                            originalTimestamp := Some (item_timestamp result) |}
                         now_insert mem1;
                Some (Fulfilled (item_value result), with_memory mem2 m1)
            | None => Some (Fulfilled VNull, m1)
            end
        end
    end.

(** [Promise.all(items.slice(0, itemsToDelete).map(item => this.delete(item.key)))]:
    every [delete] runs to its end, [deletes] giving the outcome of the
    request for each key; the promise is rejected with the first error. *)
Fixpoint deleteEach (keys : list (string * Z)) (deletes : string → RequestOutcome)
    (m : Manager) : Settled unit * Manager :=
  match keys with
  | [] => (Fulfilled (), m)
  | item :: rest =>
      let '(r, m1) := delete item.1 (deletes item.1) m in
      let '(rs, m2) := deleteEach rest deletes m1 in
      (match r with Rejected e => Rejected e | Fulfilled _ => rs end, m2)
  end.

(** [Math.floor(this.maxItems * 0.8)]: for an item count below 2^50 the
    double product, rounded down, is the integer part of
    [4 * maxItems / 5]. *)
Definition kept (maxItems : nat) : nat := (4 * maxItems / 5)%nat.

(** [cleanup()]: [cursor] is the outcome of the [openCursor] request. *)
Definition cleanup (cursor : RequestOutcome) (deletes : string → RequestOutcome)
    (m : Manager) : Settled unit * Manager :=
  match ensureDB m with
  | Rejected e => (Rejected e, m)
  | Fulfilled store =>
      match cursor with
      | RequestError e => (Rejected e, m)
      | RequestSuccess =>
          let items := array_sort (index_scan store) in
          let itemsToDelete := (length items - kept (maxItems m))%nat in
          if decide (0 < itemsToDelete)%nat
          then deleteEach (take itemsToDelete items) deletes m
          else (Fulfilled (), m)
      end
  end.

(** [cleanupIfNeeded()].  The [onsuccess] handler of the count is an
    [async] function that awaits [cleanup()] and then resolves: when
    [cleanup()] rejects, [resolve] is never reached and the promise stays
    pending, which is the result [None]. *)
Definition cleanupIfNeeded (count cursor : RequestOutcome)
    (deletes : string → RequestOutcome) (m : Manager)
    : option (Settled unit) * Manager :=
  match ensureDB m with
  | Rejected e => (Some (Rejected e), m)
  | Fulfilled store =>
      match count with
      | RequestError e => (Some (Rejected e), m)
      | RequestSuccess =>
          if decide (maxItems m ≤ size store)%nat
          then
            match cleanup cursor deletes m with
            | (Fulfilled _, m') => (Some (Fulfilled ()), m')
            | (Rejected _, m') => (None, m')
            end
          else (Some (Fulfilled ()), m)
      end
  end.

Section WithPlatform.

Variable estimateSize : Value → Z.

(** [set(key, value, type)].  The outer [None] is the eviction loop of
    [_addToMemoryCache] that spins, the inner one a promise that stays
    pending.  The promise of the [put] is returned without [await]: its
    rejection does not pass through the [catch] block, the handlers that
    ran have removed the L1 entry.  It is settled by the handler of the
    request: when the request succeeds and the transaction aborts
    afterwards, [set] has fulfilled by the time [onabort] removes the
    L1 entry, and nothing is stored. *)
Definition set (key : string) (value : Value) (type : string)
    (now_insert now_item : Z) (count cursor : RequestOutcome)
    (deletes : string → RequestOutcome) (put : PutOutcome) (m : Manager)
    : option (option (Settled unit) * Manager) :=
  mem1 ← _addToMemoryCache (memoryMaxItems m) key value
           {| meta_type := type; originalTimestamp := None |}
           now_insert (memory m);
  let m1 := with_memory mem1 m in
  match ensureDB m1 with
  | Rejected e => Some (Some (Rejected e), m1)
  | Fulfilled _ =>
      let item :=
        {| item_value := value; item_type := type;
           item_size := estimateSize value;
           item_timestamp := now_item; item_accessTime := now_item |} in
      match cleanupIfNeeded count cursor deletes m1 with
      | (None, m2) => Some (None, m2)
      | (Some (Rejected e), m2) =>
          Some (Some (Rejected e),
                with_memory (_removeFromMemoryCache key (memory m2)) m2)
      | (Some (Fulfilled _), m2) =>
          let removed := with_memory (_removeFromMemoryCache key (memory m2)) m2 in
          match db m2 with
          | DbFailed _ =>
              (* [this.db.transaction] on a [null] handle; not reached
                 after [ensureDB] *)
              Some (Some (Rejected (JsError "TypeError")), removed)
          | DbOpen store =>
              match put with
              | PutSuccess =>
                  Some (Some (Fulfilled ()),
                        with_db (DbOpen (<[key := item]> store)) m2)
              | PutRequestError e =>
                  (* [request.onerror], [transaction.onerror],
                     [transaction.onabort] *)
                  let mem3 :=
                    _removeFromMemoryCache key
                      (_removeFromMemoryCache key (memory removed)) in
                  Some (Some (Rejected e), with_memory mem3 m2)
              | PutTransactionAbort =>
                  (* resolved by [request.onsuccess]; then
                     [transaction.onabort] *)
                  Some (Some (Fulfilled ()), removed)
              | PutTransactionThrows e =>
                  (* the [catch] block *)
                  Some (Some (Rejected e), removed)
              end
          end
      end
  end.

End WithPlatform.

End Blocking.

(** Samples for the blocking variant: a store of five records under a
    limit of five. *)
Definition sample_record (n : Z) : Item :=
  {| item_value := VNum n; item_type := "mermaid"; item_size := 1;
     item_timestamp := n; item_accessTime := n |}.

Definition blocking_store : gmap string Item :=
  list_to_map [("a", sample_record 1); ("b", sample_record 2);
               ("c", sample_record 3); ("d", sample_record 4);
               ("e", sample_record 5)].

Definition blocking_full : Blocking.Manager :=
  Blocking.constructor 5 2 (DbOpen blocking_store).

Definition blocking_written : Blocking.Manager :=
  match Blocking.set sample_estimateSize "f" (VStr "new") "mermaid" 6 6
          RequestSuccess RequestSuccess (λ _, RequestSuccess) PutSuccess
          blocking_full with
  | Some (_, m') => m'
  | None => blocking_full
  end.

(** A write on an idle scheduler and the pass it brings about, all
    requests succeeding: the [set], the 10ms timer, the count of the
    pass and, when [trim] is set, its scan. *)
Definition write_and_pass (key : string) (value : Value) (type : string)
    (now_insert now_item : Z) (trim : bool) : list Event :=
  [EvSet key value type now_insert now_item PutSuccess; EvTimer;
   EvPassCount 0 RequestSuccess]
  ++ (if trim then [EvPassScan 0 ScanSuccess] else []).

(** A manager that finds one record of an earlier session, under a limit
    of one. *)
Definition sample_reopened_store : gmap string Item :=
  {[ "a" := {| item_value := VStr "a"; item_type := "mermaid"; item_size := 1;
               item_timestamp := 1; item_accessTime := 1 |} ]}.

Definition sample_reopened : Manager :=
  constructor 1 2 (DbOpen sample_reopened_store).

(** * Properties *)

(** Closed goals about the sample runs are settled by evaluation. *)
Ltac by_computation := vm_compute; reflexivity.
Ltac wf_by_computation := refine (bool_decide_unpack _ _); vm_compute; exact I.

(** ** L1 *)

Lemma splice_first_notin key order : key ∉ order → splice_first key order = order.
Proof.
  induction order as [|k rest IH]; simpl; [done|].
  intros Hn. apply not_elem_of_cons in Hn as [Hne Hn].
  case_decide; [congruence|]. by rewrite IH.
Qed.

Lemma elem_of_splice_first key order k :
  NoDup order → k ∈ splice_first key order ↔ k ∈ order ∧ k ≠ key.
Proof.
  induction order as [|x rest IH]; simpl; intros Hnd.
  - set_solver.
  - apply NoDup_cons in Hnd as [Hx Hnd]. case_decide as Hd.
    + subst x. rewrite elem_of_cons. split.
      * intros Hk. split; [by right|]. intros ->. done.
      * intros [[->|Hk] Hne]; done.
    + rewrite !elem_of_cons, IH by done. naive_solver.
Qed.

Lemma NoDup_splice_first key order : NoDup order → NoDup (splice_first key order).
Proof.
  induction order as [|x rest IH]; simpl; intros Hnd; [done|].
  apply NoDup_cons in Hnd as [Hx Hnd]. case_decide; [done|].
  apply NoDup_cons. split; [|by apply IH].
  rewrite elem_of_splice_first by done. tauto.
Qed.

Lemma memory_wf_spec mem :
  memory_wf mem ↔
  NoDup (memoryAccessOrder mem) ∧
  ∀ k, k ∈ memoryAccessOrder mem ↔ is_Some (memoryCache mem !! k).
Proof.
  unfold memory_wf. split; intros [Hnd Hdom]; (split; [done|]).
  - intros k. by rewrite <- elem_of_dom, Hdom, elem_of_list_to_set.
  - apply set_eq. intros k. by rewrite elem_of_dom, elem_of_list_to_set, Hdom.
Qed.

Lemma memory_wf_empty :
  memory_wf {| memoryCache := ∅; memoryAccessOrder := [] |}.
Proof. split; simpl; [constructor|]. by rewrite dom_empty_L. Qed.

Lemma memory_wf_size mem :
  memory_wf mem → size (memoryCache mem) = length (memoryAccessOrder mem).
Proof.
  intros [Hnd Hdom].
  rewrite <- (size_dom (D := gset string)), Hdom.
  by apply size_list_to_set.
Qed.

Lemma removeFromMemoryCache_lookup key mem k :
  memoryCache (_removeFromMemoryCache key mem) !! k =
  if decide (k = key) then None else memoryCache mem !! k.
Proof.
  unfold _removeFromMemoryCache.
  destruct (memoryCache mem !! key) eqn:E; simpl.
  - case_decide; subst; [apply lookup_delete_eq | by apply lookup_delete_ne].
  - case_decide; subst; done.
Qed.

Lemma removeFromMemoryCache_idem key mem :
  _removeFromMemoryCache key (_removeFromMemoryCache key mem)
  = _removeFromMemoryCache key mem.
Proof.
  pose proof (removeFromMemoryCache_lookup key mem key) as Hlk.
  rewrite decide_True in Hlk by done.
  unfold _removeFromMemoryCache at 1. by rewrite Hlk.
Qed.

Lemma removeFromMemoryCache_order key mem :
  memory_wf mem →
  memoryAccessOrder (_removeFromMemoryCache key mem)
  = splice_first key (memoryAccessOrder mem).
Proof.
  intros [Hnd Hdom]%memory_wf_spec. unfold _removeFromMemoryCache.
  destruct (memoryCache mem !! key) eqn:E; simpl; [done|].
  symmetry. apply splice_first_notin. rewrite Hdom, E. by intros [? ?].
Qed.

Lemma removeFromMemoryCache_wf key mem :
  memory_wf mem → memory_wf (_removeFromMemoryCache key mem).
Proof.
  intros Hwf. pose proof Hwf as [Hnd Hdom]%memory_wf_spec.
  apply memory_wf_spec. split.
  - rewrite removeFromMemoryCache_order by done. by apply NoDup_splice_first.
  - intros k. rewrite removeFromMemoryCache_order, removeFromMemoryCache_lookup by done.
    rewrite elem_of_splice_first by done. rewrite Hdom.
    case_decide; [|tauto]. split; [tauto|]. by intros [? ?].
Qed.

Lemma removeFromMemoryCache_size key mem :
  (size (memoryCache (_removeFromMemoryCache key mem)) ≤ size (memoryCache mem))%nat.
Proof.
  unfold _removeFromMemoryCache.
  destruct (memoryCache mem !! key) eqn:E; simpl; [|done].
  rewrite map_size_delete, E. lia.
Qed.

Lemma evictOldest_within limit cache order mem' :
  evictOldest limit cache order = Some mem' → within_limit limit mem'.
Proof.
  revert cache. induction order as [|k rest IH]; intros cache; simpl;
    case_decide; try done.
  - by intros [= <-].
  - by intros [= <-].
  - apply IH.
Qed.

Lemma evictOldest_wf limit cache order :
  memory_wf {| memoryCache := cache; memoryAccessOrder := order |} →
  ∃ mem', evictOldest limit cache order = Some mem' ∧ memory_wf mem' ∧
          evicted (length order - limit) cache order mem'.
Proof.
  revert cache. induction order as [|k rest IH]; intros cache Hwf;
    pose proof (memory_wf_size _ Hwf) as Hsz; simpl in Hsz; simpl evictOldest.
  - rewrite decide_True by lia. eexists; split; [done|]. split; [done|].
    split; simpl; [by rewrite ?drop_nil|]. by intros j.
  - case_decide as Hle.
    + eexists; split; [done|]. split; [done|].
      replace (length (k :: rest) - limit)%nat with 0%nat by (simpl; lia).
      split; simpl; [done|]. by intros j.
    + apply memory_wf_spec in Hwf as [Hnd Hdom]; simpl in *.
      apply NoDup_cons in Hnd as [Hk Hnd].
      destruct (IH (base.delete k cache)) as (mem' & Hev & Hwf' & Hord & Hlk).
      { apply memory_wf_spec. split; simpl; [done|]. intros j. rewrite lookup_delete.
        case_decide as Hj.
        - subst j. split; [done|]. by intros [? ?].
        - rewrite <- Hdom. set_solver. }
      exists mem'. split; [done|]. split; [done|].
      replace (S (length rest) - limit)%nat with (S (length rest - limit)) by lia.
      split; simpl; [done|]. intros j. rewrite Hlk, lookup_delete.
      destruct (decide (j = k)) as [->|Hne].
      * rewrite (decide_True (P := k ∈ k :: _)) by set_solver.
        repeat case_decide; done.
      * rewrite (decide_False (P := k = j)) by done.
        repeat case_decide; set_solver.
Qed.

Lemma addToMemoryCache_unfold limit key value metadata now mem :
  memory_wf mem →
  let mem1 := inserted key
    {| entry_value := value; entry_metadata := metadata; entry_accessTime := now |} mem in
  _addToMemoryCache limit key value metadata now mem
  = evictOldest limit (memoryCache mem1) (memoryAccessOrder mem1).
Proof.
  intros Hwf. unfold _addToMemoryCache, inserted. simpl.
  assert ((match memoryCache mem !! key with
           | Some _ => _removeFromMemoryCache key mem
           | None => mem end) = _removeFromMemoryCache key mem) as ->.
  { unfold _removeFromMemoryCache. by destruct (memoryCache mem !! key). }
  rewrite removeFromMemoryCache_order by done.
  f_equal. apply map_eq. intros k. rewrite !lookup_insert.
  case_decide; [done|]. rewrite removeFromMemoryCache_lookup.
  by rewrite decide_False by done.
Qed.

Lemma inserted_wf key entry mem : memory_wf mem → memory_wf (inserted key entry mem).
Proof.
  intros [Hnd Hdom]%memory_wf_spec. apply memory_wf_spec. split; simpl.
  - apply NoDup_app. split; [by apply NoDup_splice_first|]. split; [|apply NoDup_singleton].
    intros k. rewrite elem_of_splice_first by done. set_solver.
  - intros k. rewrite elem_of_app, elem_of_splice_first, lookup_insert by done.
    rewrite list_elem_of_singleton. case_decide as Hk.
    + subst. split; [by eauto|]. by right.
    + rewrite Hdom. naive_solver.
Qed.

Lemma addToMemoryCache_wf limit key value metadata now mem :
  memory_wf mem →
  ∃ mem', _addToMemoryCache limit key value metadata now mem = Some mem' ∧
          memory_wf mem' ∧ within_limit limit mem'.
Proof.
  intros Hwf. rewrite addToMemoryCache_unfold by done. cbv zeta.
  set (e := Build_MemEntry _ _ _).
  destruct (evictOldest_wf limit (memoryCache (inserted key e mem))
              (memoryAccessOrder (inserted key e mem))) as (mem' & Hev & Hwf' & _).
  { pose proof (inserted_wf key e mem Hwf) as H. by destruct (inserted key e mem). }
  exists mem'. split; [done|]. split; [done|]. by eapply evictOldest_within.
Qed.

Lemma getFromMemoryCache_wf key now mem :
  memory_wf mem → memory_wf (_getFromMemoryCache key now mem).2.
Proof.
  intros Hwf. unfold _getFromMemoryCache.
  destruct (memoryCache mem !! key) as [item|] eqn:E; simpl; [|done].
  pose proof (inserted_wf key
    {| entry_value := entry_value item; entry_metadata := entry_metadata item;
       entry_accessTime := now |} mem Hwf) as [Hnd Hdom]%memory_wf_spec.
  unfold inserted in *; simpl in *.
  apply memory_wf_spec. split; simpl.
  - by rewrite removeFromMemoryCache_order.
  - intros k. rewrite removeFromMemoryCache_order by done. rewrite Hdom.
    rewrite !lookup_insert. case_decide; [done|].
    rewrite removeFromMemoryCache_lookup. by rewrite decide_False by done.
Qed.

Lemma getFromMemoryCache_size key now mem :
  size (memoryCache (_getFromMemoryCache key now mem).2) = size (memoryCache mem).
Proof.
  unfold _getFromMemoryCache.
  destruct (memoryCache mem !! key) as [item|] eqn:E; simpl; [|done].
  unfold _removeFromMemoryCache. rewrite E. simpl.
  rewrite map_size_insert, lookup_delete_eq, map_size_delete, E.
  assert (size (memoryCache mem) ≠ 0%nat); [|lia].
  apply map_size_non_empty_iff. intros Hm. by rewrite Hm, lookup_empty in E.
Qed.

Lemma removeAllFromMemoryCache_wf keys mem :
  memory_wf mem → memory_wf (removeAllFromMemoryCache keys mem).
Proof.
  revert mem. induction keys as [|a keys IH]; intros mem Hwf; simpl; [done|].
  apply IH. by apply removeFromMemoryCache_wf.
Qed.

Lemma removeAllFromMemoryCache_size keys mem :
  (size (memoryCache (removeAllFromMemoryCache keys mem)) ≤ size (memoryCache mem))%nat.
Proof.
  revert mem. induction keys as [|a keys IH]; intros mem; simpl; [done|].
  etrans; [apply IH|]. apply removeFromMemoryCache_size.
Qed.

Lemma removeAllFromMemoryCache_lookup keys mem k :
  memoryCache (removeAllFromMemoryCache keys mem) !! k =
  if decide (k ∈ keys.*1) then None else memoryCache mem !! k.
Proof.
  revert mem. induction keys as [|a keys IH]; intros mem; simpl; [done|].
  unfold removeAllFromMemoryCache in *. simpl. rewrite IH.
  rewrite removeFromMemoryCache_lookup. repeat case_decide; set_solver.
Qed.

(** ** The cursor scan *)

#[local] Instance index_le_total : Total index_le.
Proof.
  intros [k1 t1] [k2 t2]. unfold index_le; simpl.
  destruct (Z.lt_trichotomy t1 t2) as [?|[->|?]]; [tauto| |tauto].
  destruct (String.leb_total k1 k2); tauto.
Qed.

#[local] Instance older_trans : Transitive older.
Proof. unfold older. intros a b c. lia. Qed.

Lemma Sorted_weaken {A} (R R' : relation A) l :
  (∀ x y, R x y → R' x y) → Sorted R l → Sorted R' l.
Proof.
  intros HR. induction 1 as [|x l Hs IH Hhd]; constructor; [done|].
  destruct Hhd; constructor; auto.
Qed.

Lemma index_scan_Permutation store :
  index_scan store ≡ₚ scan_entry <$> map_to_list store.
Proof. apply merge_sort_Permutation. Qed.

Lemma index_scan_sorted store : StronglySorted older (index_scan store).
Proof.
  apply Sorted_StronglySorted; [apply _|].
  apply (Sorted_weaken index_le); [|apply (Sorted_merge_sort index_le)].
  unfold index_le, older. intros x y. lia.
Qed.

Lemma array_sort_sorted items : Sorted older items → array_sort items = items.
Proof.
  induction 1 as [|a rest Hs IH Hhd]; simpl; [done|].
  rewrite IH. destruct Hhd as [|b rest Hab]; simpl; [done|].
  unfold older in Hab. by rewrite decide_True by lia.
Qed.

Lemma keysToDelete_take n store : keysToDelete n store = take n (index_scan store).
Proof.
  unfold keysToDelete. rewrite array_sort_sorted; [done|].
  apply StronglySorted_Sorted, index_scan_sorted.
Qed.

Lemma index_scan_keys store : (index_scan store).*1 ≡ₚ (map_to_list store).*1.
Proof.
  rewrite index_scan_Permutation. rewrite <- list_fmap_compose.
  reflexivity.
Qed.

Lemma index_scan_NoDup store : NoDup (index_scan store).*1.
Proof. rewrite index_scan_keys. apply NoDup_fst_map_to_list. Qed.

Lemma index_scan_length store : length (index_scan store) = size store.
Proof.
  rewrite index_scan_Permutation, length_fmap. apply length_map_to_list.
Qed.

Lemma elem_of_index_scan store k t :
  (k, t) ∈ index_scan store ↔ ∃ item, store !! k = Some item ∧ t = item_accessTime item.
Proof.
  rewrite index_scan_Permutation, list_elem_of_fmap. split.
  - intros ([k' item] & [= -> ->] & Hin). apply elem_of_map_to_list in Hin. eauto.
  - intros (item & Hk & ->). exists (k, item). split; [done|].
    by apply elem_of_map_to_list.
Qed.

Lemma deleteAll_lookup keys store k :
  deleteAll keys store !! k = if decide (k ∈ keys.*1) then None else store !! k.
Proof.
  revert store. induction keys as [|a keys IH]; intros store; simpl; [done|].
  unfold deleteAll in *. simpl. rewrite IH, lookup_delete.
  repeat case_decide; set_solver.
Qed.

Lemma deleteAll_size keys store :
  NoDup keys.*1 → (∀ k, k ∈ keys.*1 → is_Some (store !! k)) →
  size (deleteAll keys store) = (size store - length keys)%nat.
Proof.
  revert store. induction keys as [|a keys IH]; intros store Hnd Hin; simpl.
  - unfold deleteAll; simpl. lia.
  - rewrite fmap_cons in Hnd. apply NoDup_cons in Hnd as [Ha Hnd].
    unfold deleteAll in *. simpl. rewrite IH; [|done|].
    + rewrite map_size_delete_Some by (apply Hin; set_solver). lia.
    + intros k Hk. rewrite lookup_delete_ne by set_solver. apply Hin. set_solver.
Qed.

Lemma take_scan_present n store k :
  k ∈ (take n (index_scan store)).*1 → is_Some (store !! k).
Proof.
  intros ([k' t] & -> & Hin)%list_elem_of_fmap. simpl.
  apply subseteq_take in Hin. apply elem_of_index_scan in Hin as (item & -> & _).
  eauto.
Qed.

(** ** Invariants of the event loop *)

Section Facts.
Variable estimateSize : Value → Z.

Lemma scheduleAsyncCleanup_memory m : memory (_scheduleAsyncCleanup m) = memory m.
Proof. unfold _scheduleAsyncCleanup. by destruct (_ || _). Qed.

Lemma scheduleAsyncCleanup_memoryMaxItems m :
  memoryMaxItems (_scheduleAsyncCleanup m) = memoryMaxItems m.
Proof. unfold _scheduleAsyncCleanup. by destruct (_ || _). Qed.

Lemma memory_inv_removeFromMemoryCache key m :
  memory_inv m → memory_inv (with_memory (_removeFromMemoryCache key (memory m)) m).
Proof.
  intros [Hwf Hle]. split; simpl; [by apply removeFromMemoryCache_wf|].
  unfold within_limit in *. etrans; [apply removeFromMemoryCache_size|done].
Qed.

Lemma get_memory_inv key now1 now2 read m :
  memory_inv m →
  ∃ r m', get key now1 now2 read m = Some (r, m') ∧ memory_inv m'.
Proof.
  intros [Hwf Hle]. unfold get.
  pose proof (getFromMemoryCache_wf key now1 _ Hwf) as Hwf1.
  pose proof (getFromMemoryCache_size key now1 (memory m)) as Hsz1.
  destruct (_getFromMemoryCache key now1 (memory m)) as [memoryResult mem1].
  simpl in Hwf1, Hsz1.
  assert (memory_inv (with_memory mem1 m)) as Hinv1.
  { split; simpl; [done|]. unfold within_limit in *. by rewrite Hsz1. }
  destruct (not_null memoryResult); [by eauto|].
  unfold ensureDB; simpl. destruct (db m) as [store|e]; [|by eauto].
  destruct (read_error read); [by eauto|].
  destruct (store !! key) as [result|]; [|by eauto].
  destruct (addToMemoryCache_wf (memoryMaxItems m) key (item_value result)
    {| meta_type := item_type result;
       originalTimestamp := Some (item_timestamp result) |} now2 mem1 Hwf1)
    as (mem2 & -> & Hwf2 & Hle2).
  simpl. eexists _, _. split; [done|]. by split.
Qed.

Lemma set_memory_inv key value type now1 now2 put m :
  memory_inv m →
  ∃ r m', set estimateSize key value type now1 now2 put m = Some (r, m') ∧ memory_inv m'.
Proof.
  intros [Hwf Hle]. unfold set.
  destruct (addToMemoryCache_wf (memoryMaxItems m) key value
    {| meta_type := type; originalTimestamp := None |} now1 (memory m) Hwf)
    as (mem1 & -> & Hwf1 & Hle1).
  simpl. assert (memory_inv (with_memory mem1 m)) as Hinv1 by by split.
  unfold ensureDB; simpl. destruct (db m) as [store|e]; [|by eauto].
  pose proof (memory_inv_removeFromMemoryCache key _ Hinv1) as Hinv2.
  pose proof (memory_inv_removeFromMemoryCache key _ Hinv2) as Hinv3.
  pose proof (memory_inv_removeFromMemoryCache key _ Hinv3) as Hinv4.
  pose proof (memory_inv_removeFromMemoryCache key _ Hinv4) as Hinv5.
  assert (memory_inv (_scheduleAsyncCleanup (with_memory mem1 m))) as Hsched.
  { split; rewrite ?scheduleAsyncCleanup_memory,
      ?scheduleAsyncCleanup_memoryMaxItems; apply Hinv1. }
  destruct put; eexists _, _; (split; [done|]); try done.
  - split; rewrite ?scheduleAsyncCleanup_memory,
      ?scheduleAsyncCleanup_memoryMaxItems; done.
  - by apply memory_inv_removeFromMemoryCache.
Qed.

Lemma cleanup_scan_memory_inv n scan m :
  memory_inv m → memory_inv (cleanup_scan n scan m).2.
Proof.
  intros Hinv. unfold cleanup_scan. destruct (db m) as [store|e]; [|done].
  assert (∀ keys, memory_inv (with_memory (removeAllFromMemoryCache keys (memory m)) m))
    as Hrm.
  { intros keys. destruct Hinv as [Hwf Hle].
    split; simpl; [by apply removeAllFromMemoryCache_wf|].
    unfold within_limit in *. etrans; [apply removeAllFromMemoryCache_size|done]. }
  destruct scan; try done; destruct (keysToDelete n store); try done; apply Hrm.
Qed.

Lemma fire_memory_inv ev m m' :
  memory_inv m → fire estimateSize ev m = Some m' → memory_inv m'.
Proof.
  intros Hinv. destruct ev; simpl.
  - destruct (get_memory_inv key now_lookup now_insert read m Hinv) as (r & m1 & -> & ?).
    by intros [= <-].
  - destruct (set_memory_inv key value type now_insert now_item put m Hinv)
      as (r & m1 & -> & ?).
    by intros [= <-].
  - intros [= <-]. unfold delete.
    pose proof (memory_inv_removeFromMemoryCache key _ Hinv).
    unfold ensureDB; simpl. destruct (db m); [|done]. by destruct req.
  - intros [= <-]. unfold clear.
    assert (memory_inv (with_memory (_clearMemoryCache (memory m)) m)).
    { split; simpl; [apply memory_wf_empty|].
      unfold within_limit; simpl. rewrite map_size_empty. lia. }
    unfold ensureDB; simpl. destruct (db m); [|done]. by destruct req.
  - intros [= <-]. unfold updateAccessTime, ensureDB.
    destruct (db m); [|done]. destruct req; [|done]. by destruct (_ !! _).
  - by intros [= <-].
  - destruct (timers m); [done|]. intros [= <-].
    unfold timer_callback, asyncCleanup_enter; simpl.
    by destruct (cleanupInProgress m).
  - intros [= <-]. unfold cleanup_call, asyncCleanup_enter.
    by destruct (cleanupInProgress m).
  - destruct (pollers m); [done|]. intros [= <-]. unfold cleanup_poll.
    by destruct (cleanupInProgress m).
  - destruct (passes m !! i) as [[|]|]; try done. intros [= <-].
    unfold pass_count. by destruct (cleanup_count count m) as [[|]|].
  - destruct (passes m !! i) as [[|n]|]; try done. intros [= <-].
    unfold pass_scan. apply (cleanup_scan_memory_inv n scan) in Hinv.
    by destruct (cleanup_scan n scan m).
Qed.

Lemma cleanup_scan_flags n scan m :
  let m' := (cleanup_scan n scan m).2 in
  cleanupInProgress m' = cleanupInProgress m ∧
  cleanupScheduled m' = cleanupScheduled m ∧
  timers m' = timers m ∧ passes m' = passes m ∧ pollers m' = pollers m ∧
  maxItems m' = maxItems m.
Proof.
  unfold cleanup_scan. destruct (db m); [|done].
  destruct scan; try done; by destruct (keysToDelete n _).
Qed.

Lemma get_flags key now1 now2 read m r m' :
  get key now1 now2 read m = Some (r, m') →
  cleanupInProgress m' = cleanupInProgress m ∧
  cleanupScheduled m' = cleanupScheduled m ∧
  timers m' = timers m ∧ passes m' = passes m ∧ pollers m' = pollers m.
Proof.
  unfold get. destruct (_getFromMemoryCache _ _ _) as [v mem1].
  destruct (not_null v); [by intros [= <- <-]|].
  unfold ensureDB; simpl. destruct (db m); [|by intros [= <- <-]].
  destruct (read_error read); [by intros [= <- <-]|].
  destruct (_ !! _); [|by intros [= <- <-]].
  destruct (_addToMemoryCache _ _ _ _ _ _); simpl; [|done].
  by intros [= <- <-].
Qed.

Lemma fire_scheduler_inv ev m m' :
  scheduler_inv m → fire estimateSize ev m = Some m' → scheduler_inv m'.
Proof.
  intros [Hp Ht]. destruct ev; simpl.
  - destruct (get _ _ _ _ _) as [[r m1]|] eqn:E; simpl; [|done].
    intros [= <-]. apply get_flags in E as (Ha & Hb & Hc & Hd & He).
    unfold scheduler_inv. by rewrite Ha, Hb, Hc, Hd.
  - unfold set. destruct (_addToMemoryCache _ _ _ _ _ _) as [mem1|]; simpl; [|done].
    unfold ensureDB; simpl. destruct (db m); [|by intros [= <-]].
    destruct put; simpl; intros [= <-]; try done;
      unfold _scheduleAsyncCleanup; simpl;
      destruct (cleanupScheduled m) eqn:Es, (cleanupInProgress m) eqn:Ei; simpl in *;
      split; simpl; rewrite ?Es, ?Ei; simpl; first [done | lia].
  - intros [= <-]. unfold delete, ensureDB; simpl. destruct (db m); [|done].
    by destruct req.
  - intros [= <-]. unfold clear, ensureDB; simpl. destruct (db m); [|done].
    by destruct req.
  - intros [= <-]. unfold updateAccessTime, ensureDB.
    destruct (db m); [|done]. destruct req; [|done]. by destruct (_ !! _).
  - by intros [= <-].
  - destruct (timers m) as [|n] eqn:Et; [done|]. intros [= <-].
    unfold timer_callback, asyncCleanup_enter; simpl.
    destruct (cleanupScheduled m); [|done].
    destruct (cleanupInProgress m) eqn:Ei; split; simpl; rewrite ?Ei; simpl;
      first [done | lia].
  - intros [= <-]. unfold cleanup_call, asyncCleanup_enter.
    destruct (cleanupInProgress m) eqn:Ei; split; simpl; rewrite ?Ei; simpl;
      first [done | lia].
  - destruct (pollers m); [done|]. intros [= <-]. unfold cleanup_poll.
    destruct (cleanupInProgress m) eqn:Ei; split; simpl; rewrite ?Ei; done.
  - destruct (passes m !! i) as [[|]|] eqn:Ei; try done. intros [= <-].
    assert (cleanupInProgress m = true ∧ length (passes m) = 1%nat) as [Hf Hl].
    { apply lookup_lt_Some in Ei. destruct (cleanupInProgress m); [done|lia]. }
    unfold pass_count. destruct (cleanup_count count m) as [[n|]|]; split; simpl;
      rewrite ?Hf; try done.
    + by rewrite length_insert.
    + rewrite length_delete by eauto. lia.
    + rewrite length_delete by eauto. lia.
  - destruct (passes m !! i) as [[|n]|] eqn:Ei; try done. intros [= <-].
    assert (cleanupInProgress m = true ∧ length (passes m) = 1%nat) as [Hf Hl].
    { apply lookup_lt_Some in Ei. destruct (cleanupInProgress m); [done|lia]. }
    unfold pass_scan.
    pose proof (cleanup_scan_flags n scan m) as (Ha & Hb & Hc & Hd & He & _).
    split; simpl; [|by rewrite Hb, Hc].
    rewrite length_delete by eauto. lia.
Qed.

Lemma reachable_inv m :
  reachable estimateSize m → memory_inv m ∧ scheduler_inv m.
Proof.
  induction 1 as [maxItems memoryMaxItems opened|ev m m' Hr [IHm IHs] Hf].
  - split; [|done]. split; simpl; [apply memory_wf_empty|].
    unfold within_limit; simpl. rewrite map_size_empty. lia.
  - split; [by eapply fire_memory_inv | by eapply fire_scheduler_inv].
Qed.

End Facts.

(** ** The cleanup pass *)

Lemma with_cleanupInProgress_restore m :
  cleanupInProgress m = false →
  with_cleanupInProgress false (with_cleanupInProgress true m) = m.
Proof. destruct m; simpl. by intros ->. Qed.

Lemma cleanup_scan_success n m store :
  db m = DbOpen store → keysToDelete n store ≠ [] →
  cleanup_scan n ScanSuccess m =
  (Fulfilled (),
   with_db (DbOpen (deleteAll (keysToDelete n store) store))
     (with_memory (removeAllFromMemoryCache (keysToDelete n store) (memory m)) m)).
Proof.
  intros Hdb Hne. unfold cleanup_scan. rewrite Hdb.
  by destruct (keysToDelete n store).
Qed.

(** C3, as the code has it.  An eviction pass that runs alone and whose
    requests succeed.  If L2 holds at most [maxItems] records the
    manager is left as it was.
    Otherwise the pass deletes the first [count - maxItems] records of the
    scan by access time: that many distinct keys, oldest first, none newer
    than a record that stays; each is gone from [memoryCache] and from the
    store, everything else is kept, and L2 ends with exactly [maxItems]
    records. *)
Theorem asyncCleanup_trims m store :
  db m = DbOpen store → cleanupInProgress m = false →
  ∃ m', _asyncCleanup RequestSuccess ScanSuccess m = (Fulfilled (), m') ∧
    ((size store ≤ maxItems m)%nat → m' = m) ∧
    ((maxItems m < size store)%nat →
      let doomed := keysToDelete (size store - maxItems m) store in
      ∃ store', db m' = DbOpen store' ∧
        length doomed = (size store - maxItems m)%nat ∧
        NoDup doomed.*1 ∧
        StronglySorted older doomed ∧
        (∀ k t, (k, t) ∈ doomed →
           ∃ item, store !! k = Some item ∧ item_accessTime item = t) ∧
        (∀ k t k' item', (k, t) ∈ doomed → store' !! k' = Some item' →
           t ≤ item_accessTime item') ∧
        (∀ k, store' !! k = if decide (k ∈ doomed.*1) then None else store !! k) ∧
        (∀ k, memoryCache (memory m') !! k =
              if decide (k ∈ doomed.*1) then None else memoryCache (memory m) !! k) ∧
        (memory_wf (memory m) → memory_wf (memory m')) ∧
        size store' = maxItems m ∧
        cleanupInProgress m' = false).
Proof.
  intros Hdb Hflag. unfold _asyncCleanup. rewrite Hflag.
  unfold cleanup_count, ensureDB. simpl. rewrite Hdb.
  case_decide as Hle.
  - eexists. split; [done|]. split; [|lia].
    intros _. by apply with_cleanupInProgress_restore.
  - set (n := (size store - maxItems m)%nat).
    pose proof (keysToDelete_take n store) as Hk.
    pose proof (index_scan_length store) as Hlen.
    pose proof (index_scan_sorted store) as Hsorted.
    rewrite <- (take_drop n (index_scan store)) in Hsorted.
    apply StronglySorted_app in Hsorted as (Hcross & Hs1 & _).
    assert (length (keysToDelete n store) = n) as Hn.
    { rewrite Hk, length_take. lia. }
    rewrite (cleanup_scan_success n _ store) by
      (try done; intros Hnil; rewrite Hnil in Hn; simpl in Hn; lia).
    eexists. split; [done|]. split; [lia|]. intros _. simpl.
    eexists. split; [done|]. rewrite Hk.
    assert (NoDup (take n (index_scan store)).*1) as Hnd.
    { rewrite fmap_take. eapply sublist_NoDup; [apply index_scan_NoDup|].
      apply sublist_take. }
    split; [by rewrite <- Hk|]. split; [done|]. split; [done|].
    split; [|split; [|split; [|split; [|split; [|split]]]]].
    + intros k t Hin%subseteq_take. apply elem_of_index_scan in Hin as (item & ? & ->).
      eauto.
    + intros k t k' item' Hin Hlk. rewrite deleteAll_lookup in Hlk.
      case_decide as Hk'; [done|].
      apply (Hcross (k, t) (k', item_accessTime item')); [done|].
      assert ((k', item_accessTime item') ∈ index_scan store) as Hs
        by (apply elem_of_index_scan; eauto).
      rewrite <- (take_drop n (index_scan store)) in Hs.
      apply elem_of_app in Hs as [Hs|Hs]; [|done].
      destruct Hk'. apply list_elem_of_fmap. by exists (k', item_accessTime item').
    + intros k. apply deleteAll_lookup.
    + intros k. apply removeAllFromMemoryCache_lookup.
    + apply removeAllFromMemoryCache_wf.
    + rewrite deleteAll_size; [|done|apply take_scan_present].
      rewrite <- Hk, Hn. unfold n. lia.
    + done.
Qed.


Lemma asyncCleanup_trims_witness :
  db sample_overfull = DbOpen (store_of sample_overfull) ∧
  cleanupInProgress sample_overfull = false ∧
  (maxItems sample_overfull < size (store_of sample_overfull))%nat ∧
  ∃ m', _asyncCleanup RequestSuccess ScanSuccess sample_overfull
        = (Fulfilled (), m') ∧
        size (store_of m') = 3%nat.
Proof.
  assert (db sample_overfull = DbOpen (store_of sample_overfull)) as Hdb
    by by_computation.
  assert (cleanupInProgress sample_overfull = false) as Hflag by by_computation.
  assert (maxItems sample_overfull < size (store_of sample_overfull))%nat as Hlt
    by (vm_compute; lia).
  split; [exact Hdb|]. split; [exact Hflag|]. split; [exact Hlt|].
  destruct (asyncCleanup_trims sample_overfull (store_of sample_overfull) Hdb Hflag)
    as (m' & Hrun & _ & Hover).
  destruct (Hover Hlt) as (store' & Hdb' & _ & _ & _ & _ & _ & _ & _ & _ & Hsize & _).
  exists m'. split; [exact Hrun|].
  unfold store_of at 1. rewrite Hdb'. exact Hsize.
Defined.

(** C3, as stated, fails: a pass that runs alone on four records under
    [maxItems = 3] and whose delete request fails ends, rejected, with
    the four records still in L2. *)
Lemma failed_pass_keeps_excess_counterexample :
  cleanupInProgress sample_overfull = false ∧
  size (store_of sample_overfull) = 4%nat ∧ maxItems sample_overfull = 3%nat ∧
  _asyncCleanup RequestSuccess (ScanDeleteError quota_error) sample_overfull
  = (Rejected quota_error, pass_failed) ∧
  cleanupInProgress pass_failed = false ∧
  size (store_of pass_failed) = 4%nat ∧
  size (store_of pass_failed) ≠ maxItems pass_failed.
Proof.
  split; [by_computation|]. split; [by_computation|]. split; [by_computation|].
  split; [by_computation|]. split; [by_computation|]. split; [by_computation|].
  intros H. vm_compute in H. discriminate H.
Qed.

(** ** Reads and writes *)

Lemma addToMemoryCache_spec limit key value metadata now mem :
  memory_wf mem →
  let mem1 := inserted key
    {| entry_value := value; entry_metadata := metadata; entry_accessTime := now |}
    mem in
  ∃ mem', _addToMemoryCache limit key value metadata now mem = Some mem' ∧
    memory_wf mem' ∧ within_limit limit mem' ∧
    evicted (length (memoryAccessOrder mem1) - limit)
      (memoryCache mem1) (memoryAccessOrder mem1) mem'.
Proof.
  intros Hwf mem1. rewrite addToMemoryCache_unfold by done. cbv zeta.
  fold mem1.
  destruct (evictOldest_wf limit (memoryCache mem1) (memoryAccessOrder mem1))
    as (mem' & Hev & Hwf' & Hevicted).
  { assert (memory_wf mem1) as H by by apply inserted_wf. by destruct mem1. }
  exists mem'. split; [done|]. split; [done|]. split; [|done].
  by eapply evictOldest_within.
Qed.

(** The key just inserted is the newest: it is evicted only when the
    limit is 0. *)
Lemma inserted_key_survives limit key entry mem :
  memory_wf mem → (0 < limit)%nat →
  let order1 := memoryAccessOrder (inserted key entry mem) in
  key ∉ take (length order1 - limit) order1.
Proof.
  intros [Hnd _]%memory_wf_spec Hlimit. simpl.
  rewrite length_app. simpl.
  rewrite take_app_le by lia.
  intros Hin%subseteq_take. apply elem_of_splice_first in Hin; [|done].
  by destruct Hin.
Qed.

Lemma addToMemoryCache_lookup_key limit key value metadata now mem mem' entry :
  memory_wf mem →
  _addToMemoryCache limit key value metadata now mem = Some mem' →
  memoryCache mem' !! key = Some entry → entry_value entry = value.
Proof.
  intros Hwf Hadd Hlk.
  destruct (addToMemoryCache_spec limit key value metadata now mem Hwf)
    as (mem2 & Hadd2 & _ & _ & _ & Hev).
  rewrite Hadd in Hadd2. injection Hadd2 as <-.
  rewrite Hev in Hlk. case_decide; [done|]. simpl in Hlk.
  rewrite lookup_insert_eq in Hlk. by injection Hlk as <-.
Qed.

Lemma get_memory_hit key now_lookup now_insert read m entry :
  memoryCache (memory m) !! key = Some entry →
  not_null (entry_value entry) = true →
  get key now_lookup now_insert read m =
  Some (Fulfilled (entry_value entry),
        with_memory (_getFromMemoryCache key now_lookup (memory m)).2 m).
Proof.
  intros Hlk Hnn. unfold get, _getFromMemoryCache. rewrite Hlk. simpl.
  by rewrite Hnn.
Qed.

(** On an L1 miss, or an L1 entry whose value is [null], [get] answers
    from L2. *)
Lemma get_fallthrough key now_lookup now_insert read m :
  memory_wf (memory m) →
  (∀ entry, memoryCache (memory m) !! key = Some entry →
            entry_value entry = VNull) →
  ∃ m', get key now_lookup now_insert read m
        = Some (persistent_lookup key read m, m') ∧ db m' = db m.
Proof.
  intros Hwf Hnull. unfold get, persistent_lookup.
  pose proof (getFromMemoryCache_wf key now_lookup _ Hwf) as Hwf1.
  assert ((_getFromMemoryCache key now_lookup (memory m)).1 = VNull) as Hres.
  { unfold _getFromMemoryCache.
    destruct (memoryCache (memory m) !! key) as [entry|] eqn:E; simpl; [|done].
    by apply Hnull. }
  destruct (_getFromMemoryCache key now_lookup (memory m)) as [v mem1].
  simpl in *. subst v. simpl. unfold ensureDB; simpl.
  destruct (db m) as [store|e] eqn:Hdb; [|by eauto].
  destruct (read_error read); [by eauto|].
  destruct (store !! key) as [result|]; [|by eauto].
  destruct (addToMemoryCache_wf (memoryMaxItems m) key (item_value result)
    {| meta_type := item_type result;
       originalTimestamp := Some (item_timestamp result) |} now_insert mem1 Hwf1)
    as (mem2 & -> & _).
  simpl. by eauto.
Qed.


Lemma scheduleAsyncCleanup_db m : db (_scheduleAsyncCleanup m) = db m.
Proof. unfold _scheduleAsyncCleanup. by destruct (_ || _). Qed.

Lemma reachable_run estimateSize evs m m' :
  reachable estimateSize m → run estimateSize evs m = Some m' →
  reachable estimateSize m'.
Proof.
  revert m. induction evs as [|ev evs IH]; intros m Hr; simpl.
  - by intros [= <-].
  - destruct (fire estimateSize ev m) as [m1|] eqn:E; simpl; [|done].
    apply IH. by eapply reachable_fire.
Qed.

Section RoundTrip.

Variable estimateSize : Value → Z.


End RoundTrip.




(** ** The memory tier *)

Lemma calls_within_limit limit cs mem :
  memory_wf mem → within_limit limit mem →
  ∃ mem', calls limit cs mem = Some mem' ∧ memory_wf mem' ∧ within_limit limit mem'.
Proof.
  revert mem. induction cs as [|c cs IH]; intros mem Hwf Hle; simpl; [by eauto|].
  assert (∃ mem1, call limit c mem = Some mem1 ∧ memory_wf mem1 ∧
                  within_limit limit mem1) as (mem1 & -> & Hwf1 & Hle1).
  { destruct c; simpl.
    - apply addToMemoryCache_wf, Hwf.
    - eexists. split; [done|]. split; [by apply getFromMemoryCache_wf|].
      unfold within_limit. by rewrite getFromMemoryCache_size.
    - eexists. split; [done|]. split; [by apply removeFromMemoryCache_wf|].
      unfold within_limit in *. etrans; [apply removeFromMemoryCache_size|done].
    - eexists. split; [done|]. split; [apply memory_wf_empty|].
      unfold within_limit; simpl. rewrite map_size_empty. lia. }
  simpl. by apply IH.
Qed.

(** C2. In every state the manager can reach through its operations
    (get, set, delete, clear, access-time updates, timers, cleanup passes
    and manual cleanups, with any outcome of the IndexedDB requests), L1
    holds at most [memoryMaxItems] entries; and from such a state every
    further sequence of calls of the L1 methods, the insert included,
    returns with the bound in place. *)
Theorem memory_bound estimateSize m :
  reachable estimateSize m →
  (size (memoryCache (memory m)) ≤ memoryMaxItems m)%nat ∧
  ∀ cs, ∃ mem', calls (memoryMaxItems m) cs (memory m) = Some mem' ∧
                (size (memoryCache mem') ≤ memoryMaxItems m)%nat.
Proof.
  intros [[Hwf Hle] _]%reachable_inv. split; [done|].
  intros cs. destruct (calls_within_limit (memoryMaxItems m) cs (memory m))
    as (mem' & ? & _ & ?); by eauto.
Qed.

Lemma memory_bound_witness :
  reachable sample_estimateSize sample_state ∧
  (size (memoryCache (memory sample_state)) ≤ memoryMaxItems sample_state)%nat.
Proof.
  assert (reachable sample_estimateSize sample_state) as Hr.
  { apply (reachable_run sample_estimateSize sample_trace sample_manager).
    - apply reachable_constructor.
    - by_computation. }
  split; [exact Hr|].
  exact (proj1 (memory_bound sample_estimateSize sample_state Hr)).
Defined.

Lemma getFromMemoryCache_hit key now mem item :
  memoryCache mem !! key = Some item →
  _getFromMemoryCache key now mem =
  (entry_value item,
   {| memoryCache :=
        <[key := {| entry_value := entry_value item;
                    entry_metadata := entry_metadata item;
                    entry_accessTime := now |}]> (memoryCache mem);
      memoryAccessOrder := splice_first key (memoryAccessOrder mem) ++ [key] |}).
Proof.
  intros Hlk. unfold _getFromMemoryCache, _removeFromMemoryCache.
  rewrite Hlk. simpl. by rewrite insert_delete_eq.
Qed.

Lemma Forall_splice_first {B} (P : B → Prop) (f : string → B) key order :
  Forall P (f <$> order) → Forall P (f <$> splice_first key order).
Proof.
  induction order as [|k rest IH]; simpl; [done|].
  intros [Hk Hrest]%Forall_cons. case_decide; [done|].
  rewrite fmap_cons. apply Forall_cons. auto.
Qed.

Lemma StronglySorted_splice_first {B} (R : relation B) (f : string → B) key order :
  StronglySorted R (f <$> order) → StronglySorted R (f <$> splice_first key order).
Proof.
  induction order as [|k rest IH]; simpl; [done|].
  intros [Hrest Hk]%StronglySorted_inv. case_decide; [done|].
  rewrite fmap_cons. constructor; [by apply IH|].
  by apply Forall_splice_first.
Qed.

Lemma stamps_inserted key entry mem :
  memory_wf mem →
  stamps (inserted key entry mem) =
  (stamp (memoryCache mem) <$> splice_first key (memoryAccessOrder mem))
  ++ [entry_accessTime entry].
Proof.
  intros [Hnd _]%memory_wf_spec. unfold stamps, inserted. simpl.
  rewrite fmap_app. simpl. f_equal.
  - apply Forall_fmap_ext, Forall_forall. intros k Hk.
    apply elem_of_splice_first in Hk as [_ Hne]; [|done].
    unfold stamp. by rewrite lookup_insert_ne.
  - unfold stamp. by rewrite lookup_insert_eq.
Qed.

Lemma inserted_stamped key entry mem :
  memory_wf mem → recency_stamped (entry_accessTime entry) mem →
  recency_stamped (entry_accessTime entry) (inserted key entry mem).
Proof.
  intros Hwf [Hs Hb]. unfold recency_stamped. rewrite stamps_inserted by done.
  split.
  - apply StronglySorted_app. split; [|split].
    + intros s1 s2 Hs1 ->%list_elem_of_singleton.
      pose proof (Forall_splice_first _ (stamp (memoryCache mem)) key _ Hb) as Hb'.
      rewrite Forall_forall in Hb'. by apply Hb'.
    + by apply StronglySorted_splice_first.
    + repeat constructor.
  - apply Forall_app. split; [by apply Forall_splice_first|].
    by repeat constructor.
Qed.

Lemma stamps_evicted n cache order mem' :
  NoDup order → evicted n cache order mem' →
  stamps mem' = drop n (stamp cache <$> order).
Proof.
  intros Hnd [Hord Hlk]. unfold stamps. rewrite Hord, <- fmap_drop.
  apply Forall_fmap_ext, Forall_forall. intros k Hk.
  unfold stamp. rewrite Hlk. rewrite decide_False; [done|].
  intros Hin. rewrite <- (take_drop n order) in Hnd.
  apply NoDup_app in Hnd as (_ & Hdisj & _). by apply (Hdisj k).
Qed.

Lemma recency_stamped_later now now' mem :
  now ≤ now' → recency_stamped now mem → recency_stamped now' mem.
Proof.
  intros Hle [Hs Hb]. split; [done|].
  eapply Forall_impl; [exact Hb|]. simpl. lia.
Qed.

(** With a clock that does not run backwards the stamps stay in order
    through every call of an L1 method. *)
Lemma addToMemoryCache_stamped limit key value metadata now mem mem' :
  memory_wf mem → recency_stamped now mem →
  _addToMemoryCache limit key value metadata now mem = Some mem' →
  recency_stamped now mem'.
Proof.
  intros Hwf Hst Hadd.
  destruct (addToMemoryCache_spec limit key value metadata now mem Hwf)
    as (mem2 & Hadd2 & _ & _ & Hev).
  rewrite Hadd in Hadd2. injection Hadd2 as <-.
  set (entry := Build_MemEntry value metadata now) in *.
  pose proof (inserted_stamped key entry mem Hwf Hst) as [Hs Hb].
  pose proof (inserted_wf key entry mem Hwf) as [Hnd _]%memory_wf_spec.
  unfold recency_stamped. rewrite (stamps_evicted _ _ _ _ Hnd Hev).
  fold (stamps (inserted key entry mem)).
  split; [|by apply Forall_drop].
  rewrite <- (take_drop (length (memoryAccessOrder (inserted key entry mem)) - limit)
                (stamps (inserted key entry mem))) in Hs.
  by apply StronglySorted_app in Hs as (_ & _ & ?).
Qed.

Lemma getFromMemoryCache_stamped key now mem :
  memory_wf mem → recency_stamped now mem →
  recency_stamped now (_getFromMemoryCache key now mem).2.
Proof.
  intros Hwf Hst. destruct (memoryCache mem !! key) as [item|] eqn:E.
  - rewrite (getFromMemoryCache_hit _ _ _ _ E). simpl.
    apply (inserted_stamped key
      {| entry_value := entry_value item; entry_metadata := entry_metadata item;
         entry_accessTime := now |} mem Hwf Hst).
  - unfold _getFromMemoryCache. by rewrite E.
Qed.

Lemma removeFromMemoryCache_stamped key now mem :
  memory_wf mem → recency_stamped now mem →
  recency_stamped now (_removeFromMemoryCache key mem).
Proof.
  intros Hwf [Hs Hb]. pose proof Hwf as [Hnd _]%memory_wf_spec.
  assert (stamps (_removeFromMemoryCache key mem) =
          stamp (memoryCache mem) <$> splice_first key (memoryAccessOrder mem))
    as Heq.
  { unfold stamps. rewrite removeFromMemoryCache_order by done.
    apply Forall_fmap_ext, Forall_forall. intros k Hk.
    apply elem_of_splice_first in Hk as [_ Hne]; [|done].
    unfold stamp. rewrite removeFromMemoryCache_lookup.
    by rewrite decide_False by done. }
  unfold recency_stamped. rewrite Heq.
  split; [by apply StronglySorted_splice_first | by apply Forall_splice_first].
Qed.

Lemma call_stamped limit c now mem mem' :
  memory_wf mem → recency_stamped now mem → now ≤ call_time c now →
  call limit c mem = Some mem' → recency_stamped (call_time c now) mem'.
Proof.
  intros Hwf Hst Hle. destruct c; simpl in *.
  - apply addToMemoryCache_stamped; [done|]. by eapply recency_stamped_later.
  - intros [= <-]. apply getFromMemoryCache_stamped; [done|].
    by eapply recency_stamped_later.
  - intros [= <-]. by apply removeFromMemoryCache_stamped.
  - intros [= <-]. split; constructor.
Qed.

(** C6. The memory tier is an LRU whose recency marker is the position in
    [memoryAccessOrder] (oldest first).  On a hit, [_getFromMemoryCache]
    returns the value and moves the key to the end of the order, the
    entries otherwise unchanged; on a miss it returns [null] and changes
    nothing.  [_addToMemoryCache] puts the key at the end of the order and
    then removes exactly the keys at the front, as many as the size
    exceeds [limit], so every key it evicts is older in the order than
    every key it keeps; when the [accessTime] stamps follow the order (as
    they do under a clock that does not run backwards), no evicted entry
    was touched later than an entry that stays. *)
Theorem memory_lru limit key now mem :
  memory_wf mem →
  match memoryCache mem !! key with
  | Some item =>
      ∃ mem', _getFromMemoryCache key now mem = (entry_value item, mem') ∧
        memoryAccessOrder mem' = splice_first key (memoryAccessOrder mem) ++ [key] ∧
        last (memoryAccessOrder mem') = Some key ∧
        memoryCache mem' =
          <[key := {| entry_value := entry_value item;
                      entry_metadata := entry_metadata item;
                      entry_accessTime := now |}]> (memoryCache mem)
  | None => _getFromMemoryCache key now mem = (VNull, mem)
  end ∧
  ∀ value metadata,
    let entry := {| entry_value := value; entry_metadata := metadata;
                    entry_accessTime := now |} in
    let order1 := splice_first key (memoryAccessOrder mem) ++ [key] in
    let excess := (length order1 - limit)%nat in
    ∃ mem', _addToMemoryCache limit key value metadata now mem = Some mem' ∧
      memoryAccessOrder mem' = drop excess order1 ∧
      (∀ k, memoryCache mem' !! k =
            if decide (k ∈ take excess order1) then None
            else <[key := entry]> (memoryCache mem) !! k) ∧
      size (memoryCache mem') = Nat.min (length order1) limit ∧
      (recency_stamped now mem →
       ∀ k k', k ∈ take excess order1 → k' ∈ memoryAccessOrder mem' →
         stamp (<[key := entry]> (memoryCache mem)) k
         ≤ stamp (memoryCache mem') k').
Proof.
  intros Hwf. split.
  - destruct (memoryCache mem !! key) as [item|] eqn:E.
    + eexists. split; [by apply getFromMemoryCache_hit|]. simpl.
      split; [done|]. split; [apply last_snoc|done].
    + unfold _getFromMemoryCache. by rewrite E.
  - intros value metadata entry order1 excess.
    destruct (addToMemoryCache_spec limit key value metadata now mem Hwf)
      as (mem' & Hadd & Hwf' & Hle & Hord & Hlk).
    simpl in Hord, Hlk. fold order1 in Hord, Hlk. fold excess in Hord, Hlk.
    fold entry in Hlk.
    exists mem'. split; [done|]. split; [done|]. split; [done|]. split.
    { rewrite (memory_wf_size _ Hwf'), Hord, length_drop. unfold excess. lia. }
    intros Hst k k' Hk Hk'.
    pose proof (inserted_stamped key entry mem Hwf Hst) as [Hs _].
    pose proof (inserted_wf key entry mem Hwf) as [Hnd _]%memory_wf_spec.
    simpl in Hnd. fold order1 in Hnd.
    unfold stamps in Hs. simpl in Hs. fold order1 in Hs.
    rewrite <- (take_drop excess order1), fmap_app in Hs.
    apply StronglySorted_app in Hs as (Hcross & _ & _).
    rewrite Hord in Hk'.
    assert (stamp (memoryCache mem') k' = stamp (<[key := entry]> (memoryCache mem)) k')
      as ->.
    { unfold stamp. rewrite Hlk. rewrite decide_False; [done|].
      intros Hin. rewrite <- (take_drop excess order1) in Hnd.
      apply NoDup_app in Hnd as (_ & Hdisj & _). by apply (Hdisj k'). }
    apply Hcross; apply list_elem_of_fmap; eauto.
Qed.

Lemma memory_lru_witness :
  memory_wf (memory sample_state) ∧
  ∃ mem', _addToMemoryCache 2 "E" (VStr "e")
            {| meta_type := "mermaid"; originalTimestamp := None |} 5
            (memory sample_state) = Some mem' ∧
          memoryAccessOrder mem' = ["D"; "E"].
Proof.
  assert (memory_wf (memory sample_state)) as Hwf
    by wf_by_computation.
  split; [exact Hwf|].
  destruct (proj2 (memory_lru 2 "E" 5 (memory sample_state) Hwf) (VStr "e")
              {| meta_type := "mermaid"; originalTimestamp := None |})
    as (mem' & Hadd & Hord & _).
  exists mem'. split; [exact Hadd|]. rewrite Hord. by_computation.
Defined.


(** ** Failures of the persistent tier *)

Section Failures.

Variable estimateSize : Value → Z.


(** C7, as the code has it.  A successful [set(k, v', t)] on a key that L2
    already holds stores a whole new record under [k]: value, type and
    size from the call, [timestamp] and [accessTime] both set to the
    clock reading of this call.  The other records are unchanged. *)
Theorem set_replaces_record key value type now1 now2 m m' store old :
  db m = DbOpen store → store !! key = Some old →
  set estimateSize key value type now1 now2 PutSuccess m = Some (Fulfilled (), m') →
  stored key m' =
    Some {| item_value := value; item_type := type;
            item_size := estimateSize value;
            item_timestamp := now2; item_accessTime := now2 |} ∧
  ∀ k, k ≠ key → stored k m' = store !! k.
Proof.
  intros Hdb _ Hset. unfold set in Hset.
  destruct (_addToMemoryCache _ _ _ _ _ _) as [mem1|]; simpl in Hset; [|done].
  unfold ensureDB in Hset; simpl in Hset. rewrite Hdb in Hset.
  injection Hset as <-. unfold stored. rewrite scheduleAsyncCleanup_db. simpl.
  split; [by rewrite lookup_insert_eq|].
  intros k Hk. by rewrite lookup_insert_ne.
Qed.

(** C9, as the code has it.  When the database failed to open there is no
    degraded mode: every [set] rejects with the error of the open
    request, and so does every [get] that L1 cannot answer. *)
Theorem storage_unavailable_rejects key m e :
  memory_wf (memory m) → db m = DbFailed e →
  (∀ value type now1 now2 put,
     ∃ m', set estimateSize key value type now1 now2 put m = Some (Rejected e, m')) ∧
  ((∀ entry, memoryCache (memory m) !! key = Some entry →
             entry_value entry = VNull) →
   ∀ now1 now2 read,
     ∃ m', get key now1 now2 read m = Some (Rejected e, m')).
Proof.
  intros Hwf Hdb. split.
  - intros value type now1 now2 put. unfold set.
    destruct (addToMemoryCache_wf (memoryMaxItems m) key value
      {| meta_type := type; originalTimestamp := None |} now1 (memory m) Hwf)
      as (mem1 & -> & _).
    simpl. unfold ensureDB; simpl. rewrite Hdb. by eauto.
  - intros Hnull now1 now2 read.
    destruct (get_fallthrough key now1 now2 read m Hwf Hnull) as (m' & -> & _).
    unfold persistent_lookup. rewrite Hdb. by eauto.
Qed.

End Failures.

(** C10. A value [null] held in L1 is never served from L1: [get] goes on
    to L2 and settles to what the L2 lookup gives.  When L2 holds [null]
    for the key as well, or holds nothing, [get] resolves to [null], the
    same result as for a key that is in neither tier. *)
Theorem null_value_is_a_miss key now1 now2 read m entry :
  memory_wf (memory m) →
  memoryCache (memory m) !! key = Some entry → entry_value entry = VNull →
  (∃ m', get key now1 now2 read m = Some (persistent_lookup key read m, m')) ∧
  (∀ store, db m = DbOpen store → read = ReadSuccess →
     (item_value <$> store !! key) = Some VNull ∨ store !! key = None →
     ∃ m', get key now1 now2 read m = Some (Fulfilled VNull, m')) ∧
  (∀ m0 store0, memoryCache (memory m0) !! key = None →
     db m0 = DbOpen store0 → store0 !! key = None →
     get key now1 now2 ReadSuccess m0 = Some (Fulfilled VNull, m0)).
Proof.
  intros Hwf Hlk Hnull.
  destruct (get_fallthrough key now1 now2 read m Hwf) as (m' & Hget & _).
  { rewrite Hlk. by intros ? [= <-]. }
  split; [by eauto|]. split.
  - intros store Hdb -> Hl2. exists m'. rewrite Hget. unfold persistent_lookup.
    rewrite Hdb. simpl. destruct (store !! key) as [result|]; [|done].
    destruct Hl2 as [[= ->]|]; done.
  - intros m0 store0 Hmiss Hdb0 Hnone. unfold get, _getFromMemoryCache.
    rewrite Hmiss. simpl. unfold ensureDB; simpl. rewrite Hdb0, Hnone.
    by destruct m0 as [? ? []].
Qed.




Lemma set_replaces_record_witness :
  db written_once = DbOpen (store_of written_once) ∧
  store_of written_once !! "k" =
    Some {| item_value := VStr "old"; item_type := "mermaid"; item_size := 3;
            item_timestamp := 1; item_accessTime := 1 |} ∧
  set sample_estimateSize "k" (VStr "new") "mermaid" 2 2 PutSuccess written_once
  = Some (Fulfilled (), written_twice) ∧
  stored "k" written_twice =
    Some {| item_value := VStr "new"; item_type := "mermaid";
            item_size := sample_estimateSize (VStr "new");
            item_timestamp := 2; item_accessTime := 2 |}.
Proof.
  assert (db written_once = DbOpen (store_of written_once)) as Hdb
    by by_computation.
  assert (store_of written_once !! "k" =
    Some {| item_value := VStr "old"; item_type := "mermaid"; item_size := 3;
            item_timestamp := 1; item_accessTime := 1 |}) as Hold
    by by_computation.
  assert (set sample_estimateSize "k" (VStr "new") "mermaid" 2 2 PutSuccess
            written_once = Some (Fulfilled (), written_twice)) as Hset
    by by_computation.
  split; [exact Hdb|]. split; [exact Hold|]. split; [exact Hset|].
  exact (proj1 (set_replaces_record sample_estimateSize "k" (VStr "new") "mermaid"
                  2 2 written_once written_twice _ _ Hdb Hold Hset)).
Defined.

(** C7, as stated, fails: ["k"] was first written at time 1; after a
    successful [set] at time 2 its record carries [timestamp = 2]. *)
Lemma set_resets_timestamp_counterexample :
  item_timestamp <$> stored "k" written_once = Some 1 ∧
  set sample_estimateSize "k" (VStr "new") "mermaid" 2 2 PutSuccess written_once
  = Some (Fulfilled (), written_twice) ∧
  item_timestamp <$> stored "k" written_twice = Some 2 ∧
  item_timestamp <$> stored "k" written_twice
  ≠ item_timestamp <$> stored "k" written_once.
Proof.
  split; [by_computation|]. split; [by_computation|]. split; [by_computation|].
  intros H. vm_compute in H. discriminate H.
Qed.

Lemma storage_unavailable_rejects_witness :
  memory_wf (memory unavailable_manager) ∧
  db unavailable_manager = DbFailed open_error ∧
  ∃ m', set sample_estimateSize "k" (VStr "v") "mermaid" 1 1 PutSuccess
          unavailable_manager = Some (Rejected open_error, m').
Proof.
  assert (memory_wf (memory unavailable_manager)) as Hwf by wf_by_computation.
  assert (db unavailable_manager = DbFailed open_error) as Hdb by reflexivity.
  split; [exact Hwf|]. split; [exact Hdb|].
  exact (proj1 (storage_unavailable_rejects sample_estimateSize "k"
                  unavailable_manager open_error Hwf Hdb)
           (VStr "v") "mermaid" 1 1 PutSuccess).
Defined.

(** C9, as stated, fails: with the database unavailable, [get] of a key
    that L1 does not hold rejects instead of resolving to [null], and
    [set] rejects instead of doing nothing silently. *)
Lemma no_degraded_mode_counterexample :
  fst <$> get "k" 1 1 ReadSuccess unavailable_manager
  = Some (Rejected open_error) ∧
  fst <$> get "k" 1 1 ReadSuccess unavailable_manager ≠ Some (Fulfilled VNull) ∧
  fst <$> set sample_estimateSize "k" (VStr "v") "mermaid" 1 1 PutSuccess
            unavailable_manager
  = Some (Rejected open_error).
Proof.
  split; [by_computation|]. split; [|by_computation].
  intros H. vm_compute in H. discriminate H.
Qed.

Lemma null_value_is_a_miss_witness :
  memory_wf (memory null_cached) ∧
  memoryCache (memory null_cached) !! "n" = Some null_entry ∧
  entry_value null_entry = VNull ∧
  ∃ m', get "n" 2 2 ReadSuccess null_cached
        = Some (persistent_lookup "n" ReadSuccess null_cached, m').
Proof.
  assert (memory_wf (memory null_cached)) as Hwf by wf_by_computation.
  assert (memoryCache (memory null_cached) !! "n" = Some null_entry) as Hlk
    by by_computation.
  assert (entry_value null_entry = VNull) as Hnull by reflexivity.
  split; [exact Hwf|]. split; [exact Hlk|]. split; [exact Hnull|].
  exact (proj1 (null_value_is_a_miss "n" 2 2 ReadSuccess null_cached null_entry
                  Hwf Hlk Hnull)).
Defined.


(** ** The scheduler *)

Section Scheduler.

Variable estimateSize : Value → Z.

Lemma set_scheduled key value type now1 now2 put m r m' :
  set estimateSize key value type now1 now2 put m = Some (r, m') →
  cleanupInProgress m' = cleanupInProgress m ∧
  (cleanupInProgress m = true → cleanupScheduled m' = cleanupScheduled m).
Proof.
  unfold set. destruct (_addToMemoryCache _ _ _ _ _ _) as [mem1|]; simpl; [|done].
  unfold ensureDB; simpl. destruct (db m); [|by intros [= <- <-]].
  destruct put; intros [= <- <-]; try done;
    unfold _scheduleAsyncCleanup; simpl;
    destruct (cleanupScheduled m) eqn:Es, (cleanupInProgress m) eqn:Ei; simpl;
    rewrite ?Es, ?Ei; done.
Qed.

(** While a pass runs with no timer armed, no event arms one. *)
Lemma running_keeps_unscheduled ev m m' :
  cleanupInProgress m = true → cleanupScheduled m = false →
  fire estimateSize ev m = Some m' → cleanupScheduled m' = false.
Proof.
  intros Hrun Hsched Hfire. destruct ev; simpl in Hfire.
  - destruct (get _ _ _ _ _) as [[r m1]|] eqn:E; simpl in Hfire; [|done].
    injection Hfire as <-. by apply get_flags in E as (_ & -> & _).
  - destruct (set _ _ _ _ _ _ _ _) as [[r m1]|] eqn:E; simpl in Hfire; [|done].
    injection Hfire as <-. apply set_scheduled in E as [_ Hb].
    by rewrite Hb.
  - injection Hfire as <-. unfold delete, ensureDB; simpl.
    destruct (db m); [|done]. by destruct req.
  - injection Hfire as <-. unfold clear, ensureDB; simpl.
    destruct (db m); [|done]. by destruct req.
  - injection Hfire as <-. unfold updateAccessTime, ensureDB.
    destruct (db m); [|done]. destruct req; [|done]. by destruct (_ !! _).
  - by injection Hfire as <-.
  - destruct (timers m); [done|]. injection Hfire as <-.
    unfold timer_callback, asyncCleanup_enter; simpl. by rewrite Hrun.
  - injection Hfire as <-. unfold cleanup_call. by rewrite Hrun.
  - destruct (pollers m); [done|]. injection Hfire as <-. unfold cleanup_poll.
    by rewrite Hrun.
  - destruct (passes m !! i) as [[|]|]; try done. injection Hfire as <-.
    unfold pass_count. by destruct (cleanup_count count m) as [[|]|].
  - destruct (passes m !! i) as [[|n]|]; try done. injection Hfire as <-.
    unfold pass_scan. simpl.
    pose proof (cleanup_scan_flags n scan m) as (_ & Hb & _). by rewrite Hb.
Qed.

(** The timer callback clears [cleanupScheduled] before it starts a pass. *)
Lemma timer_starts_unscheduled m m' :
  fire estimateSize EvTimer m = Some m' → cleanupScheduled m' = false.
Proof.
  simpl. destruct (timers m); [done|]. intros [= <-].
  unfold timer_callback, asyncCleanup_enter; simpl.
  by destruct (cleanupInProgress m).
Qed.

Lemma completes_pass_clears ev m m' :
  scheduler_inv m → completes_pass ev m → fire estimateSize ev m = Some m' →
  cleanupInProgress m' = false ∧ passes m' = [] ∧
  cleanupScheduled m' = cleanupScheduled m.
Proof.
  intros [Hp _] Hc Hfire.
  assert (∀ i p, passes m !! i = Some p → base.delete i (passes m) = []) as Hdel.
  { intros i p Hi. pose proof (lookup_lt_Some _ _ _ Hi) as Hlt.
    apply length_zero_iff_nil. rewrite length_delete by eauto.
    destruct (cleanupInProgress m); lia. }
  destruct ev; simpl in Hc; try done.
  - destruct Hc as [Hi Hn]. simpl in Hfire. rewrite Hi in Hfire.
    injection Hfire as <-. unfold pass_count.
    destruct (cleanup_count count m) as [[n|]|]; simpl.
    + by destruct (Hn n).
    + by rewrite (Hdel _ _ Hi).
    + by rewrite (Hdel _ _ Hi).
  - destruct Hc as [n Hi]. simpl in Hfire. rewrite Hi in Hfire.
    injection Hfire as <-. unfold pass_scan. simpl.
    pose proof (cleanup_scan_flags n scan m) as (_ & Hb & _ & Hd & _).
    rewrite Hb. split; [done|]. split; [|done]. by eapply Hdel.
Qed.

(** C5, as the code has it.  In every reachable state: [schedule()]
    changes nothing when the scheduler is Scheduled or Running; at most one
    pass is in flight; and the event that ends a pass, whatever the outcome
    of its requests, clears [cleanupInProgress], so the scheduler is no
    longer Running: it is Idle when no timer is armed, Scheduled otherwise.
    A pass started by the timer callback begins with no timer armed, and
    none is armed while it runs, so it ends in Idle. *)
Theorem scheduler_discipline m :
  reachable estimateSize m →
  (scheduler_state m ≠ Idle → _scheduleAsyncCleanup m = m) ∧
  (length (passes m) ≤ 1)%nat ∧
  (∀ ev m', completes_pass ev m → fire estimateSize ev m = Some m' →
     cleanupInProgress m' = false ∧ passes m' = [] ∧
     scheduler_state m' = (if cleanupScheduled m then Scheduled else Idle)) ∧
  (∀ m', fire estimateSize EvTimer m = Some m' → cleanupScheduled m' = false) ∧
  (cleanupInProgress m = true → cleanupScheduled m = false →
   ∀ ev m', fire estimateSize ev m = Some m' → cleanupScheduled m' = false).
Proof.
  intros Hr. pose proof (reachable_inv _ _ Hr) as [_ Hs].
  split; [|split; [|split; [|split]]].
  - unfold scheduler_state, _scheduleAsyncCleanup.
    by destruct (cleanupInProgress m), (cleanupScheduled m).
  - destruct Hs as [-> _]. destruct (cleanupInProgress m); lia.
  - intros ev m' Hc Hfire.
    destruct (completes_pass_clears ev m m' Hs Hc Hfire) as (Hflag & Hp & Hsched).
    split; [done|]. split; [done|]. unfold scheduler_state.
    by rewrite Hflag, Hsched.
  - apply timer_starts_unscheduled.
  - intros Hrun Hsched ev m'. by apply running_keeps_unscheduled.
Qed.

(** C8, as the code has it.  [cleanup()] called while a pass is in
    progress starts no pass: it joins the polling loop and leaves
    everything else as it is.  A wake-up of the loop changes nothing while
    the flag is set; once the flag is clear the call returns, again
    without starting a pass and without touching either tier.  At no time
    are two passes in flight. *)
Theorem manual_cleanup_waits m :
  reachable estimateSize m → cleanupInProgress m = true →
  cleanup_call m = with_pollers (S (pollers m)) m ∧
  fire estimateSize EvCleanupPoll (cleanup_call m) = Some (cleanup_call m) ∧
  (length (passes (cleanup_call m)) ≤ 1)%nat ∧
  ∀ m1 m2, reachable estimateSize m1 → cleanupInProgress m1 = false →
    fire estimateSize EvCleanupPoll m1 = Some m2 →
    m2 = with_pollers (pred (pollers m1)) m1 ∧ (length (passes m2) ≤ 1)%nat.
Proof.
  intros Hr Hflag.
  assert (cleanup_call m = with_pollers (S (pollers m)) m) as Hcall
    by (unfold cleanup_call; by rewrite Hflag).
  split; [done|]. split; [|split].
  - rewrite Hcall. simpl. unfold cleanup_poll. simpl. by rewrite Hflag.
  - rewrite Hcall. simpl. pose proof (reachable_inv _ _ Hr) as [_ [-> _]].
    by rewrite Hflag.
  - intros m1 m2 Hr1 Hflag1. simpl. destruct (pollers m1) eqn:Ep; [done|].
    intros [= <-]. unfold cleanup_poll. rewrite Hflag1, Ep. split; [done|].
    simpl. pose proof (reachable_inv _ _ Hr1) as [_ [-> _]]. rewrite Hflag1. lia.
Qed.

End Scheduler.


Lemma stale_count_running_reachable :
  reachable sample_estimateSize stale_count_running.
Proof.
  apply (reachable_run sample_estimateSize stale_count_trace small_manager).
  - apply reachable_constructor.
  - by_computation.
Qed.

Lemma scheduler_discipline_witness :
  reachable sample_estimateSize stale_count_running ∧
  completes_pass (EvPassScan 0 ScanSuccess) stale_count_running ∧
  fire sample_estimateSize (EvPassScan 0 ScanSuccess) stale_count_running
  = Some (pass_scan 0 1 ScanSuccess stale_count_running) ∧
  cleanupInProgress (pass_scan 0 1 ScanSuccess stale_count_running) = false.
Proof.
  pose proof stale_count_running_reachable as Hr.
  assert (completes_pass (EvPassScan 0 ScanSuccess) stale_count_running) as Hc
    by (exists 1%nat; by_computation).
  assert (fire sample_estimateSize (EvPassScan 0 ScanSuccess) stale_count_running
          = Some (pass_scan 0 1 ScanSuccess stale_count_running)) as Hfire
    by by_computation.
  split; [exact Hr|]. split; [exact Hc|]. split; [exact Hfire|].
  exact (proj1 (proj1 (proj2 (proj2 (scheduler_discipline sample_estimateSize
                                      stale_count_running Hr))) _ _ Hc Hfire)).
Defined.

(** C5, as stated, fails in its last part: a write arms the timer,
    [cleanup()] starts a pass before the timer fires, and when that pass
    ends (one record, nothing to delete) the scheduler is Scheduled, not
    Idle. *)
Lemma manual_pass_ends_scheduled_counterexample :
  reachable sample_estimateSize manual_pass_running ∧
  completes_pass (EvPassCount 0 RequestSuccess) manual_pass_running ∧
  scheduler_state <$>
    fire sample_estimateSize (EvPassCount 0 RequestSuccess) manual_pass_running
  = Some Scheduled ∧
  scheduler_state <$>
    fire sample_estimateSize (EvPassCount 0 RequestSuccess) manual_pass_running
  ≠ Some Idle.
Proof.
  split; [|split; [|split]].
  - apply (reachable_run sample_estimateSize
             [ EvSet "k" (VStr "v") "mermaid" 1 1 PutSuccess; EvCleanupCall ]
             sample_manager).
    + apply reachable_constructor.
    + by_computation.
  - split; [by_computation|]. intros n H. vm_compute in H. discriminate H.
  - by_computation.
  - intros H. vm_compute in H. discriminate H.
Qed.

Lemma manual_cleanup_waits_witness :
  reachable sample_estimateSize stale_count_running ∧
  cleanupInProgress stale_count_running = true ∧
  cleanup_call stale_count_running
  = with_pollers (S (pollers stale_count_running)) stale_count_running.
Proof.
  pose proof stale_count_running_reachable as Hr.
  assert (cleanupInProgress stale_count_running = true) as Hflag
    by by_computation.
  split; [exact Hr|]. split; [exact Hflag|].
  exact (proj1 (manual_cleanup_waits sample_estimateSize stale_count_running
                  Hr Hflag)).
Defined.

(** C8, as stated, fails: [maxItems] is 1 and a pass that counted two
    records is in progress when a third record is written and [cleanup()]
    is called.  The pass deletes one record and ends, the poller wakes up
    and [cleanup()] returns: no pass is in flight, no timer is armed, the
    scheduler is Idle, and L2 still holds two records. *)
Lemma manual_cleanup_skips_trim_counterexample :
  cleanupInProgress stale_count_running = true ∧
  run sample_estimateSize
    [ EvCleanupCall; EvPassScan 0 ScanSuccess; EvCleanupPoll ]
    stale_count_running
  = Some manual_cleanup_returned ∧
  pollers manual_cleanup_returned = 0%nat ∧
  passes manual_cleanup_returned = [] ∧
  timers manual_cleanup_returned = 0%nat ∧
  scheduler_state manual_cleanup_returned = Idle ∧
  maxItems manual_cleanup_returned = 1%nat ∧
  size (store_of manual_cleanup_returned) = 2%nat.
Proof.
  split; [by_computation|]. split; [by_computation|].
  split; [by_computation|]. split; [by_computation|].
  split; [by_computation|]. split; [by_computation|].
  split; by_computation.
Qed.


(** * Further properties *)

(** ** L1 mirrors L2 *)

Lemma addToMemoryCache_entries limit key value metadata now mem mem' k e :
  memory_wf mem →
  _addToMemoryCache limit key value metadata now mem = Some mem' →
  memoryCache mem' !! k = Some e →
  (k = key ∧ e = {| entry_value := value; entry_metadata := metadata;
                    entry_accessTime := now |}) ∨
  (k ≠ key ∧ memoryCache mem !! k = Some e).
Proof.
  intros Hwf Hadd Hlk.
  destruct (addToMemoryCache_spec limit key value metadata now mem Hwf)
    as (mem2 & Hadd2 & _ & _ & _ & Hev).
  rewrite Hadd in Hadd2. injection Hadd2 as <-.
  rewrite Hev in Hlk. case_decide; [done|]. simpl in Hlk.
  rewrite lookup_insert in Hlk. case_decide as Hk.
  - left. split; [done|]. by injection Hlk as <-.
  - right. split; [by intros ->|done].
Qed.

Lemma getFromMemoryCache_entries key now mem k e :
  memoryCache (_getFromMemoryCache key now mem).2 !! k = Some e →
  ∃ e0, memoryCache mem !! k = Some e0 ∧ entry_value e = entry_value e0 ∧
        entry_metadata e = entry_metadata e0.
Proof.
  destruct (memoryCache mem !! key) as [item|] eqn:E.
  - rewrite (getFromMemoryCache_hit _ _ _ _ E). simpl.
    rewrite lookup_insert. case_decide as Hk.
    + subst k. intros [= <-]. by exists item.
    + intros H. by exists e.
  - unfold _getFromMemoryCache. rewrite E. simpl. intros H. by exists e.
Qed.

Lemma removeFromMemoryCache_entries key mem k e :
  memoryCache (_removeFromMemoryCache key mem) !! k = Some e →
  k ≠ key ∧ memoryCache mem !! k = Some e.
Proof.
  rewrite removeFromMemoryCache_lookup. case_decide; [done|]. by intros.
Qed.

Section Coherence.
Variable estimateSize : Value → Z.

Lemma coherent_with_memory mem m :
  coherent m →
  (∀ k e, memoryCache mem !! k = Some e →
     ∃ e0, memoryCache (memory m) !! k = Some e0 ∧
           entry_value e = entry_value e0 ∧ entry_metadata e = entry_metadata e0) →
  coherent (with_memory mem m).
Proof.
  intros Hc Hsub store Hdb k e Hlk. simpl in *.
  destruct (Hsub k e Hlk) as (e0 & Hlk0 & -> & ->). by apply (Hc store Hdb k e0).
Qed.

Lemma get_coherent key now1 now2 read m r m' :
  memory_wf (memory m) → coherent m →
  get key now1 now2 read m = Some (r, m') → coherent m'.
Proof.
  intros Hwf Hc. unfold get.
  pose proof (getFromMemoryCache_wf key now1 _ Hwf) as Hwf1.
  pose proof (getFromMemoryCache_entries key now1 (memory m)) as Hent.
  destruct (_getFromMemoryCache key now1 (memory m)) as [v mem1]. simpl in *.
  assert (coherent (with_memory mem1 m)) as Hc1 by by apply coherent_with_memory.
  destruct (not_null v); [by intros [= <- <-]|].
  unfold ensureDB; simpl. destruct (db m) as [store|e] eqn:Hdb; [|by intros [= <- <-]].
  destruct (read_error read); [by intros [= <- <-]|].
  destruct (store !! key) as [result|] eqn:Hres; [|by intros [= <- <-]].
  destruct (_addToMemoryCache _ _ _ _ _ _) as [mem2|] eqn:Hadd; simpl; [|done].
  intros [= <- <-]. intros store' Hdb' k e Hlk. simpl in *.
  rewrite Hdb in Hdb'. injection Hdb' as <-.
  destruct (addToMemoryCache_entries _ _ _ _ _ _ _ _ _ Hwf1 Hadd Hlk)
    as [[-> ->]|[Hne Hlk1]].
  - exists result. by simpl.
  - apply (Hc1 store); by simpl.
Qed.

Lemma set_coherent key value type now1 now2 put m r m' :
  memory_wf (memory m) → coherent m →
  set estimateSize key value type now1 now2 put m = Some (r, m') → coherent m'.
Proof.
  intros Hwf Hc. unfold set.
  destruct (_addToMemoryCache _ _ _ _ _ _) as [mem1|] eqn:Hadd; simpl; [|done].
  unfold ensureDB; simpl. destruct (db m) as [store|e] eqn:Hdb.
  2:{ intros [= <- <-] store' Hdb'. simpl in Hdb'. by rewrite Hdb in Hdb'. }
  intros Hset.
  assert (∀ m0 mem2, db m0 = db m →
            (∀ k e, memoryCache mem2 !! k = Some e →
                    k ≠ key ∧ memoryCache mem1 !! k = Some e) →
            coherent (with_memory mem2 m0)) as Hrm.
  { intros m0 mem2 Hdb0 Hsub store' Hdb' k e Hlk. simpl in *.
    destruct (Hsub k e Hlk) as [Hne Hlk1].
    destruct (addToMemoryCache_entries _ _ _ _ _ _ _ _ _ Hwf Hadd Hlk1)
      as [[-> _]|[_ Hlk0]]; [done|].
    rewrite Hdb0 in Hdb'. by apply (Hc store' Hdb' k e). }
  destruct put; injection Hset as <- <-.
  - intros store' Hdb' k e Hlk.
    rewrite scheduleAsyncCleanup_db in Hdb'. rewrite scheduleAsyncCleanup_memory in Hlk.
    simpl in *. injection Hdb' as <-.
    destruct (addToMemoryCache_entries _ _ _ _ _ _ _ _ _ Hwf Hadd Hlk)
      as [[-> ->]|[Hne Hlk0]].
    + eexists. rewrite lookup_insert_eq. by split.
    + rewrite lookup_insert_ne by done. by apply (Hc store Hdb k e).
  - apply Hrm; [done|]. intros k e' Hlk.
    apply removeFromMemoryCache_entries in Hlk as [Hne Hlk].
    apply removeFromMemoryCache_entries in Hlk as [_ Hlk].
    apply removeFromMemoryCache_entries in Hlk as [_ Hlk].
    by apply removeFromMemoryCache_entries in Hlk as [_ Hlk].
  - apply Hrm; [by rewrite scheduleAsyncCleanup_db|]. intros k e' Hlk.
    rewrite scheduleAsyncCleanup_memory in Hlk.
    by apply removeFromMemoryCache_entries in Hlk.
  - apply Hrm; [done|]. intros k e' Hlk.
    by apply removeFromMemoryCache_entries in Hlk.
Qed.

Lemma removeAllFromMemoryCache_entries keys mem k e :
  memoryCache (removeAllFromMemoryCache keys mem) !! k = Some e →
  (k ∉ keys.*1) ∧ memoryCache mem !! k = Some e.
Proof. rewrite removeAllFromMemoryCache_lookup. case_decide; [done|]. by intros. Qed.

Lemma coherent_deleted keys m store :
  coherent m → db m = DbOpen store →
  coherent (with_db (DbOpen (deleteAll keys store))
              (with_memory (removeAllFromMemoryCache keys (memory m)) m)).
Proof.
  intros Hc Hdb store' Hdb' k e Hlk. simpl in *. injection Hdb' as <-.
  apply removeAllFromMemoryCache_entries in Hlk as [Hnotin Hlk].
  rewrite deleteAll_lookup. rewrite decide_False by done.
  by apply (Hc store Hdb k e).
Qed.

Lemma cleanup_scan_coherent n scan m :
  coherent m → coherent (cleanup_scan n scan m).2.
Proof.
  intros Hc. unfold cleanup_scan. destruct (db m) as [store|e] eqn:Hdb; [|done].
  assert (∀ keys, coherent (with_memory (removeAllFromMemoryCache keys (memory m)) m))
    as Hrm.
  { intros keys. apply coherent_with_memory; [done|]. intros k e Hlk.
    apply removeAllFromMemoryCache_entries in Hlk as [_ Hlk]. by exists e. }
  destruct scan; try done; destruct (keysToDelete n store) as [|a keys];
    try done; try apply Hrm.
  by apply coherent_deleted.
Qed.

Lemma fire_coherent ev m m' :
  memory_wf (memory m) → coherent m →
  fire estimateSize ev m = Some m' → coherent m'.
Proof.
  intros Hwf Hc. destruct ev; simpl.
  - destruct (get _ _ _ _ _) as [[r m1]|] eqn:E; simpl; [|done].
    intros [= <-]. by eapply get_coherent.
  - destruct (set _ _ _ _ _ _ _ _) as [[r m1]|] eqn:E; simpl; [|done].
    intros [= <-]. by eapply set_coherent.
  - intros [= <-]. unfold delete.
    assert (coherent (with_memory (_removeFromMemoryCache key (memory m)) m)) as Hc1.
    { apply coherent_with_memory; [done|]. intros k e Hlk.
      apply removeFromMemoryCache_entries in Hlk as [_ Hlk]. by exists e. }
    unfold ensureDB; simpl. destruct (db m) as [store|e] eqn:Hdb; [|done].
    destruct req; [|done]. simpl.
    intros store' Hdb' k e Hlk. simpl in *. injection Hdb' as <-.
    apply removeFromMemoryCache_entries in Hlk as [Hne Hlk].
    rewrite lookup_delete_ne by done. by apply (Hc store Hdb k e).
  - intros [= <-]. unfold clear.
    assert (coherent (with_memory (_clearMemoryCache (memory m)) m)) as Hc1.
    { apply coherent_with_memory; [done|]. intros k e Hlk. simpl in Hlk.
      by rewrite lookup_empty in Hlk. }
    unfold ensureDB; simpl. destruct (db m) as [store|e] eqn:Hdb; [|done].
    destruct req; [|done]. simpl.
    intros store' Hdb' k e Hlk. simpl in Hlk. by rewrite lookup_empty in Hlk.
  - intros [= <-]. unfold updateAccessTime, ensureDB.
    destruct (db m) as [store|e] eqn:Hdb; [|done]. destruct req; [|done].
    destruct (store !! key) as [item|] eqn:Hk; [|done]. simpl.
    intros store' Hdb' k e Hlk. simpl in *. injection Hdb' as <-.
    destruct (Hc store Hdb k e Hlk) as (it & Hit & Hv & Ht).
    rewrite lookup_insert. case_decide as Hd.
    + subst k. rewrite Hk in Hit. injection Hit as <-. eexists. by split.
    + by exists it.
  - intros [= <-]. done.
  - destruct (timers m); [done|]. intros [= <-].
    unfold timer_callback, asyncCleanup_enter; simpl.
    by destruct (cleanupInProgress m).
  - intros [= <-]. unfold cleanup_call, asyncCleanup_enter.
    by destruct (cleanupInProgress m).
  - destruct (pollers m); [done|]. intros [= <-]. unfold cleanup_poll.
    by destruct (cleanupInProgress m).
  - destruct (passes m !! i) as [[|]|]; try done. intros [= <-].
    unfold pass_count. by destruct (cleanup_count count m) as [[|]|].
  - destruct (passes m !! i) as [[|n]|]; try done. intros [= <-].
    unfold pass_scan. pose proof (cleanup_scan_coherent n scan m Hc) as Hc'.
    by destruct (cleanup_scan n scan m).
Qed.

Lemma reachable_coherent m :
  reachable estimateSize m → memory_wf (memory m) ∧ coherent m.
Proof.
  induction 1 as [maxItems memoryMaxItems opened|ev m m' Hr [Hwf Hc] Hf].
  - split; [apply memory_wf_empty|]. intros store _ k e Hlk. simpl in Hlk.
    by rewrite lookup_empty in Hlk.
  - split; [|by eapply fire_coherent].
    pose proof (reachable_fire estimateSize ev m m' Hr Hf) as Hr'.
    by apply reachable_inv in Hr' as [[? _] _].
Qed.

(** In a coherent state [get] answers with what L2 holds. *)
Lemma coherent_get key now1 now2 m store :
  memory_wf (memory m) → coherent m → db m = DbOpen store →
  ∃ m', get key now1 now2 ReadSuccess m
        = Some (Fulfilled (stored_value key store), m') ∧ db m' = db m.
Proof.
  intros Hwf Hc Hdb.
  destruct (memoryCache (memory m) !! key) as [entry|] eqn:E.
  - destruct (Hc store Hdb key entry E) as (item & Hit & Hv & _).
    destruct (not_null (entry_value entry)) eqn:Hnn.
    + rewrite (get_memory_hit _ _ _ _ _ _ E Hnn).
      unfold stored_value. rewrite Hit, Hv. by eauto.
    + destruct (get_fallthrough key now1 now2 ReadSuccess m Hwf) as (m' & -> & Hdb').
      { rewrite E. intros ? [= <-]. by destruct (entry_value entry). }
      exists m'. split; [|done].
      unfold persistent_lookup, stored_value. rewrite Hdb. simpl.
      by destruct (store !! key).
  - destruct (get_fallthrough key now1 now2 ReadSuccess m Hwf) as (m' & -> & Hdb').
    { rewrite E. by intros ? [=]. }
    exists m'. split; [|done].
      unfold persistent_lookup, stored_value. rewrite Hdb. simpl.
      by destruct (store !! key).
Qed.

End Coherence.

(** ** Reads, deletions, access times *)

Lemma get_miss key now1 now2 m store :
  memoryCache (memory m) !! key = None → db m = DbOpen store →
  store !! key = None →
  get key now1 now2 ReadSuccess m = Some (Fulfilled VNull, m).
Proof.
  intros Hmiss Hdb Hnone. unfold get, _getFromMemoryCache.
  rewrite Hmiss. simpl. unfold ensureDB; simpl. rewrite Hdb, Hnone.
  by destruct m as [? ? []].
Qed.

(** X4. A successful [delete(key)] removes the key from both tiers and
    nothing else: the other records and entries are as before, the next
    [get(key)] resolves to [null], and deleting a key that is in neither
    tier changes nothing. *)
Theorem delete_removes key m store :
  db m = DbOpen store →
  ∃ m', delete key RequestSuccess m = (Fulfilled (), m') ∧
    stored key m' = None ∧ memoryCache (memory m') !! key = None ∧
    (∀ k, k ≠ key →
       stored k m' = store !! k ∧
       memoryCache (memory m') !! k = memoryCache (memory m) !! k) ∧
    (∀ now1 now2, get key now1 now2 ReadSuccess m' = Some (Fulfilled VNull, m')) ∧
    (store !! key = None → memoryCache (memory m) !! key = None → m' = m).
Proof.
  intros Hdb. unfold delete, ensureDB. simpl. rewrite Hdb.
  eexists. split; [done|]. unfold stored. simpl.
  split; [apply lookup_delete_eq|].
  assert (memoryCache (_removeFromMemoryCache key (memory m)) !! key = None) as Hnone.
  { rewrite removeFromMemoryCache_lookup. by rewrite decide_True. }
  split; [done|]. split; [|split].
  - intros k Hk. split; [by apply lookup_delete_ne|].
    rewrite removeFromMemoryCache_lookup. by rewrite decide_False.
  - intros now1 now2. apply (get_miss _ _ _ _ (base.delete key store)); try done.
    apply lookup_delete_eq.
  - intros Hk Hmem. rewrite (delete_id _ _ Hk).
    unfold _removeFromMemoryCache. rewrite Hmem.
    destruct m as [? ? [] ? ? ? ? ? ?]. simpl in *. by rewrite Hdb.
Qed.

(** X5. After a successful [clear()] both tiers are empty and every
    [get] resolves to [null]. *)
Theorem clear_empties m store :
  db m = DbOpen store →
  ∃ m', clear RequestSuccess m = (Fulfilled (), m') ∧
    db m' = DbOpen ∅ ∧
    memory m' = {| memoryCache := ∅; memoryAccessOrder := [] |} ∧
    ∀ key now1 now2, get key now1 now2 ReadSuccess m' = Some (Fulfilled VNull, m').
Proof.
  intros Hdb. unfold clear, ensureDB. simpl. rewrite Hdb.
  eexists. split; [done|]. split; [done|]. split; [done|].
  intros key now1 now2. by apply (get_miss _ _ _ _ ∅).
Qed.

Section Readers.
Variable estimateSize : Value → Z.



(** X6. A [delete] or [clear] whose IndexedDB request fails rejects with
    that error after it has emptied L1 (of the key, or entirely); L2 is
    untouched, so every [get] still resolves to the stored value. *)
Theorem failed_delete_or_clear_keeps_store e m store :
  reachable estimateSize m → db m = DbOpen store →
  (∀ key, ∃ m1, delete key (RequestError e) m = (Rejected e, m1) ∧
     db m1 = DbOpen store ∧ memoryCache (memory m1) !! key = None ∧
     ∀ k now1 now2, ∃ m2, get k now1 now2 ReadSuccess m1
                          = Some (Fulfilled (stored_value k store), m2)) ∧
  (∃ m1, clear (RequestError e) m = (Rejected e, m1) ∧
     db m1 = DbOpen store ∧ memoryCache (memory m1) = ∅ ∧
     ∀ k now1 now2, ∃ m2, get k now1 now2 ReadSuccess m1
                          = Some (Fulfilled (stored_value k store), m2)).
Proof.
  intros Hr Hdb. split.
  - intros key.
    assert (fire estimateSize (EvDelete key (RequestError e)) m
            = Some (delete key (RequestError e) m).2) as Hf by done.
    pose proof (reachable_fire _ _ _ _ Hr Hf) as [Hwf1 Hc1]%reachable_coherent.
    revert Hwf1 Hc1. unfold delete, ensureDB. simpl. rewrite Hdb. simpl.
    intros Hwf1 Hc1. eexists. split; [done|]. split; [done|].
    split; [simpl; rewrite removeFromMemoryCache_lookup; by rewrite decide_True|].
    intros k now1 now2.
    destruct (coherent_get k now1 now2 (with_memory _ m) store Hwf1 Hc1)
      as (m2 & Hget & _); [done|by eauto].
  - assert (fire estimateSize (EvClear (RequestError e)) m
            = Some (clear (RequestError e) m).2) as Hf by done.
    pose proof (reachable_fire _ _ _ _ Hr Hf) as [Hwf1 Hc1]%reachable_coherent.
    revert Hwf1 Hc1. unfold clear, ensureDB. simpl. rewrite Hdb. simpl.
    intros Hwf1 Hc1. eexists. split; [done|]. split; [done|]. split; [done|].
    intros k now1 now2.
    destruct (coherent_get k now1 now2 (with_memory _ m) store Hwf1 Hc1)
      as (m2 & Hget & _); [done|by eauto].
Qed.

End Readers.

(** X7. [updateAccessTime(key)] never adds or removes a record and never
    changes a value, type, size or creation timestamp; only the
    [accessTime] of [key] can change, and on success it becomes [now].
    L1 and the scheduler are left alone. *)
Theorem updateAccessTime_keeps_contents key now req m store :
  db m = DbOpen store →
  ∃ r store', updateAccessTime key now req m = (r, with_db (DbOpen store') m) ∧
    dom store' = dom store ∧
    (∀ k, stored_value k store' = stored_value k store) ∧
    (∀ k item', store' !! k = Some item' →
       ∃ item, store !! k = Some item ∧
         item_value item' = item_value item ∧ item_type item' = item_type item ∧
         item_size item' = item_size item ∧
         item_timestamp item' = item_timestamp item ∧
         (k ≠ key → item_accessTime item' = item_accessTime item)) ∧
    (req = RequestSuccess → ∀ item, store !! key = Some item →
       store' !! key = Some (touched now item)).
Proof.
  intros Hdb. unfold updateAccessTime, ensureDB. rewrite Hdb.
  assert (with_db (DbOpen store) m = m) as Hsame
    by (destruct m; simpl in *; by rewrite Hdb).
  destruct req as [|e].
  2:{ exists (Rejected e), store. rewrite Hsame. split; [done|]. split; [done|].
      split; [done|]. split; [|done]. intros k item' Hk. by exists item'. }
  destruct (store !! key) as [item|] eqn:Hkey.
  2:{ exists (Fulfilled ()), store. rewrite Hsame. split; [done|]. split; [done|].
      split; [done|]. split; [|by intros _ ? [=]].
      intros k item' Hk. by exists item'. }
  exists (Fulfilled ()), (<[key := touched now item]> store).
  split; [done|]. split; [|split; [|split]].
  - apply dom_insert_lookup_L. by eauto.
  - intros k. unfold stored_value. rewrite lookup_insert.
    case_decide; [|done]. subst k. by rewrite Hkey.
  - intros k item'. rewrite lookup_insert. case_decide as Hd.
    + subst k. intros [= <-]. exists item. by simpl.
    + intros Hk. by exists item'.
  - intros _ item0 [= <-]. apply lookup_insert_eq.
Qed.

(** ** Writes *)

(** The key just added is in L1 with its value when the limit is not 0. *)
Lemma addToMemoryCache_holds_key limit key value metadata now mem :
  memory_wf mem → (0 < limit)%nat →
  ∃ mem', _addToMemoryCache limit key value metadata now mem = Some mem' ∧
    memory_wf mem' ∧
    memoryCache mem' !! key =
      Some {| entry_value := value; entry_metadata := metadata;
              entry_accessTime := now |}.
Proof.
  intros Hwf Hlimit.
  destruct (addToMemoryCache_spec limit key value metadata now mem Hwf)
    as (mem' & Hadd & Hwf' & _ & _ & Hev).
  exists mem'. split; [done|]. split; [done|].
  pose proof (inserted_key_survives limit key
    {| entry_value := value; entry_metadata := metadata; entry_accessTime := now |}
    mem Hwf Hlimit) as Hsurv. cbv zeta in Hsurv.
  rewrite Hev. rewrite decide_False by done. simpl. apply lookup_insert_eq.
Qed.

(** X3. A [get] that misses L1 and finds a non-null value in L2 resolves
    to it and copies it into L1 (when [memoryMaxItems] is not 0): the
    next [get] of the key resolves to the same value whatever happens to
    its L2 read, and leaves L2 alone. *)
Theorem get_populates_memory key now1 now2 now3 now4 m store item :
  memory_wf (memory m) → db m = DbOpen store →
  memoryCache (memory m) !! key = None → store !! key = Some item →
  not_null (item_value item) = true → (0 < memoryMaxItems m)%nat →
  ∃ m1, get key now1 now2 ReadSuccess m = Some (Fulfilled (item_value item), m1) ∧
    db m1 = DbOpen store ∧
    ∀ read, ∃ m2, get key now3 now4 read m1 = Some (Fulfilled (item_value item), m2) ∧
                  db m2 = DbOpen store.
Proof.
  intros Hwf Hdb Hmiss Hitem Hnn Hlimit.
  destruct (addToMemoryCache_holds_key (memoryMaxItems m) key (item_value item)
    {| meta_type := item_type item; originalTimestamp := Some (item_timestamp item) |}
    now2 (memory m) Hwf Hlimit) as (mem1 & Hadd & Hwf1 & Hlk).
  assert (get key now1 now2 ReadSuccess m
          = Some (Fulfilled (item_value item),
                  with_memory mem1 (with_memory (memory m) m))) as Hget.
  { unfold get, _getFromMemoryCache. rewrite Hmiss. simpl.
    unfold ensureDB; simpl. rewrite Hdb. simpl. rewrite Hitem.
    rewrite Hadd. done. }
  eexists. split; [exact Hget|]. split; [done|]. intros read.
  erewrite get_memory_hit; [|exact Hlk|done]. simpl. eexists. by split.
Qed.

Lemma splice_first_snoc key rest :
  key ∉ rest → splice_first key (rest ++ [key]) = rest.
Proof.
  induction rest as [|k rest IH]; simpl; intros Hn.
  - by rewrite decide_True.
  - apply not_elem_of_cons in Hn as [Hne Hn].
    rewrite decide_False by done. by rewrite IH.
Qed.

Section Writes.
Variable estimateSize : Value → Z.

(** X8. The rollback of a failed write is not exact: when L1 is full and
    the key is new, the insert of [set] evicts the oldest entry before
    the write fails, and the rollback removes only the new key.  L1 ends
    without its oldest entry and L2 is unchanged, whether [set] rejects
    (the put request fails, [db.transaction] throws) or has already
    fulfilled (the transaction aborts after the request succeeded). *)
Theorem failed_set_costs_oldest key value type now1 now2 put m store oldest rest :
  memory_wf (memory m) → db m = DbOpen store → put ≠ PutSuccess →
  memoryAccessOrder (memory m) = oldest :: rest →
  length (oldest :: rest) = memoryMaxItems m →
  memoryCache (memory m) !! key = None →
  ∃ m', set estimateSize key value type now1 now2 put m
        = Some (set_result put, m') ∧
    db m' = DbOpen store ∧
    memoryAccessOrder (memory m') = rest ∧
    memoryCache (memory m') = base.delete oldest (memoryCache (memory m)).
Proof.
  intros Hwf Hdb Hput Hord Hfull Hfresh.
  destruct (addToMemoryCache_spec (memoryMaxItems m) key value
    {| meta_type := type; originalTimestamp := None |} now1 (memory m) Hwf)
    as (mem1 & Hadd & Hwf1 & _ & Hord1 & Hlk1).
  pose proof Hwf as [Hnd Hdom]%memory_wf_spec.
  assert (key ∉ memoryAccessOrder (memory m)) as Hnotin.
  { rewrite Hdom, Hfresh. by intros [? ?]. }
  simpl in Hord1, Hlk1. rewrite (splice_first_notin _ _ Hnotin) in Hord1, Hlk1.
  rewrite Hord in Hord1, Hlk1, Hnotin, Hnd. rewrite length_app in Hord1, Hlk1.
  replace (length (oldest :: rest) + length [key] - memoryMaxItems m)%nat
    with 1%nat in Hord1, Hlk1 by (simpl in *; lia).
  cbn [take drop app] in Hord1, Hlk1. rewrite drop_0 in Hord1.
  apply not_elem_of_cons in Hnotin as [Hne Hnotin].
  assert (_removeFromMemoryCache key mem1 =
          {| memoryCache := base.delete oldest (memoryCache (memory m));
             memoryAccessOrder := rest |}) as Hrm.
  { unfold _removeFromMemoryCache. rewrite Hlk1.
    rewrite decide_False by (rewrite list_elem_of_singleton; done).
    rewrite lookup_insert_eq. rewrite Hord1, splice_first_snoc by done.
    f_equal. apply map_eq. intros k. rewrite lookup_delete, Hlk1, lookup_delete.
    rewrite lookup_insert.
    repeat case_decide; subst; try done; set_solver. }
  unfold set. rewrite Hadd. simpl. unfold ensureDB; simpl. rewrite Hdb.
  rewrite scheduleAsyncCleanup_memory. simpl.
  rewrite !removeFromMemoryCache_idem, Hrm.
  destruct put; try done; eexists; (split; [done|]);
    simpl; rewrite ?scheduleAsyncCleanup_db; by simpl.
Qed.

(** X9. When the database failed to open, [set(k, v)] rejects with the
    open error but its L1 entry stays ([ensureDB] is awaited outside the
    [try]): for a non-null [v] and [memoryMaxItems] not 0 the next
    [get(k)] resolves to [v]. *)
Theorem unavailable_set_stays_in_memory
    key value type now1 now2 put now3 now4 m e :
  memory_wf (memory m) → db m = DbFailed e →
  not_null value = true → (0 < memoryMaxItems m)%nat →
  ∃ m', set estimateSize key value type now1 now2 put m = Some (Rejected e, m') ∧
    ∀ read, ∃ m'', get key now3 now4 read m' = Some (Fulfilled value, m'').
Proof.
  intros Hwf Hdb Hnn Hlimit.
  destruct (addToMemoryCache_holds_key (memoryMaxItems m) key value
    {| meta_type := type; originalTimestamp := None |} now1 (memory m) Hwf Hlimit)
    as (mem1 & Hadd & Hwf1 & Hlk).
  unfold set. rewrite Hadd. simpl. unfold ensureDB; simpl. rewrite Hdb.
  eexists. split; [done|]. intros read.
  erewrite get_memory_hit; [|exact Hlk|done]. simpl. by eauto.
Qed.

(** X10. At most one cleanup timer is armed at any time.  A successful
    [set] on an idle scheduler arms it and leaves the scheduler
    Scheduled; on a scheduler that is Scheduled or Running it arms
    nothing and leaves the state as it is.  In both cases a pass is
    pending or running after the write. *)
Theorem writes_arm_one_timer key value type now1 now2 m m' :
  reachable estimateSize m →
  set estimateSize key value type now1 now2 PutSuccess m = Some (Fulfilled (), m') →
  (timers m ≤ 1)%nat ∧ (timers m' ≤ 1)%nat ∧
  scheduler_state m' ≠ Idle ∧
  (scheduler_state m = Idle → scheduler_state m' = Scheduled ∧ timers m' = 1%nat) ∧
  (scheduler_state m ≠ Idle →
     timers m' = timers m ∧ scheduler_state m' = scheduler_state m).
Proof.
  intros Hr Hset.
  pose proof (reachable_inv _ _ Hr) as [_ [_ Ht]].
  assert (fire estimateSize (EvSet key value type now1 now2 PutSuccess) m = Some m')
    as Hf by (simpl; by rewrite Hset).
  pose proof (reachable_inv _ _ (reachable_fire _ _ _ _ Hr Hf)) as [_ [_ Ht']].
  split; [destruct (cleanupScheduled m); lia|].
  split; [destruct (cleanupScheduled m'); lia|].
  revert Hset Ht'. unfold set.
  destruct (_addToMemoryCache _ _ _ _ _ _) as [mem1|]; simpl; [|done].
  unfold ensureDB; simpl. destruct (db m); [|done]. intros [= <-].
  unfold scheduler_state, _scheduleAsyncCleanup. simpl.
  destruct (cleanupScheduled m) eqn:Es, (cleanupInProgress m) eqn:Ei; simpl;
    rewrite ?Es, ?Ei; simpl; intros Ht'; repeat split; try done; try lia;
    intros; done.
Qed.

End Writes.

(** ** More on the cleanup pass *)

(** The state a successful pass leaves. *)
Lemma asyncCleanup_success m store :
  db m = DbOpen store → cleanupInProgress m = false →
  _asyncCleanup RequestSuccess ScanSuccess m =
  (Fulfilled (),
   if decide (size store ≤ maxItems m)%nat then m
   else
     let keys := keysToDelete (size store - maxItems m) store in
     with_db (DbOpen (deleteAll keys store))
       (with_memory (removeAllFromMemoryCache keys (memory m)) m)).
Proof.
  intros Hdb Hflag. unfold _asyncCleanup. rewrite Hflag.
  unfold cleanup_count, ensureDB. simpl. rewrite Hdb.
  case_decide as Hle.
  - f_equal. by apply with_cleanupInProgress_restore.
  - rewrite (cleanup_scan_success _ _ store); [|done|].
    + f_equal. cbv zeta. destruct m; simpl in *. by rewrite Hflag.
    + intros Hnil. pose proof (f_equal length Hnil) as Hlen.
      rewrite keysToDelete_take, length_take, index_scan_length in Hlen.
      simpl in Hlen. lia.
Qed.

Lemma keysToDelete_facts n store :
  (n ≤ size store)%nat →
  length (keysToDelete n store) = n ∧ NoDup (keysToDelete n store).*1 ∧
  ∀ k, k ∈ (keysToDelete n store).*1 → is_Some (store !! k).
Proof.
  intros Hn. rewrite keysToDelete_take. split; [|split].
  - rewrite length_take, index_scan_length. lia.
  - rewrite fmap_take. eapply sublist_NoDup; [apply index_scan_NoDup|].
    apply sublist_take.
  - apply take_scan_present.
Qed.

(** A record accessed strictly later than every other one is not among
    the keys a trim deletes, as long as the trim leaves a record. *)
Lemma newest_not_doomed n store key item :
  (n < size store)%nat → store !! key = Some item →
  (∀ k it, k ≠ key → store !! k = Some it →
     item_accessTime it < item_accessTime item) →
  key ∉ (keysToDelete n store).*1.
Proof.
  intros Hn Hitem Hnewest.
  rewrite keysToDelete_take. intros ([k t] & Hk & Hin)%list_elem_of_fmap.
  simpl in Hk. subst k.
  pose proof (index_scan_sorted store) as Hsorted.
  pose proof (index_scan_NoDup store) as Hnd.
  rewrite <- (take_drop n (index_scan store)) in Hsorted, Hnd.
  apply StronglySorted_app in Hsorted as (Hcross & _ & _).
  rewrite fmap_app in Hnd. apply NoDup_app in Hnd as (_ & Hdisj & _).
  destruct (drop n (index_scan store)) as [|[k' t'] tail] eqn:Hdrop.
  { apply (f_equal length) in Hdrop.
    rewrite length_drop, index_scan_length in Hdrop. simpl in Hdrop. lia. }
  assert ((k', t') ∈ index_scan store) as Hin'.
  { rewrite <- (take_drop n (index_scan store)), Hdrop. set_solver. }
  apply elem_of_index_scan in Hin' as (it' & Hit' & ->).
  assert ((key, t) ∈ index_scan store) as Hin0 by by eapply subseteq_take.
  apply elem_of_index_scan in Hin0 as (it0 & Hit0 & ->).
  rewrite Hitem in Hit0. injection Hit0 as <-.
  assert (k' ≠ key) as Hne.
  { intros ->. apply (Hdisj key); [|set_solver].
    apply list_elem_of_fmap. by exists (key, item_accessTime item). }
  pose proof (Hnewest k' it' Hne Hit') as Hlt.
  assert (older (key, item_accessTime item) (k', item_accessTime it')) as Hold
    by (apply Hcross; [done|set_solver]).
  unfold older in Hold. simpl in Hold. lia.
Qed.

(** X11. A successful pass never deletes the record that was accessed
    last (strictly later than every other record), from L2 or from L1,
    as long as [maxItems] is not 0. *)
Theorem newest_record_survives m store key item :
  db m = DbOpen store → cleanupInProgress m = false → (0 < maxItems m)%nat →
  store !! key = Some item →
  (∀ k it, k ≠ key → store !! k = Some it →
     item_accessTime it < item_accessTime item) →
  stored key (_asyncCleanup RequestSuccess ScanSuccess m).2 = Some item ∧
  memoryCache (memory (_asyncCleanup RequestSuccess ScanSuccess m).2) !! key
  = memoryCache (memory m) !! key.
Proof.
  intros Hdb Hflag Hmax Hitem Hnewest.
  rewrite (asyncCleanup_success m store Hdb Hflag). simpl.
  case_decide as Hle; [unfold stored; by rewrite Hdb|].
  set (n := (size store - maxItems m)%nat).
  assert (key ∉ (keysToDelete n store).*1) as Hnotin
    by (apply (newest_not_doomed n store key item); [lia|done|done]).
  unfold stored. simpl.
  rewrite deleteAll_lookup, removeAllFromMemoryCache_lookup.
  by rewrite !decide_False by done.
Qed.

Lemma asyncCleanup_size m store :
  db m = DbOpen store → cleanupInProgress m = false →
  size (store_of (_asyncCleanup RequestSuccess ScanSuccess m).2)
  = Nat.min (size store) (maxItems m).
Proof.
  intros Hdb Hflag. rewrite (asyncCleanup_success m store Hdb Hflag). simpl.
  case_decide as Hle.
  - unfold store_of. rewrite Hdb. lia.
  - destruct (keysToDelete_facts (size store - maxItems m) store)
      as (Hlen & Hnd & Hin); [lia|].
    unfold store_of. simpl. rewrite deleteAll_size by done. rewrite Hlen. lia.
Qed.

(** X12. A successful pass leaves [min(count, maxItems)] records in L2,
    and a second pass right after it changes nothing. *)
Theorem asyncCleanup_settles m store :
  db m = DbOpen store → cleanupInProgress m = false →
  ∃ m1, _asyncCleanup RequestSuccess ScanSuccess m = (Fulfilled (), m1) ∧
    size (store_of m1) = Nat.min (size store) (maxItems m) ∧
    _asyncCleanup RequestSuccess ScanSuccess m1 = (Fulfilled (), m1).
Proof.
  intros Hdb Hflag. rewrite (asyncCleanup_success m store Hdb Hflag).
  eexists. split; [done|].
  case_decide as Hle.
  - unfold store_of. rewrite Hdb. split; [lia|].
    rewrite (asyncCleanup_success m store Hdb Hflag).
    by rewrite decide_True by done.
  - cbv zeta. set (keys := keysToDelete _ store).
    destruct (keysToDelete_facts (size store - maxItems m) store) as (Hlen & Hnd & Hin);
      [lia|]. fold keys in Hlen, Hnd, Hin.
    assert (size (deleteAll keys store) = maxItems m) as Hsize.
    { rewrite deleteAll_size by done. rewrite Hlen. lia. }
    unfold store_of. simpl. split; [lia|].
    rewrite (asyncCleanup_success _ (deleteAll keys store)); [|done|done].
    simpl. by rewrite decide_True by lia.
Qed.

(** X13. [cleanupIfNeeded()], run alone with successful requests, ends in
    the state a pass would leave: L2 is within [maxItems] afterwards, and
    when it already was the manager is untouched. *)
Theorem cleanupIfNeeded_trims m store :
  db m = DbOpen store → cleanupInProgress m = false →
  cleanupIfNeeded RequestSuccess RequestSuccess ScanSuccess m
  = Some (_asyncCleanup RequestSuccess ScanSuccess m) ∧
  (size (store_of (_asyncCleanup RequestSuccess ScanSuccess m).2) ≤ maxItems m)%nat ∧
  ((size store ≤ maxItems m)%nat →
   cleanupIfNeeded RequestSuccess RequestSuccess ScanSuccess m
   = Some (Fulfilled (), m)).
Proof.
  intros Hdb Hflag. unfold cleanupIfNeeded, _checkIfCleanupNeeded, ensureDB, cleanup.
  rewrite Hdb, Hflag.
  rewrite (asyncCleanup_size m store Hdb Hflag).
  rewrite (asyncCleanup_success m store Hdb Hflag).
  case_bool_decide as Hlt.
  - split; [done|]. split; lia.
  - rewrite decide_True by lia. split; [done|]. split; [lia|done].
Qed.


(** ** The further properties on the sample runs *)

Lemma sample_state_reachable : reachable sample_estimateSize sample_state.
Proof.
  apply (reachable_run sample_estimateSize sample_trace sample_manager).
  - apply reachable_constructor.
  - by_computation.
Qed.



Lemma get_populates_memory_witness :
  memory_wf (memory sample_state) ∧
  db sample_state = DbOpen (store_of sample_state) ∧
  memoryCache (memory sample_state) !! "B" = None ∧
  store_of sample_state !! "B" = Some sample_item_B ∧
  not_null (item_value sample_item_B) = true ∧
  (0 < memoryMaxItems sample_state)%nat ∧
  ∃ m1, get "B" 5 5 ReadSuccess sample_state
        = Some (Fulfilled (item_value sample_item_B), m1) ∧
    db m1 = DbOpen (store_of sample_state) ∧
    ∀ read, ∃ m2, get "B" 6 6 read m1
                  = Some (Fulfilled (item_value sample_item_B), m2) ∧
                  db m2 = DbOpen (store_of sample_state).
Proof.
  assert (memory_wf (memory sample_state)) as Hwf by wf_by_computation.
  assert (db sample_state = DbOpen (store_of sample_state)) as Hdb
    by by_computation.
  assert (memoryCache (memory sample_state) !! "B" = None) as Hmiss
    by by_computation.
  assert (store_of sample_state !! "B" = Some sample_item_B) as Hitem
    by by_computation.
  assert (not_null (item_value sample_item_B) = true) as Hnn by reflexivity.
  assert (0 < memoryMaxItems sample_state)%nat as Hlimit by (vm_compute; lia).
  split; [exact Hwf|]. split; [exact Hdb|]. split; [exact Hmiss|].
  split; [exact Hitem|]. split; [exact Hnn|]. split; [exact Hlimit|].
  exact (get_populates_memory "B" 5 5 6 6 sample_state (store_of sample_state)
           sample_item_B Hwf Hdb Hmiss Hitem Hnn Hlimit).
Defined.

Lemma delete_removes_witness :
  db sample_state = DbOpen (store_of sample_state) ∧
  ∃ m', delete "C" RequestSuccess sample_state = (Fulfilled (), m') ∧
        stored "C" m' = None ∧ memoryCache (memory m') !! "C" = None.
Proof.
  assert (db sample_state = DbOpen (store_of sample_state)) as Hdb
    by by_computation.
  split; [exact Hdb|].
  destruct (delete_removes "C" sample_state (store_of sample_state) Hdb)
    as (m' & Hdel & Hl2 & Hl1 & _).
  exists m'. split; [exact Hdel|]. split; [exact Hl2 | exact Hl1].
Defined.

Lemma clear_empties_witness :
  db sample_state = DbOpen (store_of sample_state) ∧
  ∃ m', clear RequestSuccess sample_state = (Fulfilled (), m') ∧
        db m' = DbOpen ∅.
Proof.
  assert (db sample_state = DbOpen (store_of sample_state)) as Hdb
    by by_computation.
  split; [exact Hdb|].
  destruct (clear_empties sample_state (store_of sample_state) Hdb)
    as (m' & Hclear & Hempty & _).
  exists m'. split; [exact Hclear | exact Hempty].
Defined.

Lemma failed_delete_or_clear_keeps_store_witness :
  reachable sample_estimateSize sample_state ∧
  db sample_state = DbOpen (store_of sample_state) ∧
  ∃ m1, clear (RequestError quota_error) sample_state = (Rejected quota_error, m1) ∧
        db m1 = DbOpen (store_of sample_state).
Proof.
  pose proof sample_state_reachable as Hr.
  assert (db sample_state = DbOpen (store_of sample_state)) as Hdb
    by by_computation.
  split; [exact Hr|]. split; [exact Hdb|].
  destruct (proj2 (failed_delete_or_clear_keeps_store sample_estimateSize
                     quota_error sample_state (store_of sample_state) Hr Hdb))
    as (m1 & Hclear & Hdb1 & _).
  exists m1. split; [exact Hclear | exact Hdb1].
Defined.

Lemma updateAccessTime_keeps_contents_witness :
  db sample_state = DbOpen (store_of sample_state) ∧
  ∃ r store', updateAccessTime "B" 9 RequestSuccess sample_state
              = (r, with_db (DbOpen store') sample_state) ∧
              dom store' = dom (store_of sample_state).
Proof.
  assert (db sample_state = DbOpen (store_of sample_state)) as Hdb
    by by_computation.
  split; [exact Hdb|].
  destruct (updateAccessTime_keeps_contents "B" 9 RequestSuccess sample_state
              (store_of sample_state) Hdb) as (r & store' & Hupd & Hdom & _).
  exists r, store'. split; [exact Hupd | exact Hdom].
Defined.

Lemma failed_set_costs_oldest_witness :
  memory_wf (memory sample_state) ∧
  db sample_state = DbOpen (store_of sample_state) ∧
  PutRequestError quota_error ≠ PutSuccess ∧
  memoryAccessOrder (memory sample_state) = ["C"; "D"] ∧
  length ["C"; "D"] = memoryMaxItems sample_state ∧
  memoryCache (memory sample_state) !! "E" = None ∧
  ∃ m', set sample_estimateSize "E" (VStr "e") "mermaid" 5 5
          (PutRequestError quota_error) sample_state
        = Some (set_result (PutRequestError quota_error), m') ∧
        memoryAccessOrder (memory m') = ["D"].
Proof.
  assert (memory_wf (memory sample_state)) as Hwf by wf_by_computation.
  assert (db sample_state = DbOpen (store_of sample_state)) as Hdb
    by by_computation.
  assert (PutRequestError quota_error ≠ PutSuccess) as Hput by discriminate.
  assert (memoryAccessOrder (memory sample_state) = ["C"; "D"]) as Hord
    by by_computation.
  assert (length ["C"; "D"] = memoryMaxItems sample_state) as Hfull
    by by_computation.
  assert (memoryCache (memory sample_state) !! "E" = None) as Hfresh
    by by_computation.
  split; [exact Hwf|]. split; [exact Hdb|]. split; [exact Hput|].
  split; [exact Hord|]. split; [exact Hfull|]. split; [exact Hfresh|].
  destruct (failed_set_costs_oldest sample_estimateSize "E" (VStr "e") "mermaid"
              5 5 (PutRequestError quota_error) sample_state
              (store_of sample_state) "C" ["D"] Hwf Hdb Hput Hord Hfull Hfresh)
    as (m' & Hset & _ & Hrest & _).
  exists m'. split; [exact Hset | exact Hrest].
Defined.

Lemma unavailable_set_stays_in_memory_witness :
  memory_wf (memory unavailable_manager) ∧
  db unavailable_manager = DbFailed open_error ∧
  not_null (VStr "v") = true ∧
  (0 < memoryMaxItems unavailable_manager)%nat ∧
  ∃ m', set sample_estimateSize "k" (VStr "v") "mermaid" 1 1 PutSuccess
          unavailable_manager = Some (Rejected open_error, m') ∧
    ∀ read, ∃ m'', get "k" 2 2 read m' = Some (Fulfilled (VStr "v"), m'').
Proof.
  assert (memory_wf (memory unavailable_manager)) as Hwf by wf_by_computation.
  assert (db unavailable_manager = DbFailed open_error) as Hdb by reflexivity.
  assert (not_null (VStr "v") = true) as Hnn by reflexivity.
  assert (0 < memoryMaxItems unavailable_manager)%nat as Hlimit
    by (vm_compute; lia).
  split; [exact Hwf|]. split; [exact Hdb|]. split; [exact Hnn|].
  split; [exact Hlimit|].
  exact (unavailable_set_stays_in_memory sample_estimateSize "k" (VStr "v")
           "mermaid" 1 1 PutSuccess 2 2 unavailable_manager open_error
           Hwf Hdb Hnn Hlimit).
Defined.

Lemma writes_arm_one_timer_witness :
  reachable sample_estimateSize sample_state ∧
  set sample_estimateSize "E" (VStr "e") "mermaid" 5 5 PutSuccess sample_state
  = Some (Fulfilled (),
          state_after sample_state
            (set sample_estimateSize "E" (VStr "e") "mermaid" 5 5 PutSuccess
               sample_state)) ∧
  (timers (state_after sample_state
             (set sample_estimateSize "E" (VStr "e") "mermaid" 5 5 PutSuccess
                sample_state)) ≤ 1)%nat.
Proof.
  pose proof sample_state_reachable as Hr.
  assert (set sample_estimateSize "E" (VStr "e") "mermaid" 5 5 PutSuccess
            sample_state
          = Some (Fulfilled (),
                  state_after sample_state
                    (set sample_estimateSize "E" (VStr "e") "mermaid" 5 5
                       PutSuccess sample_state))) as Hset
    by by_computation.
  split; [exact Hr|]. split; [exact Hset|].
  exact (proj1 (proj2 (writes_arm_one_timer sample_estimateSize "E" (VStr "e")
                         "mermaid" 5 5 sample_state _ Hr Hset))).
Defined.

Lemma sample_overfull_newest k it :
  k ≠ "D" → store_of sample_overfull !! k = Some it →
  item_accessTime it < item_accessTime sample_item_D.
Proof.
  intros Hne Hlk.
  assert (map_Forall (λ k it, k ≠ "D" → item_accessTime it
                                         < item_accessTime sample_item_D)
            (store_of sample_overfull)) as Hall.
  { refine (bool_decide_unpack _ _). vm_compute. exact I. }
  by apply (Hall k it Hlk).
Qed.

Lemma newest_record_survives_witness :
  db sample_overfull = DbOpen (store_of sample_overfull) ∧
  cleanupInProgress sample_overfull = false ∧
  (0 < maxItems sample_overfull)%nat ∧
  store_of sample_overfull !! "D" = Some sample_item_D ∧
  stored "D" (_asyncCleanup RequestSuccess ScanSuccess sample_overfull).2
  = Some sample_item_D.
Proof.
  assert (db sample_overfull = DbOpen (store_of sample_overfull)) as Hdb
    by by_computation.
  assert (cleanupInProgress sample_overfull = false) as Hflag by by_computation.
  assert (0 < maxItems sample_overfull)%nat as Hmax by (vm_compute; lia).
  assert (store_of sample_overfull !! "D" = Some sample_item_D) as Hitem
    by by_computation.
  split; [exact Hdb|]. split; [exact Hflag|]. split; [exact Hmax|].
  split; [exact Hitem|].
  exact (proj1 (newest_record_survives sample_overfull (store_of sample_overfull)
                  "D" sample_item_D Hdb Hflag Hmax Hitem sample_overfull_newest)).
Defined.

Lemma asyncCleanup_settles_witness :
  db sample_overfull = DbOpen (store_of sample_overfull) ∧
  cleanupInProgress sample_overfull = false ∧
  ∃ m1, _asyncCleanup RequestSuccess ScanSuccess sample_overfull
        = (Fulfilled (), m1) ∧
        _asyncCleanup RequestSuccess ScanSuccess m1 = (Fulfilled (), m1).
Proof.
  assert (db sample_overfull = DbOpen (store_of sample_overfull)) as Hdb
    by by_computation.
  assert (cleanupInProgress sample_overfull = false) as Hflag by by_computation.
  split; [exact Hdb|]. split; [exact Hflag|].
  destruct (asyncCleanup_settles sample_overfull (store_of sample_overfull)
              Hdb Hflag) as (m1 & Hrun & _ & Hagain).
  exists m1. split; [exact Hrun | exact Hagain].
Defined.

Lemma cleanupIfNeeded_trims_witness :
  db sample_overfull = DbOpen (store_of sample_overfull) ∧
  cleanupInProgress sample_overfull = false ∧
  cleanupIfNeeded RequestSuccess RequestSuccess ScanSuccess sample_overfull
  = Some (_asyncCleanup RequestSuccess ScanSuccess sample_overfull).
Proof.
  assert (db sample_overfull = DbOpen (store_of sample_overfull)) as Hdb
    by by_computation.
  assert (cleanupInProgress sample_overfull = false) as Hflag by by_computation.
  split; [exact Hdb|]. split; [exact Hflag|].
  exact (proj1 (cleanupIfNeeded_trims sample_overfull (store_of sample_overfull)
                  Hdb Hflag)).
Defined.

(** ** Cache keys *)

Lemma hex_byte_shape b :
  ∃ hi lo, padStart 2 "0" (toString16 b) = String hi (String lo EmptyString) ∧
    hi ≠ "_"%char ∧ lo ≠ "_"%char ∧
    Byte.of_N (16 * digit_value hi + digit_value lo) = Some b.
Proof. destruct b; do 2 eexists; repeat split; by vm_compute. Qed.

Lemma string_app_cons c s t : (String c s ++ t)%string = String c (s ++ t)%string.
Proof. done. Qed.

Lemma hex_prefix_inj (d1 d2 : list byte) (t1 t2 : string) :
  (join ((λ b, padStart 2 "0" (toString16 b)) <$> d1) ++ "_" ++ t1)%string
  = (join ((λ b, padStart 2 "0" (toString16 b)) <$> d2) ++ "_" ++ t2)%string →
  d1 = d2 ∧ t1 = t2.
Proof.
  revert d2. induction d1 as [|b1 d1 IH]; intros [|b2 d2]; cbn [fmap list_fmap join].
  - intros H. split; [done|]. by injection H.
  - destruct (hex_byte_shape b2) as (hi & lo & -> & Hhi & _).
    intros H. by injection H as H _.
  - destruct (hex_byte_shape b1) as (hi & lo & -> & Hhi & _).
    intros H. by injection H as H _.
  - destruct (hex_byte_shape b1) as (hi1 & lo1 & -> & _ & _ & Hb1).
    destruct (hex_byte_shape b2) as (hi2 & lo2 & -> & _ & _ & Hb2).
    intros H. injection H as -> -> Hrest.
    apply IH in Hrest as [-> ->].
    split; [|done]. f_equal. congruence.
Qed.

(** X16. Two cache keys are equal exactly when the digests of the hashed
    strings are equal and the types are the same: the hexadecimal
    encoding of the digest loses nothing, and the type suffix cannot be
    taken for a part of the hash. *)
Theorem generateKey_separates digest content1 type1 theme1 content2 type2 theme2 :
  generateKey digest content1 type1 theme1 = generateKey digest content2 type2 theme2
  ↔ digest (keyContent content1 theme1) = digest (keyContent content2 theme2)
    ∧ type1 = type2.
Proof.
  unfold generateKey, calculateHash. split.
  - intros [Hd Ht]%hex_prefix_inj. done.
  - by intros [-> ->].
Qed.

(** ** Statistics *)

#[local] Instance newer_trans : Transitive newer.
Proof. unfold newer. intros a b c. lia. Qed.

Lemma recent_insert_Permutation a items : recent_insert a items ≡ₚ a :: items.
Proof.
  induction items as [|b rest IH]; simpl; [done|].
  case_decide; [done|]. rewrite IH. apply perm_swap.
Qed.

Lemma recent_sort_Permutation items : recent_sort items ≡ₚ items.
Proof.
  induction items as [|a rest IH]; simpl; [done|].
  by rewrite recent_insert_Permutation, IH.
Qed.

Lemma recent_insert_sorted a items :
  Sorted newer items → Sorted newer (recent_insert a items).
Proof.
  induction 1 as [|b rest Hs IH Hhd]; simpl; [by repeat constructor|].
  case_decide as Hd.
  - constructor; [by constructor|]. constructor. unfold newer. lia.
  - constructor; [done|].
    destruct Hhd as [|c rest Hbc]; simpl.
    + constructor. unfold newer. lia.
    + case_decide; constructor; [unfold newer; lia|done].
Qed.

Lemma recent_sort_sorted items : StronglySorted newer (recent_sort items).
Proof.
  apply Sorted_StronglySorted; [apply _|].
  induction items as [|a rest IH]; simpl; [constructor|].
  by apply recent_insert_sorted.
Qed.

Lemma getAll_Permutation store : getAll store ≡ₚ map_to_list store.
Proof. apply merge_sort_Permutation. Qed.

Lemma elem_of_recent_sort_getAll store k item :
  (k, item) ∈ recent_sort (getAll store) ↔ store !! k = Some item.
Proof.
  rewrite recent_sort_Permutation, getAll_Permutation.
  apply elem_of_map_to_list.
Qed.

Lemma foldl_add_Permutation {A} (f : A → Z) (l1 l2 : list A) (z : Z) :
  l1 ≡ₚ l2 → foldl (λ sum x, sum + f x) z l1 = foldl (λ sum x, sum + f x) z l2.
Proof.
  intros Hp. revert z. induction Hp as [|x l1 l2 Hp IH|x y l|l1 l2 l3 _ IH1 _ IH2];
    intros z; simpl.
  - done.
  - apply IH.
  - f_equal. lia.
  - by rewrite IH1.
Qed.

(** X14. With the database open and the [getAll] request succeeding,
    [getStats()] resolves: [itemCount] and [combined.totalItems] are the
    number of records in L2 and [totalSize] the sum of their sizes;
    [items] has at most 20 lines, most recently accessed first, each for
    a record of the store, and no record left out was accessed later
    than a listed one. *)
Theorem getStats_lists_most_recent estimateSize m store :
  db m = DbOpen store →
  ∃ stats, getStats estimateSize RequestSuccess m = Fulfilled stats ∧
    indexedDB_itemCount stats = size store ∧
    combined_totalItems stats = size store ∧
    indexedDB_totalSize stats = totalSize (map_to_list store) ∧
    indexedDB_items stats = stats_line (memory m) <$> listed store ∧
    length (indexedDB_items stats) = Nat.min (size store) 20 ∧
    StronglySorted (λ a b, stat_lastAccess b ≤ stat_lastAccess a)
      (indexedDB_items stats) ∧
    (∀ k item, (k, item) ∈ listed store → store !! k = Some item) ∧
    (∀ k item, store !! k = Some item →
       (k, item) ∈ listed store ∨
       ∀ line, line ∈ indexedDB_items stats →
               item_accessTime item ≤ stat_lastAccess line).
Proof.
  intros Hdb. unfold getStats, ensureDB. rewrite Hdb.
  eexists. split; [done|]. simpl.
  assert (length (getAll store) = size store) as Hlen.
  { rewrite getAll_Permutation. apply length_map_to_list. }
  pose proof (recent_sort_sorted (getAll store)) as Hsorted.
  split; [done|]. split; [done|].
  split; [apply foldl_add_Permutation, getAll_Permutation|].
  split; [done|]. split; [|split; [|split]].
  - unfold listed. rewrite length_fmap, length_take.
    rewrite recent_sort_Permutation, Hlen. lia.
  - unfold listed.
    rewrite <- (take_drop 20 (recent_sort (getAll store))) in Hsorted.
    apply StronglySorted_app in Hsorted as (_ & Hs & _).
    induction Hs as [|a l Hs IH Hall]; simpl; constructor; [done|].
    apply Forall_fmap. eapply Forall_impl; [exact Hall|]. by intros b Hb.
  - intros k item Hin%subseteq_take. by apply elem_of_recent_sort_getAll.
  - intros k item Hk. apply elem_of_recent_sort_getAll in Hk.
    rewrite <- (take_drop 20 (recent_sort (getAll store))) in Hk, Hsorted.
    apply elem_of_app in Hk as [Hk|Hk]; [by left|right].
    apply StronglySorted_app in Hsorted as (Hcross & _ & _).
    intros line ([k' item'] & -> & Hin)%list_elem_of_fmap. simpl.
    apply (Hcross (k', item') (k, item) Hin Hk).
Qed.



Lemma getStats_lists_most_recent_witness :
  db sample_state = DbOpen (store_of sample_state) ∧
  ∃ stats, getStats sample_estimateSize RequestSuccess sample_state = Fulfilled stats ∧
    indexedDB_itemCount stats = size (store_of sample_state) ∧
    combined_totalItems stats = size (store_of sample_state) ∧
    indexedDB_totalSize stats = totalSize (map_to_list (store_of sample_state)) ∧
    indexedDB_items stats
      = stats_line (memory sample_state) <$> listed (store_of sample_state) ∧
    length (indexedDB_items stats) = Nat.min (size (store_of sample_state)) 20 ∧
    StronglySorted (λ a b, stat_lastAccess b ≤ stat_lastAccess a)
      (indexedDB_items stats) ∧
    (∀ k item, (k, item) ∈ listed (store_of sample_state) →
               store_of sample_state !! k = Some item) ∧
    (∀ k item, store_of sample_state !! k = Some item →
       (k, item) ∈ listed (store_of sample_state) ∨
       ∀ line, line ∈ indexedDB_items stats →
               item_accessTime item ≤ stat_lastAccess line).
Proof.
  assert (db sample_state = DbOpen (store_of sample_state)) as Hdb
    by by_computation.
  split; [exact Hdb|].
  exact (getStats_lists_most_recent sample_estimateSize sample_state
           (store_of sample_state) Hdb).
Defined.


(** ** The renderer over the proxy *)

Lemma with_memory_id m : with_memory (memory m) m = m.
Proof. by destruct m. Qed.






Lemma set_total estimateSize key value type now1 now2 put m :
  memory_wf (memory m) →
  ∃ r m', set estimateSize key value type now1 now2 put m = Some (r, m') ∧
    memory_wf (memory m') ∧ memoryMaxItems m' = memoryMaxItems m.
Proof.
  intros Hwf. unfold set.
  destruct (addToMemoryCache_wf (memoryMaxItems m) key value
    {| meta_type := type; originalTimestamp := None |} now1 (memory m) Hwf)
    as (mem1 & -> & Hwf1 & _).
  simpl. unfold ensureDB; simpl. destruct (db m) as [store|e]; [|by eauto].
  destruct put; eexists _, _; (split; [done|]);
    rewrite ?scheduleAsyncCleanup_memory, ?scheduleAsyncCleanup_memoryMaxItems;
    simpl; rewrite ?scheduleAsyncCleanup_memory,
      ?scheduleAsyncCleanup_memoryMaxItems; (split; [|done]);
    repeat apply removeFromMemoryCache_wf; done.
Qed.








Lemma render_cached_afresh estimateSize domMessage cacheKey type request m e :
  memory_wf (memory m) → db m = DbFailed e →
  memoryCache (memory m) !! cacheKey = None →
  renders_afresh request
    (render_cached estimateSize domMessage cacheKey type request) (Some m).
Proof.
  intros Hwf Hdb Hmiss env response Hanswer. unfold render_cached.
  assert (∃ cached,
            proxy_get estimateSize domMessage cacheKey (get_delivery env)
              (get_init env) (get_now_lookup env) (get_now_insert env)
              (get_read env) (Some m) = Some (cached, Some m) ∧
            truthy cached = false) as (cached & -> & Hc).
  { unfold proxy_get. destruct (get_delivery env); [|by exists VNull].
    unfold handleContentCacheOperation, get, _getFromMemoryCache.
    rewrite Hmiss. simpl. unfold ensureDB. simpl. rewrite Hdb. simpl.
    rewrite with_memory_id. eexists. split; [done|]. by destruct (negb _). }
  simpl. rewrite Hc, Hanswer.
  assert (truthy (field "error" response) = false) as ->.
  { unfold _sendMessage in Hanswer. destruct (answer env); try done.
    destruct (negb _); [done|].
    destruct (truthy (field "error" response0)) eqn:He; [done|].
    by injection Hanswer as <-. }
  assert (∃ r g2,
            proxy_set estimateSize domMessage cacheKey response type
              (set_delivery env) (set_init env) (set_now_insert env)
              (set_now_item env) (set_put env) (Some m) = Some (r, g2))
    as (r & g2 & ->).
  { unfold proxy_set. destruct (set_delivery env); [|by eauto].
    unfold handleContentCacheOperation.
    destruct (set_total estimateSize cacheKey (serialized response) type
                (set_now_insert env) (set_now_item env) (set_put env) m Hwf)
      as (r & m' & -> & _).
    simpl. by eauto. }
  simpl. by eauto.
Qed.

(** X18. A failed store does not stop a render.  When the database of
    the manager in the background script failed to open and L1 does not
    hold the key, the [get] of the proxy gives nothing, the render
    request is sent, and the render delivers the answer of the
    renderer, whatever happens to the messages of the proxy.  This
    holds for the three render methods, one message handled at a
    time. *)
Theorem render_without_store estimateSize domMessage digest m e :
  memory_wf (memory m) → db m = DbFailed e →
  (∀ code,
     memoryCache (memory m) !! generateKey digest code "MERMAID_PNG" VNull = None →
     renders_afresh
       (VObj [("type", VStr "renderMermaid"); ("mermaid", VStr code)])
       (renderMermaidToPng estimateSize domMessage digest code) (Some m)) ∧
  (∀ html width,
     memoryCache (memory m)
       !! generateKey digest (html ++ toString (VNum width)) "HTML_PNG" VNull = None →
     renders_afresh
       (VObj [("type", VStr "renderHtml"); ("html", VStr html);
              ("width", VNum width)])
       (renderHtmlToPng estimateSize domMessage digest html width) (Some m)) ∧
  (∀ svg,
     memoryCache (memory m) !! generateKey digest svg "SVG_PNG" VNull = None →
     renders_afresh
       (VObj [("type", VStr "renderSvg"); ("svg", VStr svg)])
       (renderSvgToPng estimateSize domMessage digest svg) (Some m)).
Proof.
  intros Hwf Hdb.
  split; [|split]; intros; by apply (render_cached_afresh _ _ _ _ _ m e).
Qed.


Lemma render_without_store_witness :
  memory_wf (memory unavailable_manager) ∧
  db unavailable_manager = DbFailed open_error ∧
  memoryCache (memory unavailable_manager)
    !! generateKey sample_digest "graph TD" "MERMAID_PNG" VNull = None ∧
  renders_afresh sample_request
    (renderMermaidToPng sample_estimateSize sample_domMessage sample_digest
       "graph TD")
    (Some unavailable_manager).
Proof.
  assert (memory_wf (memory unavailable_manager)) as Hwf by wf_by_computation.
  assert (db unavailable_manager = DbFailed open_error) as Hdb by reflexivity.
  assert (memoryCache (memory unavailable_manager)
            !! generateKey sample_digest "graph TD" "MERMAID_PNG" VNull = None)
    as Hmiss by by_computation.
  split; [exact Hwf|]. split; [exact Hdb|]. split; [exact Hmiss|].
  exact (proj1 (render_without_store sample_estimateSize sample_domMessage
                  sample_digest unavailable_manager open_error Hwf Hdb)
           "graph TD" Hmiss).
Defined.


(** * The variant with blocking cleanup *)

Lemma deleteEach_spec keys deletes m store :
  Blocking.db m = DbOpen store →
  ∃ r m', Blocking.deleteEach keys deletes m = (r, m') ∧
    ((∀ k, k ∈ keys.*1 → deletes k = RequestSuccess) → r = Fulfilled ()) ∧
    (r = Fulfilled () →
     m' = Blocking.with_db (DbOpen (deleteAll keys store))
            (Blocking.with_memory
               (removeAllFromMemoryCache keys (Blocking.memory m)) m)).
Proof.
  revert m store. induction keys as [|[k t] keys IH]; intros m store Hdb.
  - exists (Fulfilled ()), m. split; [done|]. split; [done|]. intros _.
    destruct m; simpl in *. by rewrite Hdb.
  - cbn [Blocking.deleteEach fst]. unfold Blocking.delete, Blocking.ensureDB.
    simpl. rewrite Hdb.
    destruct (deletes k) as [|e] eqn:Hk.
    + match goal with |- context [Blocking.deleteEach keys deletes ?m1] =>
        destruct (IH m1 (base.delete k store) eq_refl)
          as (r & m' & Hrec & Hall & Hst) end.
      rewrite Hrec. exists r, m'. split; [done|]. split.
      * intros Hs. apply Hall. intros k' Hk'. apply Hs. set_solver.
      * intros Hr. by rewrite (Hst Hr).
    + match goal with |- context [Blocking.deleteEach keys deletes ?m1] =>
        destruct (IH m1 store Hdb) as (r & m' & Hrec & _) end.
      rewrite Hrec. exists (Rejected e), m'. split; [done|]. split; [|done].
      intros Hs. rewrite Hs in Hk by set_solver. done.
Qed.

(** The records a trim deletes are no newer than those it leaves. *)
Lemma keysToDelete_oldest n store k t k' item' :
  (k, t) ∈ keysToDelete n store →
  deleteAll (keysToDelete n store) store !! k' = Some item' →
  t ≤ item_accessTime item'.
Proof.
  rewrite keysToDelete_take. intros Hin Hlk.
  pose proof (index_scan_sorted store) as Hsorted.
  rewrite <- (take_drop n (index_scan store)) in Hsorted.
  apply StronglySorted_app in Hsorted as (Hcross & _ & _).
  rewrite deleteAll_lookup in Hlk. case_decide as Hk'; [done|].
  apply (Hcross (k, t) (k', item_accessTime item')); [done|].
  assert ((k', item_accessTime item') ∈ index_scan store) as Hs
    by (apply elem_of_index_scan; eauto).
  rewrite <- (take_drop n (index_scan store)) in Hs.
  apply elem_of_app in Hs as [Hs|Hs]; [|done].
  destruct Hk'. apply list_elem_of_fmap. by exists (k', item_accessTime item').
Qed.

Lemma blocking_cleanup_fulfilled cursor deletes m m' store :
  Blocking.db m = DbOpen store →
  Blocking.cleanup cursor deletes m = (Fulfilled (), m') →
  let doomed :=
    keysToDelete (size store - Blocking.kept (Blocking.maxItems m)) store in
  m' = Blocking.with_db (DbOpen (deleteAll doomed store))
         (Blocking.with_memory
            (removeAllFromMemoryCache doomed (Blocking.memory m)) m).
Proof.
  intros Hdb. unfold Blocking.cleanup, Blocking.ensureDB. rewrite Hdb.
  destruct cursor as [|e]; [|done].
  rewrite array_sort_sorted by apply StronglySorted_Sorted, index_scan_sorted.
  rewrite index_scan_length. cbv zeta.
  set (n := (size store - Blocking.kept (Blocking.maxItems m))%nat).
  rewrite keysToDelete_take.
  case_decide as Hn.
  - destruct (deleteEach_spec (take n (index_scan store)) deletes m store Hdb)
      as (r & m2 & -> & _ & Hst).
    intros [= -> <-]. by apply Hst.
  - intros [= <-]. replace n with 0%nat by lia. simpl.
    destruct m; simpl in *. by rewrite Hdb.
Qed.

(** X19. [cleanup()] of the blocking variant, its requests succeeding,
    cuts L2 down to the integer part of 80% of [maxItems] and leaves it
    alone when it holds no more.  The records deleted are the least
    recently accessed ones, none accessed later than a record that
    stays; their L1 entries go with them and nothing else changes. *)
Theorem blocking_cleanup_trims m store :
  Blocking.db m = DbOpen store →
  let doomed :=
    keysToDelete (size store - Blocking.kept (Blocking.maxItems m)) store in
  ∃ m' store',
    Blocking.cleanup RequestSuccess (λ _, RequestSuccess) m = (Fulfilled (), m') ∧
    Blocking.db m' = DbOpen store' ∧
    size store' = Nat.min (size store) (Blocking.kept (Blocking.maxItems m)) ∧
    (∀ k, store' !! k = if decide (k ∈ doomed.*1) then None else store !! k) ∧
    (∀ k, memoryCache (Blocking.memory m') !! k =
          if decide (k ∈ doomed.*1) then None
          else memoryCache (Blocking.memory m) !! k) ∧
    (∀ k t, (k, t) ∈ doomed →
       ∃ item, store !! k = Some item ∧ item_accessTime item = t) ∧
    (∀ k t k' item', (k, t) ∈ doomed → store' !! k' = Some item' →
       t ≤ item_accessTime item').
Proof.
  intros Hdb doomed.
  assert (∃ m', Blocking.cleanup RequestSuccess (λ _, RequestSuccess) m
                = (Fulfilled (), m')) as [m' Hc].
  { unfold Blocking.cleanup, Blocking.ensureDB. rewrite Hdb. cbv zeta.
    case_decide; [|by eexists].
    match goal with |- context [Blocking.deleteEach ?keys ?d m] =>
      destruct (deleteEach_spec keys d m store Hdb) as (r & m2 & -> & Hall & _) end.
    rewrite Hall by done. by eexists. }
  pose proof (blocking_cleanup_fulfilled _ _ _ _ _ Hdb Hc) as Hm'.
  cbv zeta in Hm'. fold doomed in Hm'.
  exists m', (deleteAll doomed store). split; [done|]. subst m'. simpl.
  split; [done|].
  destruct (keysToDelete_facts
              (size store - Blocking.kept (Blocking.maxItems m)) store)
    as (Hlen & Hnd & Hin); [lia|]. fold doomed in Hlen, Hnd, Hin.
  split; [rewrite deleteAll_size by done; lia|].
  split; [apply deleteAll_lookup|].
  split; [apply removeAllFromMemoryCache_lookup|].
  split.
  - intros k t Hk. unfold doomed in Hk. rewrite keysToDelete_take in Hk.
    apply subseteq_take, elem_of_index_scan in Hk as (item & ? & ->). eauto.
  - intros k t k' item'. apply keysToDelete_oldest.
Qed.




(** X21. Round trip in the blocking variant: after a [set(k, v, t)] that
    fulfils with its write committed, the [get(k)] that follows, no
    other operation in between, resolves to [v] when its L2 read
    succeeds; this is so even when the cleanup that the [set] awaited
    deleted the old record of [k] and, with it, the L1 entry that the
    [set] had just made. *)
Theorem blocking_set_then_get estimateSize key value type now1 now2
    count cursor deletes now3 now4 m m' :
  memory_wf (Blocking.memory m) →
  Blocking.set estimateSize key value type now1 now2 count cursor deletes
    PutSuccess m = Some (Some (Fulfilled ()), m') →
  ∃ m'', Blocking.get key now3 now4 ReadSuccess m' = Some (Fulfilled value, m'').
Proof.
  intros Hwf. unfold Blocking.set.
  destruct (addToMemoryCache_wf (Blocking.memoryMaxItems m) key value
              {| meta_type := type; originalTimestamp := None |} now1
              (Blocking.memory m) Hwf) as (mem1 & Hadd & Hwf1 & _).
  rewrite Hadd. simpl. unfold Blocking.ensureDB at 1. simpl.
  destruct (Blocking.db m) as [store|e] eqn:Hdb; [|done].
  intros Hset.
  (* the state before the [put] *)
  assert (∃ m2 store2, Blocking.db m2 = DbOpen store2 ∧
            memory_wf (Blocking.memory m2) ∧
            Blocking.memoryMaxItems m2 = Blocking.memoryMaxItems m ∧
            (∀ entry, memoryCache (Blocking.memory m2) !! key = Some entry →
                      entry_value entry = value) ∧
            m' = Blocking.with_db
                   (DbOpen (<[key := {| item_value := value; item_type := type;
                                        item_size := estimateSize value;
                                        item_timestamp := now2;
                                        item_accessTime := now2 |}]> store2)) m2)
    as (m2 & store2 & Hdb2 & Hwf2 & Hlim & Hentry & ->).
  { revert Hset. unfold Blocking.cleanupIfNeeded, Blocking.ensureDB. simpl.
    rewrite Hdb. destruct count as [|e]; [|done].
    assert (∀ entry, memoryCache mem1 !! key = Some entry →
                     entry_value entry = value) as Hentry1.
    { intros entry Hlk.
      exact (addToMemoryCache_lookup_key _ _ _ _ _ _ _ _ Hwf Hadd Hlk). }
    case_decide as Hfull.
    - destruct (Blocking.cleanup cursor deletes (Blocking.with_memory mem1 m))
        as [[[]|e] m2] eqn:Hc; [|done].
      pose proof (blocking_cleanup_fulfilled cursor deletes
                    (Blocking.with_memory mem1 m) m2 store Hdb Hc) as Hm2.
      cbv zeta in Hm2. simpl in Hm2. subst m2. simpl.
      intros [= <-].
      match goal with
      | |- context [Blocking.with_db (DbOpen (<[_ := _]> ?st)) ?mm] =>
          exists mm, st
      end.
      split; [done|]. simpl.
      split; [by apply removeAllFromMemoryCache_wf|]. split; [done|].
      split; [|done].
      intros entry [_ Hlk]%removeAllFromMemoryCache_entries. by apply Hentry1.
    - simpl. rewrite Hdb. intros [= <-].
      exists (Blocking.with_memory mem1 m), store. by simpl. }
  unfold Blocking.get. simpl.
  pose proof (getFromMemoryCache_wf key now3 _ Hwf2) as Hwf3.
  destruct (memoryCache (Blocking.memory m2) !! key) as [entry|] eqn:E.
  - rewrite (getFromMemoryCache_hit _ _ _ _ E) in *. simpl in Hwf3.
    pose proof (Hentry entry eq_refl) as Hv. rewrite Hv in *.
    destruct (not_null value) eqn:Hnn; [by eexists|].
    unfold Blocking.ensureDB. simpl. rewrite lookup_insert_eq. simpl.
    match goal with |- context [_addToMemoryCache ?l ?k ?x ?md ?n ?mem] =>
      destruct (addToMemoryCache_wf l k x md n mem Hwf3) as (mem4 & -> & _) end.
    by eexists.
  - assert (_getFromMemoryCache key now3 (Blocking.memory m2)
            = (VNull, Blocking.memory m2)) as Hmiss.
    { unfold _getFromMemoryCache. by rewrite E. }
    rewrite Hmiss in *. simpl.
    unfold Blocking.ensureDB. simpl. rewrite lookup_insert_eq. simpl.
    match goal with |- context [_addToMemoryCache ?l ?k ?x ?md ?n ?mem] =>
      destruct (addToMemoryCache_wf l k x md n mem Hwf2) as (mem4 & -> & _) end.
    by eexists.
Qed.

Lemma blocking_cleanup_trims_witness :
  Blocking.db blocking_full = DbOpen blocking_store ∧
  let doomed :=
    keysToDelete (size blocking_store - Blocking.kept (Blocking.maxItems blocking_full))
      blocking_store in
  ∃ m' store',
    Blocking.cleanup RequestSuccess (λ _, RequestSuccess) blocking_full
      = (Fulfilled (), m') ∧
    Blocking.db m' = DbOpen store' ∧
    size store' = Nat.min (size blocking_store)
                    (Blocking.kept (Blocking.maxItems blocking_full)) ∧
    (∀ k, store' !! k = if decide (k ∈ doomed.*1) then None
                        else blocking_store !! k) ∧
    (∀ k, memoryCache (Blocking.memory m') !! k =
          if decide (k ∈ doomed.*1) then None
          else memoryCache (Blocking.memory blocking_full) !! k) ∧
    (∀ k t, (k, t) ∈ doomed →
       ∃ item, blocking_store !! k = Some item ∧ item_accessTime item = t) ∧
    (∀ k t k' item', (k, t) ∈ doomed → store' !! k' = Some item' →
       t ≤ item_accessTime item').
Proof.
  assert (Blocking.db blocking_full = DbOpen blocking_store) as Hdb by reflexivity.
  split; [exact Hdb|].
  exact (blocking_cleanup_trims blocking_full blocking_store Hdb).
Defined.


Lemma blocking_set_then_get_witness :
  memory_wf (Blocking.memory blocking_full) ∧
  Blocking.set sample_estimateSize "f" (VStr "new") "mermaid" 6 6
    RequestSuccess RequestSuccess (λ _, RequestSuccess) PutSuccess blocking_full
    = Some (Some (Fulfilled ()), blocking_written) ∧
  ∃ m'', Blocking.get "f" 7 7 ReadSuccess blocking_written
         = Some (Fulfilled (VStr "new"), m'').
Proof.
  assert (memory_wf (Blocking.memory blocking_full)) as Hwf by wf_by_computation.
  assert (Blocking.set sample_estimateSize "f" (VStr "new") "mermaid" 6 6
            RequestSuccess RequestSuccess (λ _, RequestSuccess) PutSuccess
            blocking_full
          = Some (Some (Fulfilled ()), blocking_written)) as Hset by by_computation.
  split; [exact Hwf|]. split; [exact Hset|].
  exact (blocking_set_then_get sample_estimateSize "f" (VStr "new") "mermaid"
           6 6 RequestSuccess RequestSuccess (λ _, RequestSuccess) 7 7
           blocking_full blocking_written Hwf Hset).
Defined.

(** ** A write and its pass *)

(** X22. A write on an idle scheduler is followed by a pass that
    restores the limit on L2.  From a state reached by running
    operations one at a time, with the scheduler idle and the database
    open, a [set] whose write is committed, followed by its timer and
    by the pass the timer starts (requests succeeding, nothing else in
    between), ends with the scheduler idle again, no timer armed, and
    L2 holding [min(count, maxItems)] of the records it held after the
    write.  The record just written is among them when it is the most
    recently accessed one and [maxItems] is not 0. *)
Theorem write_restores_limit estimateSize key value type now1 now2 m store :
  reachable estimateSize m → db m = DbOpen store → scheduler_state m = Idle →
  let written :=
    <[key := {| item_value := value; item_type := type;
                item_size := estimateSize value;
                item_timestamp := now2; item_accessTime := now2 |}]> store in
  ∃ m',
    run estimateSize
      (write_and_pass key value type now1 now2
         (bool_decide (maxItems m < size written)%nat)) m = Some m' ∧
    scheduler_state m' = Idle ∧ timers m' = 0%nat ∧ passes m' = [] ∧
    size (store_of m') = Nat.min (size written) (maxItems m) ∧
    (∀ k item, store_of m' !! k = Some item → written !! k = Some item) ∧
    ((0 < maxItems m)%nat →
     (∀ k it, k ≠ key → store !! k = Some it → item_accessTime it < now2) →
     store_of m' !! key = written !! key).
Proof.
  intros Hr Hdb Hidle written.
  destruct (reachable_inv estimateSize m Hr) as [[Hwf _] [Hp Ht]].
  unfold scheduler_state in Hidle.
  destruct (cleanupInProgress m) eqn:Hprog; [done|].
  destruct (cleanupScheduled m) eqn:Hsched; [done|].
  apply length_zero_iff_nil in Hp.
  destruct (addToMemoryCache_wf (memoryMaxItems m) key value
              {| meta_type := type; originalTimestamp := None |} now1
              (memory m) Hwf) as (mem1 & Hadd & _).
  unfold write_and_pass. cbn [app run fire].
  unfold set. rewrite Hadd. cbn [mbind option_bind]. unfold ensureDB. cbn.
  rewrite Hdb. cbn. unfold _scheduleAsyncCleanup. cbn. rewrite Hsched, Hprog. cbn.
  unfold timer_callback, asyncCleanup_enter. cbn. rewrite Hprog, Hp. cbn.
  unfold pass_count, cleanup_count, ensureDB. cbn. fold written.
  case_bool_decide as Hover.
  - rewrite decide_False by lia. cbn -[cleanup_scan]. unfold pass_scan.
    set (n := (size written - maxItems m)%nat).
    destruct (keysToDelete_facts n written) as (Hlen & Hnd & Hin); [lia|].
    match goal with |- context [cleanup_scan n ScanSuccess ?m1] =>
      rewrite (cleanup_scan_success n m1 written eq_refl)
        by (intros Hnil; rewrite Hnil in Hlen; simpl in Hlen; lia) end.
    eexists. split; [done|]. unfold scheduler_state, store_of. cbn.
    split; [done|]. split; [done|]. split; [done|].
    split; [rewrite deleteAll_size by done; lia|]. split.
    + intros k item. rewrite deleteAll_lookup. by case_decide.
    + intros Hmax Hnewest. rewrite deleteAll_lookup.
      rewrite decide_False; [done|].
      eapply (newest_not_doomed n written key); [lia|apply lookup_insert_eq|].
      intros k it Hk. unfold written. rewrite lookup_insert_ne by done.
      simpl. by apply Hnewest.
  - rewrite decide_True by lia. cbn.
    eexists. split; [done|]. unfold scheduler_state, store_of. cbn.
    split; [done|]. split; [done|]. split; [done|].
    split; [lia|]. by split.
Qed.

Lemma write_restores_limit_witness :
  reachable sample_estimateSize sample_reopened ∧
  db sample_reopened = DbOpen sample_reopened_store ∧
  scheduler_state sample_reopened = Idle ∧
  let written :=
    <[ "b" := {| item_value := VStr "b"; item_type := "mermaid";
                 item_size := sample_estimateSize (VStr "b");
                 item_timestamp := 3; item_accessTime := 3 |}]>
      sample_reopened_store in
  ∃ m',
    run sample_estimateSize
      (write_and_pass "b" (VStr "b") "mermaid" 2 3
         (bool_decide (maxItems sample_reopened < size written)%nat))
      sample_reopened = Some m' ∧
    scheduler_state m' = Idle ∧ timers m' = 0%nat ∧ passes m' = [] ∧
    size (store_of m') = Nat.min (size written) (maxItems sample_reopened) ∧
    (∀ k item, store_of m' !! k = Some item → written !! k = Some item) ∧
    ((0 < maxItems sample_reopened)%nat →
     (∀ k it, k ≠ "b" → sample_reopened_store !! k = Some it →
        item_accessTime it < 3) →
     store_of m' !! "b" = written !! "b").
Proof.
  assert (reachable sample_estimateSize sample_reopened) as Hr
    by apply reachable_constructor.
  assert (db sample_reopened = DbOpen sample_reopened_store) as Hdb
    by reflexivity.
  assert (scheduler_state sample_reopened = Idle) as Hidle by reflexivity.
  split; [exact Hr|]. split; [exact Hdb|]. split; [exact Hidle|].
  exact (write_restores_limit sample_estimateSize "b" (VStr "b") "mermaid" 2 3
           sample_reopened sample_reopened_store Hr Hdb Hidle).
Defined.

End ExtensionCacheManager.
